(** * figma-to-html-ext: a shallow embedding of the extension's core services

    The development models, function by function, the TypeScript sources

    - [src/services/tailwindMapper.ts]  (module [TailwindMapper], and
      module [Binary64] for its search functions in double precision),
    - the responsive breakpoint helpers (module [Breakpoints]),
    - [src/services/aiService.ts], output validator (module [AiService]),
    - the Figma reference parser [parseFigmaUrl] (module [FigmaService]),
    - [src/services/codeWriter.ts]      (module [CodeWriter]),

    and then states and proves the properties of the specification against
    these definitions.  Further modules model the other functions of the
    same files: the remaining breakpoint helpers ([ResponsiveClasses]), the
    cleaning of a response ([MarkdownFences]), the licence service
    ([LicenseService]), the file names and folders of the writer
    ([FileNames]), the request of the Figma service ([FigmaRequest]) and
    the report of errors of the command ([Command]); Part IV proves
    further properties of the code.

    Conventions of the embedding.
    - A JavaScript string is the list of its UTF-16 code units ([jsstring]).
    - A JavaScript number is a rational ([Q]); array indices are integers
      ([Z]).  NaN and the infinities are outside the model.  The module
      [TailwindMapper] computes in exact arithmetic: it is the source as
      long as no result of its arithmetic is rounded.  The module
      [Binary64] computes with the rounding of double precision.
    - A thrown exception is an explicit error result.
    - The file system and the user interface of the host editor are an
      explicit state and an explicit record of answers. *)

From Stdlib Require Import ZArith NArith QArith Qabs Qminmax Lia Lqa List
  String Ascii Bool.
From stdpp Require Import gmap.
From Equations Require Import Equations.
Import ListNotations.

(* ===================================================================== *)
(** * Part I: the model                                                   *)
(* ===================================================================== *)

(** ** JavaScript values *)

Module JS.

(** A string value: its UTF-16 code units. *)
Definition jsstring := list N.

(** The string value of an ASCII literal of the source. *)
Definition js (s : string) : jsstring :=
  List.map N_of_ascii (list_ascii_of_string s).
Arguments js s%_string.

(** [a[i]]: [None] stands for [undefined] (index out of range). *)
Definition lookupZ {A} (l : list A) (i : Z) : option A :=
  if (i <? 0)%Z then None else nth_error l (Z.to_nat i).

(** [x < y] on numbers. *)
Definition Qltb (x y : Q) : bool := negb (Qle_bool y x).

End JS.
Import JS.

(** ** src/services/tailwindMapper.ts

    The functions of the mapper in exact arithmetic.  The source computes
    with doubles; the two agree as long as no difference
    [scale[i] - value] is rounded, as for whole numbers of at most 2^52 in
    magnitude.  The rounding itself is modelled in the module [Binary64]
    below. *)

Module TailwindMapper.

Local Open Scope Q_scope.

Definition SPACING_SCALE_PX : list Q :=
  [0; 2; 4; 6; 8; 10; 12; 14; 16; 20; 24; 28; 32; 36; 40; 44; 48; 52; 56;
   60; 64; 72; 80; 96].

Definition SPACING_UNITS : list jsstring :=
  [js "0"; js "0.5"; js "1"; js "1.5"; js "2"; js "2.5"; js "3"; js "3.5";
   js "4"; js "5"; js "6"; js "7"; js "8"; js "9"; js "10"; js "11";
   js "12"; js "14"; js "16"; js "20"; js "24"; js "28"; js "32"; js "36";
   js "40"; js "44"; js "48"; js "52"; js "56"; js "60"; js "64"; js "72";
   js "80"; js "96"].

(** An object literal used as a scale is the list of its entries in the
    order [Object.entries] yields them.  No key below is an integer index,
    so that order is the order of the literal. *)
Definition TEXT_SIZE_SCALE : list (jsstring * Q) :=
  [(js "xs", 12); (js "sm", 14); (js "base", 16); (js "lg", 18);
   (js "xl", 20); (js "2xl", 24); (js "3xl", 30); (js "4xl", 36);
   (js "5xl", 48); (js "6xl", 60); (js "7xl", 72); (js "8xl", 96);
   (js "9xl", 128)].

Definition RADIUS_SCALE : list (jsstring * Q) :=
  [(js "none", 0); (js "sm", 2); (js "DEFAULT", 4); (js "md", 6);
   (js "lg", 8); (js "xl", 12); (js "2xl", 16); (js "3xl", 24);
   (js "full", 9999)].

(** The body of both scans:
    [if (diff < closestDiff) { closestDiff = diff; closestIndex = i; }]. *)
Definition closer {I : Type} (value : Q) (i : I) (x : Q) (best : I * Q)
  : I * Q :=
  let diff := Qabs (x - value) in
  if Qltb diff (snd best) then (i, diff) else best.

(** The [while (left <= right)] loop of [findClosestIndex]; [lo] and [hi]
    are the variables [left] and [right].  A read outside the array yields
    [undefined]: both comparisons with it are false, so the state is kept
    and the search goes left. *)
Equations? bsearch (value : Q) (scale : list Q) (lo hi : Z) (best : Z * Q)
  : Z * Q by wf (Z.to_nat (hi - lo + 1)) lt :=
bsearch value scale lo hi best with Z_le_gt_dec lo hi => {
  | Specif.left _ with lookupZ scale ((lo + hi) / 2) => {
      | Some x with Qltb x value => {
          | true := bsearch value scale ((lo + hi) / 2 + 1) hi
                      (closer value ((lo + hi) / 2)%Z x best);
          | false := bsearch value scale lo ((lo + hi) / 2 - 1)
                      (closer value ((lo + hi) / 2)%Z x best) };
      | None := bsearch value scale lo ((lo + hi) / 2 - 1) best };
  | Specif.right _ := best }.
Proof. all: Z.to_euclidean_division_equations; lia. Qed.

(** The final [for (const idx of neighbors)] scan. *)
Definition scan_neighbors (value : Q) (scale : list Q) (neighbors : list Z)
    (best : Z * Q) : Z * Q :=
  fold_left
    (fun best idx =>
       match lookupZ scale idx with
       | Some x => closer value idx x best
       | None => best
       end)
    neighbors best.

Definition findClosestIndex (value : Q) (scale : list Q) : Z :=
  match scale with
  | [] => 0%Z
  | [_] => 0%Z
  | s0 :: _ =>
      let right := (Z.of_nat (length scale) - 1)%Z in
      let closestIndex := 0%Z in
      let closestDiff := Qabs (s0 - value) in
      if Qle_bool value s0 then 0%Z
      else if Qle_bool (List.last scale s0) value then right
      else
        let best := bsearch value scale 0 right (closestIndex, closestDiff) in
        let neighbors :=
          List.filter
            (fun i => (0 <=? i)%Z && (i <? Z.of_nat (length scale))%Z)
            [(fst best - 1)%Z; fst best; (fst best + 1)%Z] in
        fst (scan_neighbors value scale neighbors best)
  end.

(** [findClosestKey]: [None] is the [TypeError] of [entries[0][0]] on an
    object without entries. *)
Definition findClosestKey (value : Q) (scale : list (jsstring * Q))
  : option jsstring :=
  match scale with
  | [] => None
  | (k0, v0) :: _ =>
      Some (fst (fold_left
                   (fun best e => closer value (fst e) (snd e) best)
                   scale (k0, Qabs (v0 - value))))
  end.

(** [SPACING_UNITS[closestIndex]]; an index outside the table would read
    [undefined]. *)
Definition spacingToTailwind (px : Q) : jsstring :=
  let isNegative := Qltb px 0 in
  let absPx := Qabs px in
  let closestIndex := findClosestIndex absPx SPACING_SCALE_PX in
  let closestUnit :=
    match lookupZ SPACING_UNITS closestIndex with
    | Some u => u
    | None => js "undefined"
    end in
  if isNegative then js "-" ++ closestUnit else closestUnit.

Definition fontSizeToTailwind (px : Q) : option jsstring :=
  match findClosestKey px TEXT_SIZE_SCALE with
  | Some closestKey => Some (js "text-" ++ closestKey)
  | None => None
  end.

Definition radiusToTailwind (px : Q) : option jsstring :=
  if Qle_bool 1000 px then Some (js "rounded-full")
  else
    match findClosestKey px RADIUS_SCALE with
    | Some closestKey =>
        if decide (closestKey = js "DEFAULT") then Some (js "rounded")
        else Some (js "rounded-" ++ closestKey)
    | None => None
    end.

(** [findNearestWithTolerance]: [tolerance] is [None] when the argument is
    omitted; the result [None] is [null].  [findClosestIndex] always
    returns an index of a non-empty [scale] (lemma
    [findClosestIndex_in_range]), so [scale[closestIndex]] is a number. *)
Definition findNearestWithTolerance (value : Q) (scale : list Q)
    (tolerance : option Q) : option Q :=
  match scale with
  | [] => None
  | s0 :: _ =>
      let closestIndex := findClosestIndex value scale in
      let closestValue := List.nth (Z.to_nat closestIndex) scale s0 in
      let diff := Qabs (closestValue - value) in
      let defaultTolerance := Qmax (closestValue * (1 # 2)) 2 in
      let maxDiff :=
        match tolerance with Some t => t | None => defaultTolerance end in
      if Qltb maxDiff diff then None else Some closestValue
  end.

(** The UtilityScale invariant of the specification, as a test: the raw
    values never decrease from one entry to the next. *)
Fixpoint ascendingb (scale : list Q) : bool :=
  match scale with
  | [] => true
  | x :: rest =>
      match rest with
      | [] => true
      | y :: _ => Qle_bool x y && ascendingb rest
      end
  end.

(** The same for a scale with labels; its two sequences are paired 1:1 by
    construction. *)
Definition ascending_entries (scale : list (jsstring * Q)) : bool :=
  ascendingb (List.map snd scale).

End TailwindMapper.

(** ** src/services/tailwindMapper.ts in double precision

    The module [TailwindMapper] computes with exact rationals: it is what
    the source computes whenever no result of its arithmetic is rounded, as
    for whole numbers of pixels.  The source computes with IEEE 754
    doubles: the difference [scale[i] - value] and the product
    [closestValue * 0.5] are rounded to the nearest double, while
    comparisons, [Math.abs] and [Math.max] are exact.  Here the search
    functions are modelled with that rounding, given as a function [round]
    on the rationals (an overflow is the value of a rational above every
    double).  What is proved of them holds for every [round] that is
    monotone and keeps 0, as rounding to nearest does; read with the
    identity for [round], they are the functions of [TailwindMapper]. *)

Module Binary64.

Local Open Scope Q_scope.

Section Rounding.

Variable round : Q -> Q.

(** [Math.abs(x - value)]. *)
Definition absDiff (x value : Q) : Q := Qabs (round (x - value)).

Definition closer {I : Type} (value : Q) (i : I) (x : Q) (best : I * Q)
  : I * Q :=
  let diff := absDiff x value in
  if Qltb diff (snd best) then (i, diff) else best.

Equations? bsearch (value : Q) (scale : list Q) (lo hi : Z) (best : Z * Q)
  : Z * Q by wf (Z.to_nat (hi - lo + 1)) lt :=
bsearch value scale lo hi best with Z_le_gt_dec lo hi => {
  | Specif.left _ with lookupZ scale ((lo + hi) / 2) => {
      | Some x with Qltb x value => {
          | true := bsearch value scale ((lo + hi) / 2 + 1) hi
                      (closer value ((lo + hi) / 2)%Z x best);
          | false := bsearch value scale lo ((lo + hi) / 2 - 1)
                      (closer value ((lo + hi) / 2)%Z x best) };
      | None := bsearch value scale lo ((lo + hi) / 2 - 1) best };
  | Specif.right _ := best }.
Proof. all: Z.to_euclidean_division_equations; lia. Qed.

Definition scan_neighbors (value : Q) (scale : list Q) (neighbors : list Z)
    (best : Z * Q) : Z * Q :=
  fold_left
    (fun best idx =>
       match lookupZ scale idx with
       | Some x => closer value idx x best
       | None => best
       end)
    neighbors best.

Definition findClosestIndex (value : Q) (scale : list Q) : Z :=
  match scale with
  | [] => 0%Z
  | [_] => 0%Z
  | s0 :: _ =>
      let right := (Z.of_nat (length scale) - 1)%Z in
      let closestIndex := 0%Z in
      let closestDiff := absDiff s0 value in
      if Qle_bool value s0 then 0%Z
      else if Qle_bool (List.last scale s0) value then right
      else
        let best := bsearch value scale 0 right (closestIndex, closestDiff) in
        let neighbors :=
          List.filter
            (fun i => (0 <=? i)%Z && (i <? Z.of_nat (length scale))%Z)
            [(fst best - 1)%Z; fst best; (fst best + 1)%Z] in
        fst (scan_neighbors value scale neighbors best)
  end.

Definition findClosestKey (value : Q) (scale : list (jsstring * Q))
  : option jsstring :=
  match scale with
  | [] => None
  | (k0, v0) :: _ =>
      Some (fst (fold_left
                   (fun best e => closer value (fst e) (snd e) best)
                   scale (k0, absDiff v0 value)))
  end.

Definition findNearestWithTolerance (value : Q) (scale : list Q)
    (tolerance : option Q) : option Q :=
  match scale with
  | [] => None
  | s0 :: _ =>
      let closestIndex := findClosestIndex value scale in
      let closestValue := List.nth (Z.to_nat closestIndex) scale s0 in
      let diff := absDiff closestValue value in
      let defaultTolerance := Qmax (round (closestValue * (1 # 2))) 2 in
      let maxDiff :=
        match tolerance with Some t => t | None => defaultTolerance end in
      if Qltb maxDiff diff then None else Some closestValue
  end.

End Rounding.

(** No rounding: the arithmetic of [TailwindMapper]. *)
Definition exact (q : Q) : Q := q.

End Binary64.

(** ** Strings: white space and trimming *)

Module JSString.

Local Open Scope N_scope.

(** The code units [String.prototype.trim] strips and the class [\s]
    matches: WhiteSpace and LineTerminator of ECMAScript. *)
Definition isWhiteSpace (c : N) : bool :=
  ((9 <=? c) && (c <=? 13)) || (c =? 32) || (c =? 160) || (c =? 5760) ||
  ((8192 <=? c) && (c <=? 8202)) || (c =? 8232) || (c =? 8233) ||
  (c =? 8239) || (c =? 8287) || (c =? 12288) || (c =? 65279).

(** The line terminators, which [.] does not match. *)
Definition isLineTerminator (c : N) : bool :=
  (c =? 10) || (c =? 13) || (c =? 8232) || (c =? 8233).

Fixpoint trimStart (s : jsstring) : jsstring :=
  match s with
  | [] => []
  | c :: rest => if isWhiteSpace c then trimStart rest else s
  end.

Definition trimEnd (s : jsstring) : jsstring := rev (trimStart (rev s)).

Definition trim (s : jsstring) : jsstring := trimEnd (trimStart s).

Definition isEmpty (s : jsstring) : bool :=
  match s with [] => true | _ => false end.

Fixpoint takeWhile (p : N -> bool) (s : jsstring) : jsstring :=
  match s with
  | [] => []
  | c :: rest => if p c then c :: takeWhile p rest else []
  end.

Fixpoint dropWhile (p : N -> bool) (s : jsstring) : jsstring :=
  match s with
  | [] => []
  | c :: rest => if p c then dropWhile p rest else s
  end.

(** [String.prototype.toLowerCase], on the letters of ASCII. *)
Definition toLowerCase (s : jsstring) : jsstring :=
  List.map (fun c => if (65 <=? c) && (c <=? 90) then c + 32 else c) s.

Definition isUpper (c : N) : bool := (65 <=? c) && (c <=? 90).
Definition isLower (c : N) : bool := (97 <=? c) && (c <=? 122).
Definition isDigit (c : N) : bool := (48 <=? c) && (c <=? 57).
Definition isAlpha (c : N) : bool := isUpper c || isLower c.
Definition isAlnum (c : N) : bool := isAlpha c || isDigit c.

(** The two quote characters: the double quote and the apostrophe. *)
Definition dquote : N := 34.
Definition squote : N := 39.
Definition isQuote (c : N) : bool := (c =? dquote) || (c =? squote).

End JSString.
Import JSString.

(** ** Regular expressions

    The patterns of the sources use literals, character classes,
    alternation, grouping and the star and plus quantifiers, greedy or
    lazy; none of those modelled with this module uses an anchor, a
    back-reference or a look-around.  [RegExp.prototype.test] only asks
    whether some match exists, so a lazy quantifier is read as a greedy one.
    Every regular expression object is a fresh literal tested once, hence
    the [g] flag and [lastIndex] play no role. *)

Module Regex.

Local Open Scope N_scope.

Inductive regex : Type :=
| Void
| Eps
| Class (p : N -> bool)
| Seq (r1 r2 : regex)
| Alt (r1 r2 : regex)
| Star (r : regex).

(** The strings a pattern matches as a whole. *)
Inductive lang : regex -> jsstring -> Prop :=
| lang_eps : lang Eps []
| lang_class p c : p c = true -> lang (Class p) [c]
| lang_seq r1 r2 s1 s2 :
    lang r1 s1 -> lang r2 s2 -> lang (Seq r1 r2) (s1 ++ s2)
| lang_alt_l r1 r2 s : lang r1 s -> lang (Alt r1 r2) s
| lang_alt_r r1 r2 s : lang r2 s -> lang (Alt r1 r2) s
| lang_star_nil r : lang (Star r) []
| lang_star_app r s1 s2 :
    lang r s1 -> lang (Star r) s2 -> lang (Star r) (s1 ++ s2).

(** A string contains a match of the pattern. *)
Definition contains (r : regex) (s : jsstring) : Prop :=
  exists pre m post, s = pre ++ m ++ post /\ lang r m.

(** The matcher: derivatives of the pattern by the code units read. *)
Fixpoint nullable (r : regex) : bool :=
  match r with
  | Void => false
  | Eps => true
  | Class _ => false
  | Seq r1 r2 => nullable r1 && nullable r2
  | Alt r1 r2 => nullable r1 || nullable r2
  | Star _ => true
  end.

Definition seq (r1 r2 : regex) : regex :=
  match r1, r2 with
  | Void, _ => Void
  | _, Void => Void
  | Eps, _ => r2
  | _, _ => Seq r1 r2
  end.

Definition alt (r1 r2 : regex) : regex :=
  match r1, r2 with
  | Void, _ => r2
  | _, Void => r1
  | _, _ => Alt r1 r2
  end.

Fixpoint deriv (c : N) (r : regex) : regex :=
  match r with
  | Void => Void
  | Eps => Void
  | Class p => if p c then Eps else Void
  | Seq r1 r2 =>
      alt (seq (deriv c r1) r2) (if nullable r1 then deriv c r2 else Void)
  | Alt r1 r2 => alt (deriv c r1) (deriv c r2)
  | Star r1 => seq (deriv c r1) (Star r1)
  end.

Fixpoint matches (r : regex) (s : jsstring) : bool :=
  match s with
  | [] => nullable r
  | c :: rest => matches (deriv c r) rest
  end.

Definition any : regex := Class (fun _ => true).

(** [re.test(s)] for a pattern without anchors. *)
Definition test (r : regex) (s : jsstring) : bool :=
  matches (Seq (Star any) (Seq r (Star any))) s.

(** Pattern syntax. *)
Definition chr (c : N) : regex := Class (N.eqb c).
Definition chr_i (c : N) : regex :=
  Class (fun d => (d =? c) || (isLower c && (d =? c - 32))
                  || (isUpper c && (d =? c + 32))).
Fixpoint lit (s : jsstring) : regex :=
  match s with
  | [] => Eps
  | c :: rest => Seq (chr c) (lit rest)
  end.
Fixpoint lit_i (s : jsstring) : regex :=
  match s with
  | [] => Eps
  | c :: rest => Seq (chr_i c) (lit_i rest)
  end.
Definition plus (r : regex) : regex := Seq r (Star r).
Definition space : regex := Class isWhiteSpace.
Definition dot : regex := Class (fun c => negb (isLineTerminator c)).
Definition quote : regex := Class isQuote.
Definition not_quote : regex := Class (fun c => negb (isQuote c)).

Fixpoint seqs (rs : list regex) : regex :=
  match rs with
  | [] => Eps
  | [r] => r
  | r :: rest => Seq r (seqs rest)
  end.

End Regex.
Import Regex.

(** ** Responsive breakpoint helpers *)

Module Breakpoints.

(** The union type ['sm' | 'md' | 'lg' | 'xl' | '2xl']. *)
Inductive Breakpoint : Type := BP_sm | BP_md | BP_lg | BP_xl | BP_2xl.

Definition breakpoint_text (b : Breakpoint) : jsstring :=
  match b with
  | BP_sm => js "sm"
  | BP_md => js "md"
  | BP_lg => js "lg"
  | BP_xl => js "xl"
  | BP_2xl => js "2xl"
  end.

Definition withBreakpoint (breakpoint : Breakpoint) (className : jsstring)
  : jsstring :=
  if isEmpty className then className
  else breakpoint_text breakpoint ++ js ":" ++ className.

End Breakpoints.
Import Breakpoints.

(** ** src/services/aiService.ts: the output validator *)

Module AiService.

(** The outcome of a function that may throw [new Error(message)]. *)
Inductive result (A : Type) : Type :=
| Return (value : A)
| Throw (message : jsstring).
Arguments Return {A} value.
Arguments Throw {A} message.

Definition code (a : ascii) : N := N_of_ascii a.
Arguments code a%_char.

Definition jsxElementPattern : regex :=
  seqs [chr (code "<"); Class isAlpha; Star (Class isAlnum);
        Alt space (Alt (chr (code ">")) (chr (code "/")))].

Definition inlineStylePattern : regex :=
  seqs [lit (js "style"); Star space; chr (code "="); Star space;
        chr (code "{"); Star any; chr (code "}")].

Definition styleStringPattern : regex :=
  seqs [lit (js "style"); Star space; chr (code "="); Star space;
        quote; Star not_quote; quote].

(** The only pattern with the [i] flag. *)
Definition styleTagPattern : regex :=
  seqs [lit_i (js "<style"); Star (Class (fun c => negb (c =? code ">")%N));
        chr (code ">"); Star any; lit_i (js "</style>")].

Definition styledComponentsPattern : regex :=
  Alt (Seq (lit (js "styled.")) (plus (Class isAlpha)))
   (Alt (seqs [lit (js "css"); Star space; chr (code "`")])
     (Alt (lit (js "@emotion"))
       (Alt (lit (js "makeStyles")) (lit (js "styled("))))).

Definition cssInClassNamePattern : regex :=
  seqs [lit (js "className"); Star space; chr (code "="); Star space;
        quote; Star not_quote;
        Class (fun c => (c =? code ":")%N || (c =? code ";")%N);
        Star space; Star not_quote; quote].

Definition cssImportPattern : regex :=
  seqs [lit (js "import"); plus space; quote; Star dot; lit (js ".css");
        quote].

Definition cssModulePattern : regex :=
  seqs [lit (js "import"); plus space; Star dot; plus space;
        lit (js "from"); plus space; quote; Star dot;
        lit (js ".module.css"); quote].

Definition requireCssPattern : regex :=
  seqs [lit (js "require"); Star space; chr (code "("); quote; Star dot;
        lit (js ".css"); quote; chr (code ")")].

Definition openingTagPattern : regex :=
  Seq (chr (code "<")) (Class isAlpha).

(** The messages of the errors thrown, one per check. *)
Definition MSG_EMPTY : jsstring :=
  js "Rejected: Output is empty. JSX code is required.".
Definition MSG_NO_JSX : jsstring :=
  js "Rejected: Output does not contain valid JSX code. Expected JSX elements.".
Definition MSG_INLINE_STYLE : jsstring :=
  js "Rejected: Output contains inline styles (style={{ }}). Only Tailwind CSS classes are allowed.".
Definition MSG_STYLE_STRING : jsstring :=
  js "Rejected: Output contains inline style strings (style=" ++ [dquote]
  ++ js "..." ++ [dquote]
  ++ js "). Only Tailwind CSS classes are allowed.".
Definition MSG_STYLE_TAG : jsstring :=
  js "Rejected: Output contains <style> tags. Only Tailwind CSS classes are allowed.".
Definition MSG_CSS_IN_JS : jsstring :=
  js "Rejected: Output contains CSS-in-JS patterns. Only Tailwind CSS classes are allowed.".
Definition MSG_CSS_IN_CLASSNAME : jsstring :=
  js "Rejected: Output contains CSS-like syntax in className. Only Tailwind utility classes are allowed.".
Definition MSG_CSS_IMPORT : jsstring :=
  js "Rejected: Output contains CSS imports. Only Tailwind CSS classes are allowed.".
Definition MSG_CSS_MODULE : jsstring :=
  js "Rejected: Output contains CSS modules. Only Tailwind CSS classes are allowed.".
Definition MSG_REQUIRE_CSS : jsstring :=
  js "Rejected: Output contains require() CSS imports. Only Tailwind CSS classes are allowed.".
Definition MSG_NO_TAG : jsstring :=
  js "Rejected: Output does not appear to be valid JSX code.".

Definition validateJSXOutput (jsxCode : jsstring) : result jsstring :=
  let trimmed := trim jsxCode in
  if isEmpty trimmed then Throw MSG_EMPTY
  else if negb (test jsxElementPattern trimmed) then Throw MSG_NO_JSX
  else if test inlineStylePattern trimmed then Throw MSG_INLINE_STYLE
  else if test styleStringPattern trimmed then Throw MSG_STYLE_STRING
  else if test styleTagPattern trimmed then Throw MSG_STYLE_TAG
  else if test styledComponentsPattern trimmed then Throw MSG_CSS_IN_JS
  else if test cssInClassNamePattern trimmed then Throw MSG_CSS_IN_CLASSNAME
  else if test cssImportPattern trimmed then Throw MSG_CSS_IMPORT
  else if test cssModulePattern trimmed then Throw MSG_CSS_MODULE
  else if test requireCssPattern trimmed then Throw MSG_REQUIRE_CSS
  else
    let hasOpeningTag := test openingTagPattern trimmed in
    if negb hasOpeningTag then Throw MSG_NO_TAG
    else Return trimmed.

(** The gate as the specification words it: an ordered list of rejection
    conditions, each with the violation it raises. *)
Definition gate : list ((jsstring -> Prop) * jsstring) :=
  [ (fun t => t = [], MSG_EMPTY);
    (fun t => ~ contains jsxElementPattern t, MSG_NO_JSX);
    (contains inlineStylePattern, MSG_INLINE_STYLE);
    (contains styleStringPattern, MSG_STYLE_STRING);
    (contains styleTagPattern, MSG_STYLE_TAG);
    (contains styledComponentsPattern, MSG_CSS_IN_JS);
    (contains cssInClassNamePattern, MSG_CSS_IN_CLASSNAME);
    (contains cssImportPattern, MSG_CSS_IMPORT);
    (contains cssModulePattern, MSG_CSS_MODULE);
    (contains requireCssPattern, MSG_REQUIRE_CSS) ].

(** [first_violation checks t m]: [m] is the violation of the first check
    of [checks] whose condition holds of [t]. *)
Inductive first_violation
  : list ((jsstring -> Prop) * jsstring) -> jsstring -> jsstring -> Prop :=
| first_here (P : jsstring -> Prop) m rest t :
    P t -> first_violation ((P, m) :: rest) t m
| first_later (P : jsstring -> Prop) m' rest t m :
    ~ P t -> first_violation rest t m ->
    first_violation ((P, m') :: rest) t m.

End AiService.
Import AiService.

(** ** The Figma reference parser ([parseFigmaUrl]) *)

Module FigmaService.

Local Open Scope N_scope.

(** *** [decodeURIComponent]

    The Decode operation of ECMAScript with an empty set of preserved
    escapes: a code unit other than the percent sign is copied; a percent
    sign starts an escape of two hexadecimal digits, and an escape with n
    leading one bits starts a UTF-8 sequence of n escaped octets, which must
    encode a code point.  [None] is the URIError. *)

Definition hexValue (c : N) : option N :=
  if isDigit c then Some (c - 48)
  else if (65 <=? c) && (c <=? 70) then Some (c - 55)
  else if (97 <=? c) && (c <=? 102) then Some (c - 87)
  else None.

(** The octet written by the two code units at the head of [s]. *)
Definition parseHexOctet (s : jsstring) : option N :=
  match s with
  | h1 :: h2 :: _ =>
      match hexValue h1, hexValue h2 with
      | Some a, Some b => Some (16 * a + b)
      | _, _ => None
      end
  | _ => None
  end.

Definition percent : N := 37.

Definition leadingOnes (b : N) : nat :=
  if b <? 128 then 0
  else if b <? 192 then 1
  else if b <? 224 then 2
  else if b <? 240 then 3
  else if b <? 248 then 4
  else 5.

(** The [m] escaped octets that continue a sequence. *)
Fixpoint continuationOctets (m : nat) (s : jsstring) : option (list N) :=
  match m with
  | O => Some []
  | S m' =>
      match s with
      | c :: rest =>
          if c =? percent then
            match parseHexOctet rest with
            | Some b =>
                match continuationOctets m' (skipn 2 rest) with
                | Some bs => Some (b :: bs)
                | None => None
                end
            | None => None
            end
          else None
      | [] => None
      end
  end.

(** The code point of a UTF-8 sequence with first octet [b], if the
    sequence is well formed. *)
Definition utf8CodePoint (b : N) (rest : list N) : option N :=
  if forallb (fun o => (128 <=? o) && (o <? 192)) rest then
    let payload := fold_left (fun acc o => acc * 64 + (o - 128)) rest in
    match rest with
    | [_] =>
        let v := payload (b - 192) in
        if 128 <=? v then Some v else None
    | [_; _] =>
        let v := payload (b - 224) in
        if (2048 <=? v) && negb ((55296 <=? v) && (v <=? 57343))
        then Some v else None
    | [_; _; _] =>
        let v := payload (b - 240) in
        if (65536 <=? v) && (v <=? 1114111) then Some v else None
    | _ => None
    end
  else None.

Definition utf16Encode (v : N) : jsstring :=
  if v <? 65536 then [v]
  else [55296 + (v - 65536) / 1024; 56320 + (v - 65536) mod 1024].

Equations? decodeURIComponent (s : jsstring) : option jsstring
  by wf (length s) lt :=
decodeURIComponent [] := Some [];
decodeURIComponent (c :: rest) with (c =? percent) => {
  | false with decodeURIComponent rest => {
      | Some r := Some (c :: r);
      | None := None };
  | true with parseHexOctet rest => {
      | None := None;
      | Some b with leadingOnes b => {
          | O with decodeURIComponent (skipn 2 rest) => {
              | Some r := Some (b :: r);
              | None := None };
          | S O := None;
          | S (S k) with (k <? 3)%nat => {
              | false := None;
              | true with continuationOctets (S k) (skipn 2 rest) => {
                  | None := None;
                  | Some bs with utf8CodePoint b bs => {
                      | None := None;
                      | Some v
                        with decodeURIComponent
                               (skipn (2 + 3 * S k) rest) => {
                          | Some r := Some (utf16Encode v ++ r);
                          | None := None } } } } } } }.
Proof.
  all: cbn [length]; try rewrite length_skipn; lia.
Qed.

(** *** The patterns of [parseFigmaUrl] *)

(** The pattern of the bare identifier, anchored at both ends: one or more
    letters or digits and nothing else. *)
Definition isBareIdentifier (s : jsstring) : bool :=
  negb (isEmpty s) && forallb isAlnum s.

(** [s] without the prefix [p], when it starts with it. *)
Fixpoint stripPrefix (p s : jsstring) : option jsstring :=
  match p, s with
  | [], _ => Some s
  | a :: p', b :: s' => if a =? b then stripPrefix p' s' else None
  | _ :: _, [] => None
  end.

(** The longest non-empty run of [p] at the head of [s]: a greedy group
    with the plus quantifier at the end of a pattern. *)
Definition greedyRun (p : N -> bool) (s : jsstring) : option jsstring :=
  match takeWhile p s with
  | [] => None
  | run => Some run
  end.

(** The document pattern, matched at the head of [s]; the result is its
    capture group.  The alternatives [file] and [design] are tried in this
    order, each followed by the rest of the pattern. *)
Definition matchFileAt (s : jsstring) : option jsstring :=
  match stripPrefix (js "figma.com/") s with
  | None => None
  | Some r =>
      let continue r' :=
        match stripPrefix (js "/") r' with
        | Some r'' => greedyRun isAlnum r''
        | None => None
        end in
      match
        match stripPrefix (js "file") r with
        | Some r' => continue r'
        | None => None
        end
      with
      | Some id => Some id
      | None =>
          match stripPrefix (js "design") r with
          | Some r' => continue r'
          | None => None
          end
      end
  end.

Definition isQueryMark (c : N) : bool := (c =? 63) || (c =? 38).
Definition notAmpersand (c : N) : bool := negb (c =? 38).

(** The node pattern, matched at the head of [s]. *)
Definition matchNodeAt (s : jsstring) : option jsstring :=
  match s with
  | c :: rest =>
      if isQueryMark c then
        match stripPrefix (js "node-id=") rest with
        | Some r => greedyRun notAmpersand r
        | None => None
        end
      else None
  | [] => None
  end.

(** [s.match(re)] without the [g] flag: the match at the leftmost position
    where the pattern matches. *)
Fixpoint leftmost {A} (matchAt : jsstring -> option A) (s : jsstring)
  : option A :=
  match matchAt s with
  | Some x => Some x
  | None =>
      match s with
      | [] => None
      | _ :: rest => leftmost matchAt rest
      end
  end.

(** The document pattern as a regular expression. *)
Definition filePattern : regex :=
  seqs [lit (js "figma.com/"); Alt (lit (js "file")) (lit (js "design"));
        chr 47; plus (Class isAlnum)].

Record ParsedFigmaUrl : Type :=
  { fileId : jsstring; nodeId : option jsstring }.

(** The outcome of [parseFigmaUrl]: the parsed reference, the error it
    throws itself, or the URIError of [decodeURIComponent]. *)
Inductive outcome : Type :=
| Parsed (p : ParsedFigmaUrl)
| ThrowError (message : jsstring)
| ThrowURIError.

Definition parseFigmaUrl (figmaUrl : jsstring) : outcome :=
  let trimmed := trim figmaUrl in
  if isBareIdentifier trimmed
  then Parsed {| fileId := trimmed; nodeId := None |}
  else
    match leftmost matchFileAt trimmed with
    | None => ThrowError (js "Invalid Figma URL format: " ++ figmaUrl)
    | Some fileId =>
        match leftmost matchNodeAt trimmed with
        | Some raw =>
            match decodeURIComponent raw with
            | Some nodeId =>
                Parsed {| fileId := fileId; nodeId := Some nodeId |}
            | None => ThrowURIError
            end
        | None => Parsed {| fileId := fileId; nodeId := None |}
        end
    end.

End FigmaService.
Import FigmaService.

(** ** src/services/codeWriter.ts *)

Module CodeWriter.

Local Open Scope N_scope.

(** *** Paths

    An absolute, normalised path is the list of its segments.  The functions
    of the [path] module are modelled in their POSIX flavour.  The string
    that [path.join] returns keeps the trailing separator of its last
    argument: it is a path together with that mark ([pathString]).  The
    workspace folder and the directories joined below it from the names of
    the source ([pages], [components], [.figma-temp]) carry no such mark
    and are plain paths. *)
Abbreviation path := (list (list N)).

Record pathString : Type :=
  { segments : path;
    trailingSeparator : bool }.

Definition slash : N := 47.
Definition dot_char : N := 46.

Fixpoint splitPath (s : jsstring) : list jsstring :=
  match s with
  | [] => [[]]
  | c :: rest =>
      if c =? slash then [] :: splitPath rest
      else
        match splitPath rest with
        | seg :: segs => (c :: seg) :: segs
        | [] => [[c]]
        end
  end.

Definition pushSegment (p : path) (seg : jsstring) : path :=
  if decide (seg = []) then p
  else if decide (seg = js ".") then p
  else if decide (seg = js "..") then removelast p
  else p ++ [seg].

(** [s.endsWith('/')]. *)
Definition endsWithSeparator (s : jsstring) : bool :=
  match rev s with
  | c :: _ => c =? slash
  | [] => false
  end.

(** [path.join(dir, rel)] for a directory [dir]: the segments of [rel] are
    resolved from [dir], and the result ends with a separator exactly when
    [rel] does. *)
Definition join (dir : path) (rel : jsstring) : pathString :=
  {| segments := fold_left pushSegment (splitPath rel) dir;
     trailingSeparator := endsWithSeparator rel |}.

(** [path.basename(p)] of a normalised path; a trailing separator is
    ignored, so the segments of the path decide. *)
Definition basename (p : path) : jsstring := List.last p [].

(** The last component of a name, trailing separators ignored, as
    [path.extname] and [path.basename] see it. *)
Definition lastComponent (name : jsstring) : jsstring :=
  rev (takeWhile (fun c => negb (c =? slash))
         (dropWhile (N.eqb slash) (rev name))).

(** [path.extname(name)]: from the last dot of the last component, unless
    there is none, it is the first character, or the component is [..]. *)
Definition extname (name : jsstring) : jsstring :=
  let r := dropWhile (N.eqb slash) (rev name) in
  let rbase := takeWhile (fun c => negb (c =? slash)) r in
  let rext := takeWhile (fun c => negb (c =? dot_char)) rbase in
  match skipn (length rext) rbase with
  | [] => []
  | [_] => []
  | _ :: _ :: _ =>
      if decide (rbase = js "..") then [] else dot_char :: rev rext
  end.

(** The digits of [String(n)] for a non-negative integer. *)
Fixpoint digits (d : Decimal.uint) : jsstring :=
  match d with
  | Decimal.Nil => []
  | Decimal.D0 d' => 48 :: digits d'
  | Decimal.D1 d' => 49 :: digits d'
  | Decimal.D2 d' => 50 :: digits d'
  | Decimal.D3 d' => 51 :: digits d'
  | Decimal.D4 d' => 52 :: digits d'
  | Decimal.D5 d' => 53 :: digits d'
  | Decimal.D6 d' => 54 :: digits d'
  | Decimal.D7 d' => 55 :: digits d'
  | Decimal.D8 d' => 56 :: digits d'
  | Decimal.D9 d' => 57 :: digits d'
  end.

Definition decimal (n : N) : jsstring := digits (N.to_uint n).

(** *** The file system *)

Inductive node : Type :=
| File (content : jsstring)
| Dir.

(** [fs.existsSync]. *)
Definition existsSync (fs : gmap path node) (p : path) : bool :=
  match fs !! p with Some _ => true | None => false end.

(** [fs.mkdirSync(p, { recursive: true })]: the missing directories from
    [base] down are created; [None] is the exception raised when a file is
    in the way. *)
Fixpoint mkdirFrom (fs : gmap path node) (base : path) (segs : list jsstring)
  : option (gmap path node) :=
  match segs with
  | [] => Some fs
  | seg :: rest =>
      match fs !! (base ++ [seg]) with
      | Some (File _) => None
      | Some Dir => mkdirFrom fs (base ++ [seg]) rest
      | None => mkdirFrom (<[base ++ [seg] := Dir]> fs) (base ++ [seg]) rest
      end
  end.

Definition mkdirSync (fs : gmap path node) (p : path)
  : option (gmap path node) :=
  mkdirFrom fs [] p.

(** Every directory from [base] down to the last segment exists. *)
Fixpoint dirsFrom (fs : gmap path node) (base : path) (segs : list jsstring)
  : bool :=
  match segs with
  | [] => true
  | seg :: rest =>
      match fs !! (base ++ [seg]) with
      | Some Dir => dirsFrom fs (base ++ [seg]) rest
      | _ => false
      end
  end.

(** [p] is an existing directory, as are the directories above it. *)
Definition isDirectory (fs : gmap path node) (p : path) : bool :=
  dirsFrom fs [] p.

(** [fs.readFileSync(p, 'utf-8')]; [None] is the exception for a missing
    path or a directory. *)
Definition readFileSync (fs : gmap path node) (p : path) : option jsstring :=
  match fs !! p with
  | Some (File content) => Some content
  | _ => None
  end.

(** [vscode.workspace.fs.writeFile]: replaces the content of the file,
    creating it and its missing parent directories; [None] is the exception
    raised when the path is a directory or a file is in the way. *)
Definition writeFile (fs : gmap path node) (p : path) (content : jsstring)
  : option (gmap path node) :=
  match fs !! p with
  | Some Dir => None
  | _ =>
      match mkdirSync fs (removelast p) with
      | Some fs' => Some (<[p := File content]> fs')
      | None => None
      end
  end.

Fixpoint isPrefix (p q : path) : bool :=
  match p, q with
  | [], _ => true
  | a :: p', b :: q' => if decide (a = b) then isPrefix p' q' else false
  | _ :: _, [] => false
  end.

(** The same calls on a path string.  One that ends with a separator
    resolves to a directory only: [fs.existsSync] is true of it when a
    directory stands at its segments, and it can be neither read nor
    written as a file (EISDIR, or ENOTDIR over a regular file). *)
Definition existsSyncAt (fs : gmap path node) (s : pathString) : bool :=
  if trailingSeparator s then
    match fs !! segments s with Some Dir => true | _ => false end
  else existsSync fs (segments s).

Definition readFileSyncAt (fs : gmap path node) (s : pathString)
  : option jsstring :=
  if trailingSeparator s then None else readFileSync fs (segments s).

Definition writeFileAt (fs : gmap path node) (s : pathString)
    (content : jsstring) : option (gmap path node) :=
  if trailingSeparator s then None else writeFile fs (segments s) content.

(** [vscode.workspace.fs.delete(p, { useTrash: false })], errors ignored: a
    file or an empty directory is removed. *)
Definition deleteQuietly (fs : gmap path node) (p : path) : gmap path node :=
  match fs !! p with
  | Some (File _) => delete p fs
  | Some Dir =>
      if existsb (fun q => isPrefix p q && negb (bool_decide (q = p)))
           (List.map fst (map_to_list fs))
      then fs else delete p fs
  | None => fs
  end.

(** *** The editor and the state of an invocation *)

Inductive event : Type :=
| Information (message : jsstring)
| Warning
| DiffShown (left right : path)
| Prompt (filePath : path).

Record World : Type :=
  { files : gmap path node;
    timers : list path;
    events : list event }.

(** What the environment answers during one invocation: the first workspace
    folder, the successive readings of [Date.now()], and the button chosen
    in the confirmation prompt ([None] when the prompt is dismissed). *)
Record Env : Type :=
  { workspaceFolder : option path;
    now1 : N;
    now2 : N;
    answer : option jsstring }.

Inductive TargetFolder : Type := Pages | Components.

Definition folderName (f : TargetFolder) : jsstring :=
  match f with Pages => js "pages" | Components => js "components" end.

Record WriteOptions : Type :=
  { fileName : jsstring;
    targetFolder : option TargetFolder;
    showDiff : option bool }.

(** The result of [writeJSXCode]: the URI written or [null], the error it
    throws itself, or an exception of the file system. *)
Inductive outcome : Type :=
| Returned (uri : option path)
| ThrewError (message : jsstring)
| ThrewFsError.

Definition withFiles (w : World) (fs : gmap path node) : World :=
  {| files := fs; timers := timers w; events := events w |}.

Definition log (w : World) (e : event) : World :=
  {| files := files w; timers := timers w; events := events w ++ [e] |}.

(** [scheduleTempFileCleanup]: the deletion itself runs 30 seconds later,
    see [runCleanup].  A timer is only scheduled for a scratch file that
    has been written, hence for a path without trailing separator. *)
Definition scheduleTempFileCleanup (w : World) (tempUri : path) : World :=
  {| files := files w; timers := timers w ++ [tempUri]; events := events w |}.

(** The body of a cleanup timer. *)
Definition cleanupBody (fs : gmap path node) (tempUri : path)
  : gmap path node :=
  if existsSync fs tempUri then deleteQuietly fs tempUri else fs.

(** All the scheduled timers fire. *)
Definition runCleanup (w : World) : World :=
  {| files := fold_left cleanupBody (timers w) (files w);
     timers := [];
     events := events w |}.

Definition tempDirOf (ws : path) : path :=
  segments (join ws (js ".figma-temp")).

(** The directory [.figma-temp], created when missing. *)
Definition ensureTempDir (fs : gmap path node) (ws : path)
  : option (gmap path node) :=
  if existsSync fs (tempDirOf ws) then Some fs
  else mkdirSync fs (tempDirOf ws).

Definition tempName (prefix : jsstring) (now : N) (name : jsstring)
  : jsstring :=
  prefix ++ decimal now ++ js "-" ++ name.

(** [showDiffPreview]; every exception is caught and turned into a
    warning.  [fileUri] is given by its segments: only its base name is
    used. *)
Definition showDiffPreview (env : Env) (w : World) (fileUri : path)
    (existingContent newContent : jsstring) : World :=
  match workspaceFolder env with
  | None => w
  | Some ws =>
      match ensureTempDir (files w) ws with
      | None => log w Warning
      | Some fs1 =>
          let tempUri :=
            join (tempDirOf ws)
              (tempName (js "temp-") (now1 env) (basename fileUri)) in
          match writeFileAt fs1 tempUri newContent with
          | None => log (withFiles w fs1) Warning
          | Some fs2 =>
              scheduleTempFileCleanup
                (log (withFiles w fs2) (DiffShown fileUri (segments tempUri)))
                (segments tempUri)
          end
      end
  end.

(** [showDiffPreviewForNewFile]; its argument [fileUri] is not used. *)
Definition showDiffPreviewForNewFile (env : Env) (w : World) (fileUri : path)
    (newContent : jsstring) (targetFolder fileName : jsstring) : World :=
  match workspaceFolder env with
  | None => w
  | Some ws =>
      match ensureTempDir (files w) ws with
      | None => log w Warning
      | Some fs1 =>
          let tempUri :=
            join (tempDirOf ws) (tempName (js "temp-") (now1 env) fileName) in
          let emptyUri :=
            join (tempDirOf ws) (tempName (js "empty-") (now2 env) fileName) in
          match writeFileAt fs1 tempUri newContent with
          | None => log (withFiles w fs1) Warning
          | Some fs2 =>
              match writeFileAt fs2 emptyUri [] with
              | None => log (withFiles w fs2) Warning
              | Some fs3 =>
                  scheduleTempFileCleanup
                    (scheduleTempFileCleanup
                       (log (withFiles w fs3)
                          (DiffShown (segments emptyUri) (segments tempUri)))
                       (segments tempUri))
                    (segments emptyUri)
              end
          end
      end
  end.

(** [askUserConfirmation]: the prompt is shown and [action === 'Yes'] is
    returned. *)
Definition askUserConfirmation (env : Env) (w : World) (filePath : path)
  : bool * World :=
  (bool_decide (answer env = Some (js "Yes")), log w (Prompt filePath)).

(** The file name with its extension coerced to [.tsx] unless it already is
    [.tsx] or [.jsx]. *)
Definition coerceExtension (fileName : jsstring) : jsstring :=
  let ext := toLowerCase (extname fileName) in
  if bool_decide (ext <> js ".tsx") && bool_decide (ext <> js ".jsx")
  then fileName ++ js ".tsx"
  else fileName.

Definition targetFolderOf (options : WriteOptions) : jsstring :=
  match targetFolder options with
  | Some f => folderName f
  | None => js "components"
  end.

(** The resolved destination of a write below the workspace folder [ws]:
    the target directory, the path string of the destination, and the
    segments of that string. *)
Definition targetDirOf (ws : path) (options : WriteOptions) : path :=
  segments (join ws (targetFolderOf options)).

Definition destinationOf (ws : path) (options : WriteOptions) : pathString :=
  join (targetDirOf ws options) (coerceExtension (fileName options)).

Definition filePathOf (ws : path) (options : WriteOptions) : path :=
  segments (destinationOf ws options).

Definition alreadyExistsMessage (options : WriteOptions) : jsstring :=
  js "File already exists: " ++ targetFolderOf options ++ js "/" ++
  coerceExtension (fileName options) ++
  js ". Cannot overwrite existing files.".

Definition writeJSXCode (env : Env) (w : World) (jsxCode : jsstring)
    (options : WriteOptions) : outcome * World :=
  match workspaceFolder env with
  | None => (ThrewError (js "No workspace folder found"), w)
  | Some workspacePath =>
      let targetFolder := targetFolderOf options in
      let targetDir := segments (join workspacePath targetFolder) in
      match
        (if existsSync (files w) targetDir then Some (files w)
         else mkdirSync (files w) targetDir)
      with
      | None => (ThrewFsError, w)
      | Some fs1 =>
          let w1 := withFiles w fs1 in
          let fileName := coerceExtension (fileName options) in
          let filePath := join targetDir fileName in
          let fileUri := filePath in
          if existsSyncAt (files w1) filePath then
            match readFileSyncAt (files w1) filePath with
            | None => (ThrewFsError, w1)
            | Some existingContent =>
                let w2 :=
                  if bool_decide (showDiff options <> Some false)
                  then showDiffPreview env w1 (segments fileUri)
                         existingContent jsxCode
                  else w1 in
                (ThrewError (alreadyExistsMessage options), w2)
            end
          else
            let w2 :=
              if bool_decide (showDiff options <> Some false)
              then showDiffPreviewForNewFile env w1 (segments fileUri)
                     jsxCode targetFolder fileName
              else w1 in
            let '(confirmed, w3) :=
              askUserConfirmation env w2 (segments filePath) in
            if negb confirmed then (Returned None, w3)
            else
              match writeFileAt (files w3) fileUri jsxCode with
              | None => (ThrewFsError, w3)
              | Some fs4 =>
                  (Returned (Some (segments fileUri)),
                   log (withFiles w3 fs4)
                     (Information
                        (js "Generated component saved to " ++ targetFolder
                         ++ js "/" ++ fileName)))
              end
      end
  end.

End CodeWriter.
Import CodeWriter.

(** ** Further functions of the sources

    The modules below model the functions of the same files that the
    modules above leave out, and reuse their definitions. *)

(** *** src/services/tailwindMapper.ts: scales without repeated values *)

Module Scales.

Local Open Scope Q_scope.

(** Every entry is below the next one. *)
Fixpoint strictlyAscendingb (scale : list Q) : bool :=
  match scale with
  | [] => true
  | x :: rest =>
      match rest with
      | [] => true
      | y :: _ => Qltb x y && strictlyAscendingb rest
      end
  end.

End Scales.
Import Scales.

(** *** The responsive breakpoint helpers, continued *)

Module ResponsiveClasses.

Local Open Scope Q_scope.

Record BreakpointConfig : Type :=
  { bp_sm : Q; bp_md : Q; bp_lg : Q; bp_xl : Q; bp_2xl : Q }.

Definition DEFAULT_BREAKPOINTS : BreakpointConfig :=
  {| bp_sm := 640; bp_md := 768; bp_lg := 1024; bp_xl := 1280;
     bp_2xl := 1536 |}.

(** [breakpoints[bp]]. *)
Definition threshold (breakpoints : BreakpointConfig) (bp : Breakpoint) : Q :=
  match bp with
  | BP_sm => bp_sm breakpoints
  | BP_md => bp_md breakpoints
  | BP_lg => bp_lg breakpoints
  | BP_xl => bp_xl breakpoints
  | BP_2xl => bp_2xl breakpoints
  end.

(** [getBreakpointForWidth]: the second argument is [None] when omitted;
    the result [None] is [null]. *)
Definition getBreakpointForWidth (width : Q)
    (breakpoints : option BreakpointConfig) : option Breakpoint :=
  let breakpoints :=
    match breakpoints with Some b => b | None => DEFAULT_BREAKPOINTS end in
  if Qle_bool (bp_2xl breakpoints) width then Some BP_2xl
  else if Qle_bool (bp_xl breakpoints) width then Some BP_xl
  else if Qle_bool (bp_lg breakpoints) width then Some BP_lg
  else if Qle_bool (bp_md breakpoints) width then Some BP_md
  else if Qle_bool (bp_sm breakpoints) width then Some BP_sm
  else None.

(** The position of a breakpoint in the order from narrow to wide. *)
Definition rank (bp : Breakpoint) : nat :=
  match bp with
  | BP_sm => 1 | BP_md => 2 | BP_lg => 3 | BP_xl => 4 | BP_2xl => 5
  end.

Definition rankOf (r : option Breakpoint) : nat :=
  match r with Some bp => rank bp | None => 0 end.

(** [Array.prototype.join(separator)]. *)
Fixpoint joinWith (separator : jsstring) (items : list jsstring) : jsstring :=
  match items with
  | [] => []
  | [x] => x
  | x :: rest => x ++ separator ++ joinWith separator rest
  end.

Definition order : list Breakpoint := [BP_sm; BP_md; BP_lg; BP_xl; BP_2xl].

(** [createResponsiveClasses]: [breakpointValues] is the partial record of
    class variations; a missing or empty variation is skipped. *)
Definition createResponsiveClasses (baseClass : jsstring)
    (breakpointValues : Breakpoint -> option jsstring) : jsstring :=
  let classes :=
    fold_left
      (fun classes bp =>
         match breakpointValues bp with
         | Some v =>
             if isEmpty v then classes else classes ++ [withBreakpoint bp v]
         | None => classes
         end)
      order [baseClass] in
  joinWith (js " ") classes.

(** The variations of [createResponsiveClasses], in the order of the
    breakpoints. *)
Definition variants (breakpointValues : Breakpoint -> option jsstring)
    (bps : list Breakpoint) : list jsstring :=
  flat_map
    (fun bp =>
       match breakpointValues bp with
       | Some v => if isEmpty v then [] else [withBreakpoint bp v]
       | None => []
       end)
    bps.

End ResponsiveClasses.
Import ResponsiveClasses.

(** *** src/services/aiService.ts: the code fences of a response *)

Module MarkdownFences.

Local Open Scope N_scope.

Definition fence : jsstring := [96; 96; 96].

Definition newline : N := 10.

(** A letter of a pattern with the [i] flag, matched against a code unit:
    [lower] is the letter in lower case. *)
Definition letter_i (lower c : N) : bool := (c =? lower) || (c =? lower - 32).

(** The optional group of the opening pattern, matched greedily at the head
    of [s]: [js] or [ts], each with an optional [x]; the rest is returned. *)
Definition stripLanguage (s : jsstring) : jsstring :=
  match s with
  | c1 :: c2 :: rest =>
      if (letter_i 106 c1 || letter_i 116 c1) && letter_i 115 c2 then
        match rest with
        | c3 :: rest' => if letter_i 120 c3 then rest' else rest
        | [] => rest
        end
      else s
  | _ => s
  end.

(** The first [replace]: the opening pattern is anchored at the start of
    the text; after the fence and the optional language all white space is
    consumed, so the optional line feed at its end matches nothing more. *)
Definition removeOpeningFence (s : jsstring) : jsstring :=
  match stripPrefix fence s with
  | Some r => trimStart (stripLanguage r)
  | None => s
  end.

(** The closing pattern matched at the head of [s]: an optional line feed,
    the fence, and white space up to the end of the text. *)
Definition fenceToEnd (s : jsstring) : bool :=
  match stripPrefix fence s with
  | Some r => forallb isWhiteSpace r
  | None => false
  end.

Definition closingFenceAt (s : jsstring) : bool :=
  match s with
  | c :: rest =>
      if c =? newline then fenceToEnd rest || fenceToEnd s else fenceToEnd s
  | [] => false
  end.

(** The second [replace]: the text from the leftmost position where the
    closing pattern matches is removed. *)
Fixpoint removeClosingFence (s : jsstring) : jsstring :=
  if closingFenceAt s then []
  else
    match s with
    | [] => []
    | c :: rest => c :: removeClosingFence rest
    end.

Definition cleanMarkdownCodeBlocks (content : jsstring) : jsstring :=
  let cleaned := trim content in
  let cleaned := removeOpeningFence cleaned in
  let cleaned := removeClosingFence cleaned in
  trim cleaned.

(** The language tags the opening pattern consumes. *)
Definition isFenceLanguage (tag : jsstring) : bool :=
  match tag with
  | [] => true
  | [c1; c2] => (letter_i 106 c1 || letter_i 116 c1) && letter_i 115 c2
  | [c1; c2; c3] =>
      (letter_i 106 c1 || letter_i 116 c1) && letter_i 115 c2
      && letter_i 120 c3
  | _ => false
  end.

(** A response that wraps [code] in a fenced block. *)
Definition fenced (tag code : jsstring) : jsstring :=
  fence ++ tag ++ [newline] ++ code ++ [newline] ++ fence.

(** The text ends with the fence. *)
Definition endsWithFence (s : jsstring) : bool :=
  match stripPrefix fence (rev s) with Some _ => true | None => false end.

(** The text starts with the fence. *)
Definition startsWithFence (s : jsstring) : bool :=
  match stripPrefix fence s with Some _ => true | None => false end.

End MarkdownFences.
Import MarkdownFences.

(** *** src/services/licenseService.ts *)

Module LicenseService.

Local Open Scope N_scope.

Inductive LicenseType : Type := Free | Trial | Paid | Enterprise.

(** [LicenseInfo]; the optional field [expiresAt] is never set. *)
Record LicenseInfo : Type :=
  { isValid : bool;
    type : LicenseType;
    features : list jsstring }.

(** The class of the key pattern: a capital letter, a digit or a hyphen. *)
Definition isKeyChar (c : N) : bool := isUpper c || isDigit c || (c =? 45).

(** [checkLicenseKey]: the pattern is anchored at both ends. *)
Definition checkLicenseKey (licenseKey : jsstring) : bool :=
  (8 <=? length licenseKey)%nat
  && (negb (isEmpty licenseKey) && forallb isKeyChar licenseKey).

(** [validateLicense]: [licenseKey] is the setting read from the
    configuration, [None] when it is not set. *)
Definition validateLicense (licenseKey : option jsstring) : LicenseInfo :=
  match licenseKey with
  | Some key =>
      if isEmpty key || (length (trim key) =? 0)%nat then
        {| isValid := true; type := Free;
           features := [js "basic-generation"] |}
      else
        let isValid := checkLicenseKey key in
        if negb isValid then
          {| isValid := false; type := Free;
             features := [js "basic-generation"] |}
        else
          {| isValid := true; type := Paid;
             features :=
               [js "basic-generation"; js "advanced-ai";
                js "component-reuse"; js "bulk-export";
                js "custom-mappings"] |}
  | None =>
      {| isValid := true; type := Free; features := [js "basic-generation"] |}
  end.

(** [Array.prototype.includes] on strings. *)
Definition includesItem (items : list jsstring) (x : jsstring) : bool :=
  existsb (fun y => bool_decide (y = x)) items.

Definition hasFeature (licenseKey : option jsstring) (feature : jsstring)
  : bool :=
  let license := validateLicense licenseKey in
  isValid license && includesItem (features license) feature.

(** No key is set, or the key set is empty or white space only. *)
Definition blankKey (licenseKey : option jsstring) : Prop :=
  match licenseKey with
  | None => True
  | Some key => trim key = []
  end.

(** A key of at least eight capital letters, digits and hyphens is set. *)
Definition wellFormedKey (licenseKey : option jsstring) : Prop :=
  match licenseKey with
  | None => False
  | Some key =>
      (8 <= length key)%nat /\ Forall (fun c => isKeyChar c = true) key
  end.

End LicenseService.
Import LicenseService.

(** *** src/services/codeWriter.ts: file names and folders *)

Module FileNames.

Local Open Scope N_scope.

Definition isSlugChar (c : N) : bool := isLower c || isDigit c.

Definition hyphen : N := 45.

(** [replace] with the global pattern of one or more code units outside
    [a-z0-9]: every maximal run of them becomes one hyphen.  [inRun] tells
    that the code unit before belongs to the run being replaced. *)
Fixpoint replaceRuns (inRun : bool) (s : jsstring) : jsstring :=
  match s with
  | [] => []
  | c :: rest =>
      if isSlugChar c then c :: replaceRuns false rest
      else if inRun then replaceRuns true rest
      else hyphen :: replaceRuns true rest
  end.

(** [replace] with the global pattern of the hyphens at the start or at the
    end: both runs are removed. *)
Definition stripHyphens (s : jsstring) : jsstring :=
  rev (dropWhile (N.eqb hyphen) (rev (dropWhile (N.eqb hyphen) s))).

Section SuggestFileName.

(** [String.prototype.toLowerCase] follows the case mappings of Unicode,
    which are no part of this development: the function is a parameter. *)
Variable toLowerCaseOf : jsstring -> jsstring.

(** [suggestFileName]: both arguments are [None] when omitted. *)
Definition suggestFileName (nodeName defaultName : option jsstring)
  : jsstring :=
  let defaultName :=
    match defaultName with Some d => d | None => js "component" end in
  match nodeName with
  | None => defaultName
  | Some nodeName =>
      if isEmpty nodeName then defaultName
      else
        let cleaned :=
          trim (stripHyphens (replaceRuns false (toLowerCaseOf nodeName))) in
        if isEmpty cleaned then defaultName else cleaned
  end.

End SuggestFileName.

(** A name made of letters in lower case and digits, in groups separated by
    single hyphens. *)
Fixpoint isSlugFrom (afterHyphen : bool) (s : jsstring) : bool :=
  match s with
  | [] => negb afterHyphen
  | c :: rest =>
      if isSlugChar c then isSlugFrom false rest
      else (c =? hyphen) && negb afterHyphen && isSlugFrom true rest
  end.

Definition isSlug (s : jsstring) : bool := isSlugFrom true s.

(** [fileExists]. *)
Definition fileExists (env : Env) (w : World) (fileName : jsstring)
    (targetFolder : option TargetFolder) : bool :=
  match workspaceFolder env with
  | None => false
  | Some workspacePath =>
      let inComponents :=
        match targetFolder with
        | None | Some Components =>
            existsSyncAt (files w)
              (join (segments (join workspacePath (js "components")))
                 fileName)
        | Some Pages => false
        end in
      if inComponents then true
      else
        match targetFolder with
        | None | Some Pages =>
            existsSyncAt (files w)
              (join (segments (join workspacePath (js "pages"))) fileName)
        | Some Components => false
        end
  end.

(** [determineTargetFolder]. *)
Definition determineTargetFolder (env : Env) (w : World) : TargetFolder :=
  match workspaceFolder env with
  | None => Components
  | Some workspacePath =>
      let pagesPath := segments (join workspacePath (js "pages")) in
      let componentsPath :=
        segments (join workspacePath (js "components")) in
      if existsSync (files w) componentsPath then Components
      else if existsSync (files w) pagesPath then Pages
      else Components
  end.

(** A text of letters in lower case, digits and single hyphens; hyphens
    may stand at its ends. *)
Fixpoint looseFrom (afterHyphen : bool) (s : jsstring) : bool :=
  match s with
  | [] => true
  | c :: rest =>
      if isSlugChar c then looseFrom false rest
      else (c =? hyphen) && negb afterHyphen && looseFrom true rest
  end.

End FileNames.
Import FileNames.

(** *** The Figma service: the request of [fetchFigmaLayout] *)

Module FigmaRequest.

Local Open Scope N_scope.

(** **** [encodeURIComponent]

    The Encode operation of ECMAScript with the unreserved marks as the
    only code units left as they are: every other code point is written as
    the escaped octets of its UTF-8 form.  [None] is the URIError raised
    for a surrogate without its partner. *)

Definition isUnreservedMark (c : N) : bool :=
  (c =? 45) || (c =? 95) || (c =? 46) || (c =? 33) || (c =? 126) ||
  (c =? 42) || (c =? 39) || (c =? 40) || (c =? 41).

Definition isUnreserved (c : N) : bool := isAlnum c || isUnreservedMark c.

(** The hexadecimal digit of a value below sixteen, in upper case. *)
Definition hexDigit (n : N) : N := if n <? 10 then 48 + n else 55 + n.

Definition escapeOctet (octet : N) : jsstring :=
  [percent; hexDigit (octet / 16); hexDigit (octet mod 16)].

Definition utf8Encode (v : N) : list N :=
  if v <? 128 then [v]
  else if v <? 2048 then [192 + v / 64; 128 + v mod 64]
  else if v <? 65536 then
    [224 + v / 4096; 128 + (v / 64) mod 64; 128 + v mod 64]
  else
    [240 + v / 262144; 128 + (v / 4096) mod 64; 128 + (v / 64) mod 64;
     128 + v mod 64].

Definition escapeCodePoint (v : N) : jsstring :=
  flat_map escapeOctet (utf8Encode v).

Definition isHighSurrogate (c : N) : bool := (55296 <=? c) && (c <=? 56319).
Definition isLowSurrogate (c : N) : bool := (56320 <=? c) && (c <=? 57343).

Fixpoint encodeURIComponent (s : jsstring) : option jsstring :=
  match s with
  | [] => Some []
  | c :: rest =>
      if isUnreserved c then
        match encodeURIComponent rest with
        | Some r => Some (c :: r)
        | None => None
        end
      else if isLowSurrogate c then None
      else if isHighSurrogate c then
        match rest with
        | d :: rest' =>
            if isLowSurrogate d then
              match encodeURIComponent rest' with
              | Some r =>
                  Some (escapeCodePoint
                          ((c - 55296) * 1024 + (d - 56320) + 65536) ++ r)
              | None => None
              end
            else None
        | [] => None
        end
      else
        match encodeURIComponent rest with
        | Some r => Some (escapeCodePoint c ++ r)
        | None => None
        end
  end.

(** A code unit is a number below 65536. *)
Definition isCodeUnit (c : N) : Prop := c < 65536.

(** The code units of an encoded component: unreserved ones and the percent
    sign. *)
Definition isEncoded (c : N) : bool := isUnreserved c || (c =? percent).

(** **** The request *)

(** The two places the token is read from: the setting [figmaToken] and the
    environment variable [FIGMA_TOKEN]; [None] is [undefined]. *)
Record TokenSources : Type :=
  { figmaToken : option jsstring;
    FIGMA_TOKEN : option jsstring }.

(** A string value is truthy unless it is undefined or empty. *)
Definition truthy (s : option jsstring) : bool :=
  match s with
  | Some (_ :: _) => true
  | _ => false
  end.

(** [a || b]. *)
Definition orElse (a b : option jsstring) : option jsstring :=
  if truthy a then a else b.

Definition MSG_TOKEN_REQUIRED : jsstring :=
  js "Figma API token is required. Please set figma-to-html.figmaToken in VS Code settings or FIGMA_TOKEN environment variable. Get your token from: https://www.figma.com/developers/api#access-tokens".

(** [nodeId.replace(/:/g, '-')]. *)
Definition replaceColons (s : jsstring) : jsstring :=
  List.map (fun c => if c =? 58 then 45 else c) s.

Definition API_FILES : jsstring := js "https://api.figma.com/v1/files/".

(** What [fetchFigmaLayout] does first: it throws, or it calls [fetch] with
    a URL and the token in the header [X-Figma-Token].  The errors of the
    token check and of [parseFigmaUrl] are thrown as they are; the URIError
    of [encodeURIComponent] is raised inside the [try] block and thrown
    again as an error whose message starts with the text of
    [FAILED_TO_FETCH]. *)
Inductive step : Type :=
| Fetch (url token : jsstring)
| Throws (message : jsstring)
| ThrowsURIError
| ThrowsFailedToFetch.

Definition FAILED_TO_FETCH : jsstring := js "Failed to fetch Figma layout: ".

Definition fetchFigmaLayout_request (sources : TokenSources)
    (figmaUrl : jsstring) : step :=
  let token := orElse (figmaToken sources) (FIGMA_TOKEN sources) in
  match token with
  | Some (c :: tk) =>
      let token := c :: tk in
      match parseFigmaUrl figmaUrl with
      | ThrowError message => Throws message
      | FigmaService.ThrowURIError => ThrowsURIError
      | Parsed p =>
          if truthy (nodeId p) then
            match nodeId p with
            | Some nodeId =>
                let nodeIds := replaceColons nodeId in
                match encodeURIComponent nodeIds with
                | Some ids =>
                    Fetch (API_FILES ++ fileId p ++ js "/nodes?ids=" ++ ids)
                      token
                | None => ThrowsFailedToFetch
                end
            | None => Fetch (API_FILES ++ fileId p) token
            end
          else Fetch (API_FILES ++ fileId p) token
      end
  | _ => Throws MSG_TOKEN_REQUIRED
  end.

End FigmaRequest.
Import FigmaRequest.

(** *** src/commands/generateFromFigma.ts: the report of an error *)

Module Command.

Local Open Scope N_scope.

(** [String.prototype.includes]. *)
Fixpoint includes (s sub : jsstring) : bool :=
  match stripPrefix sub s with
  | Some _ => true
  | None =>
      match s with
      | [] => false
      | _ :: rest => includes rest sub
      end
  end.

(** What is caught: an [Error] with its message, or another value with its
    conversion to a string. *)
Inductive thrown : Type :=
| ErrorObject (message : jsstring)
| OtherValue (text : jsstring).

(** The notification shown: its kind, its message and its buttons. *)
Inductive notification : Type :=
| WarningMessage (message : jsstring) (items : list jsstring)
| ErrorMessage (message : jsstring) (items : list jsstring).

Definition handleError (error : thrown) : notification :=
  match error with
  | ErrorObject message =>
      if includes message (js "already exists") then
        WarningMessage message [js "Show Diff"; js "Change File Name"]
      else if includes message (js "Rejected:") then
        ErrorMessage
          (js "Code generation failed: " ++ message ++
           js ". Please check your AI service configuration.") []
      else if includes message (js "API key") then
        ErrorMessage
          (message ++
           js ". Please configure your AI API key in VS Code settings.")
          [js "Open Settings"]
      else ErrorMessage (js "Error: " ++ message) []
  | OtherValue text =>
      ErrorMessage (js "An unexpected error occurred: " ++ text) []
  end.

End Command.
Import Command.

(* ===================================================================== *)
(** * Part II: properties                                                 *)
(* ===================================================================== *)

Import TailwindMapper.
Local Open Scope Q_scope.

(** ** Numbers *)

Lemma Qltb_lt (x y : Q) : Qltb x y = true <-> x < y.
Proof.
  unfold Qltb. rewrite negb_true_iff. split.
  - intros H. apply Qnot_le_lt. intros Hle.
    apply Qle_bool_iff in Hle. congruence.
  - intros H. destruct (Qle_bool y x) eqn:E; [|reflexivity].
    apply Qle_bool_iff in E. lra.
Qed.

Lemma Qltb_ge (x y : Q) : Qltb x y = false <-> y <= x.
Proof.
  unfold Qltb. rewrite negb_false_iff. apply Qle_bool_iff.
Qed.

Lemma Qle_bool_gt (x y : Q) : Qle_bool x y = false <-> y < x.
Proof.
  rewrite <- Qltb_lt. unfold Qltb. now rewrite negb_true_iff.
Qed.

Lemma Qabs_cases (x : Q) :
  (0 <= x /\ Qabs x == x) \/ (x <= 0 /\ Qabs x == - x).
Proof.
  destruct (Qlt_le_dec x 0) as [H|H].
  - right. split; [lra|]. apply Qabs_neg. lra.
  - left. split; [exact H|]. now apply Qabs_pos.
Qed.

(** Replaces every [Qabs t] of the goal and of the hypotheses by its two
    cases. *)
Ltac qabs_at t :=
  let H1 := fresh in let H2 := fresh in
  destruct (Qabs_cases t) as [[H1 H2]|[H1 H2]];
  generalize dependent (Qabs t); intros.

Ltac qabs :=
  repeat match goal with
  | |- context [Qabs ?t] => qabs_at t
  | _ : context [Qabs ?t] |- _ => qabs_at t
  end.

Lemma Qabs_opp_eq (v : Q) : Qabs (- v) = Qabs v.
Proof. destruct v as [n d]. cbn. now rewrite Z.abs_opp. Qed.

Lemma dist_below (v a b : Q) : a <= b -> b <= v -> Qabs (b - v) <= Qabs (a - v).
Proof. intros. qabs; lra. Qed.

Lemma dist_above (v a b : Q) : v <= a -> a <= b -> Qabs (a - v) <= Qabs (b - v).
Proof. intros. qabs; lra. Qed.

(** ** Arrays and ascending scales *)

Lemma lookupZ_Some {A} (l : list A) (i : Z) (x : A) :
  lookupZ l i = Some x ->
  (0 <= i < Z.of_nat (length l))%Z /\ nth_error l (Z.to_nat i) = Some x.
Proof.
  unfold lookupZ. destruct (Z.ltb_spec i 0) as [Hi|Hi]; [discriminate|].
  intros H. split; [|exact H].
  assert (Z.to_nat i < length l)%nat
    by (apply nth_error_Some; congruence).
  lia.
Qed.

Lemma lookupZ_in_range {A} (l : list A) (i : Z) :
  (0 <= i < Z.of_nat (length l))%Z -> exists x, lookupZ l i = Some x.
Proof.
  intros Hi. unfold lookupZ.
  destruct (Z.ltb_spec i 0) as [Hlt|_]; [lia|].
  destruct (nth_error l (Z.to_nat i)) eqn:E; [eauto|].
  apply nth_error_None in E. lia.
Qed.

Lemma lookupZ_In {A} (l : list A) (i : Z) (x : A) :
  lookupZ l i = Some x -> In x l.
Proof. intros H. apply lookupZ_Some in H as [_ H]. eapply nth_error_In, H. Qed.

Lemma In_lookupZ {A} (l : list A) (x : A) :
  In x l -> exists i, lookupZ l i = Some x.
Proof.
  intros H. apply In_nth_error in H as [n Hn].
  exists (Z.of_nat n). unfold lookupZ.
  destruct (Z.ltb_spec (Z.of_nat n) 0); [lia|]. now rewrite Nat2Z.id.
Qed.

Lemma ascendingb_head (x : Q) (rest : list Q) :
  ascendingb (x :: rest) = true -> forall y, In y rest -> x <= y.
Proof.
  revert x. induction rest as [|z rest IH]; intros x H y Hy; [destruct Hy|].
  cbn [ascendingb] in H. apply andb_true_iff in H as [Hxz Hrest].
  apply Qle_bool_iff in Hxz. destruct Hy as [->|Hy]; [exact Hxz|].
  specialize (IH z Hrest y Hy). lra.
Qed.

Lemma ascendingb_tail (x : Q) (rest : list Q) :
  ascendingb (x :: rest) = true -> ascendingb rest = true.
Proof.
  destruct rest as [|z rest]; [reflexivity|].
  cbn [ascendingb]. intros H. now apply andb_true_iff in H as [_ H].
Qed.

Lemma ascendingb_nth (scale : list Q) :
  ascendingb scale = true ->
  forall (i j : nat) (x y : Q),
    (i <= j)%nat -> nth_error scale i = Some x -> nth_error scale j = Some y ->
    x <= y.
Proof.
  induction scale as [|a scale IH]; intros Hasc i j x y Hij Hi Hj.
  - destruct i; discriminate.
  - destruct i as [|i], j as [|j]; cbn in Hi, Hj.
    + injection Hi as <-. injection Hj as <-. lra.
    + injection Hi as <-. eapply ascendingb_head; [exact Hasc|].
      eapply nth_error_In, Hj.
    + lia.
    + eapply (IH (ascendingb_tail _ _ Hasc) i j); [lia|eassumption..].
Qed.

Lemma ascendingb_lookup (scale : list Q) :
  ascendingb scale = true ->
  forall (i j : Z) (x y : Q),
    (i <= j)%Z -> lookupZ scale i = Some x -> lookupZ scale j = Some y ->
    x <= y.
Proof.
  intros Hasc i j x y Hij Hi Hj.
  apply lookupZ_Some in Hi as [Hi1 Hi2]. apply lookupZ_Some in Hj as [Hj1 Hj2].
  eapply (ascendingb_nth scale Hasc (Z.to_nat i) (Z.to_nat j)); [lia|eassumption..].
Qed.

(** ** The binary search of [findClosestIndex] *)

Lemma bsearch_unfold (value : Q) (scale : list Q) (lo hi : Z) (best : Z * Q) :
  bsearch value scale lo hi best =
  if Z_le_gt_dec lo hi then
    let mid := ((lo + hi) / 2)%Z in
    match lookupZ scale mid with
    | Some x =>
        if Qltb x value
        then bsearch value scale (mid + 1) hi (closer value mid x best)
        else bsearch value scale lo (mid - 1) (closer value mid x best)
    | None => bsearch value scale lo (mid - 1) best
    end
  else best.
Proof.
  simp bsearch. destruct (Z_le_gt_dec lo hi); cbn; [|reflexivity].
  destruct (lookupZ scale ((lo + hi) / 2)); cbn; [|reflexivity].
  destruct (Qltb q value); reflexivity.
Qed.

Lemma closer_snd_le {I} (value : Q) (i : I) (x : Q) (best : I * Q) :
  snd (closer value i x best) <= snd best /\
  snd (closer value i x best) <= Qabs (x - value).
Proof.
  unfold closer.
  destruct (Qltb (Qabs (x - value)) (snd best)) eqn:E; cbn [snd].
  - apply Qltb_lt in E. split; lra.
  - apply Qltb_ge in E. split; lra.
Qed.

Lemma closer_keep {I} (value : Q) (i : I) (x : Q) (best : I * Q) :
  snd best <= Qabs (x - value) -> closer value i x best = best.
Proof.
  intros H. unfold closer.
  destruct (Qltb (Qabs (x - value)) (snd best)) eqn:E; [|reflexivity].
  apply Qltb_lt in E. lra.
Qed.

Section BinarySearch.

Variable value : Q.
Variable scale : list Q.
Hypothesis Hasc : ascendingb scale = true.

(** [best] is an index of the scale together with its distance. *)
Definition tracks (best : Z * Q) : Prop :=
  exists xb, lookupZ scale (fst best) = Some xb /\
             snd best = Qabs (xb - value).

(** [best] is at least as close to [value] as every entry. *)
Definition minimal (best : Z * Q) : Prop :=
  tracks best /\
  forall i x, lookupZ scale i = Some x -> snd best <= Qabs (x - value).

(** Loop invariant: everything left of [lo] is below [value], everything
    right of [hi] is not, and [best] is at least as close as the two
    entries next to the window. *)
Definition bs_inv (lo hi : Z) (best : Z * Q) : Prop :=
  tracks best /\
  (0 <= lo)%Z /\ (hi < Z.of_nat (length scale))%Z /\ (lo <= hi + 1)%Z /\
  (forall i x, (i < lo)%Z -> lookupZ scale i = Some x -> x < value) /\
  (forall i x, (hi < i)%Z -> lookupZ scale i = Some x -> value <= x) /\
  (forall x, lookupZ scale (lo - 1) = Some x ->
             snd best <= Qabs (x - value)) /\
  (forall x, lookupZ scale (hi + 1) = Some x ->
             snd best <= Qabs (x - value)).

Lemma tracks_closer (mid : Z) (x : Q) (best : Z * Q) :
  lookupZ scale mid = Some x -> tracks best ->
  tracks (closer value mid x best).
Proof using Type.
  intros Hmid Hbest. unfold closer.
  destruct (Qltb (Qabs (x - value)) (snd best)); [|exact Hbest].
  exists x. split; [exact Hmid|reflexivity].
Qed.

Lemma bs_inv_exit (lo hi : Z) (best : Z * Q) :
  bs_inv lo hi best -> (lo > hi)%Z -> minimal best.
Proof using Hasc.
  intros (Htr & Hlo & Hhi & Hw & Hbelow & Habove & Hl & Hr) Hexit.
  split; [exact Htr|]. intros i x Hi.
  pose proof (lookupZ_Some _ _ _ Hi) as [Hrange _].
  destruct (Z_lt_ge_dec i lo) as [Hlt|Hge].
  - destruct (lookupZ_in_range scale (lo - 1) ltac:(lia)) as [p Hp].
    pose proof (Hbelow (lo - 1)%Z p ltac:(lia) Hp) as Hpv.
    pose proof (ascendingb_lookup scale Hasc i (lo - 1) x p ltac:(lia) Hi Hp).
    specialize (Hl p Hp).
    pose proof (dist_below value x p ltac:(lra) ltac:(lra)). lra.
  - destruct (lookupZ_in_range scale (hi + 1) ltac:(lia)) as [q Hq].
    pose proof (Habove (hi + 1)%Z q ltac:(lia) Hq) as Hqv.
    pose proof (ascendingb_lookup scale Hasc (hi + 1) i q x ltac:(lia) Hq Hi).
    specialize (Hr q Hq).
    pose proof (dist_above value q x ltac:(lra) ltac:(lra)). lra.
Qed.

Lemma bsearch_minimal (lo hi : Z) (best : Z * Q) :
  bs_inv lo hi best -> minimal (bsearch value scale lo hi best).
Proof using Hasc.
  remember (Z.to_nat (hi - lo + 1)) as n eqn:Hn.
  revert lo hi best Hn.
  induction n as [n IH] using lt_wf_ind. intros lo hi best Hn Hinv.
  rewrite bsearch_unfold.
  destruct (Z_le_gt_dec lo hi) as [Hle|Hgt];
    [|eapply bs_inv_exit; eassumption].
  cbv zeta.
  assert (Hmid : (lo <= (lo + hi) / 2 <= hi)%Z)
    by (Z.to_euclidean_division_equations; lia).
  set (mid := ((lo + hi) / 2)%Z) in *.
  destruct Hinv as (Htr & Hlo & Hhi & Hw & Hbelow & Habove & Hl & Hr).
  destruct (lookupZ_in_range scale mid ltac:(lia)) as [x Hx].
  rewrite Hx.
  pose proof (closer_snd_le value mid x best) as [Hc1 Hc2].
  pose proof (tracks_closer mid x best Hx Htr) as Htr'.
  destruct (Qltb x value) eqn:Hcmp.
  - apply Qltb_lt in Hcmp.
    apply (IH (Z.to_nat (hi - (mid + 1) + 1))); [lia|reflexivity|].
    refine (conj Htr' (conj _ (conj _ (conj _ (conj _ (conj _ (conj _ _)))))));
      try lia.
    + intros i y Hi Hy.
      pose proof (ascendingb_lookup scale Hasc i mid y x ltac:(lia) Hy Hx).
      lra.
    + exact Habove.
    + intros y Hy. replace (mid + 1 - 1)%Z with mid in Hy by lia.
      rewrite Hx in Hy. injection Hy as <-. exact Hc2.
    + intros y Hy. specialize (Hr y Hy). lra.
  - apply Qltb_ge in Hcmp.
    apply (IH (Z.to_nat (mid - 1 - lo + 1))); [lia|reflexivity|].
    refine (conj Htr' (conj _ (conj _ (conj _ (conj _ (conj _ (conj _ _)))))));
      try lia.
    + exact Hbelow.
    + intros i y Hi Hy.
      pose proof (ascendingb_lookup scale Hasc mid i x y ltac:(lia) Hx Hy).
      lra.
    + intros y Hy. specialize (Hl y Hy). lra.
    + intros y Hy. replace (mid - 1 + 1)%Z with mid in Hy by lia.
      rewrite Hx in Hy. injection Hy as <-. exact Hc2.
Qed.

Lemma scan_neighbors_minimal (neighbors : list Z) (best : Z * Q) :
  minimal best -> scan_neighbors value scale neighbors best = best.
Proof using Type.
  intros [_ Hmin]. unfold scan_neighbors.
  induction neighbors as [|idx rest IH]; [reflexivity|].
  cbn [fold_left]. destruct (lookupZ scale idx) as [x|] eqn:E; [|exact IH].
  rewrite closer_keep; [exact IH|]. eapply Hmin, E.
Qed.

End BinarySearch.

Lemma nth_error_last (scale : list Q) (d : Q) :
  scale <> [] ->
  nth_error scale (length scale - 1) = Some (List.last scale d).
Proof.
  induction scale as [|a rest IH]; [congruence|]. intros _.
  destruct rest as [|b rest]; [reflexivity|].
  specialize (IH ltac:(discriminate)).
  cbn [length] in *.
  replace (S (S (length rest)) - 1)%nat with (S (length rest)) by lia.
  replace (S (length rest) - 1)%nat with (length rest) in IH by lia.
  cbn [nth_error]. rewrite IH. reflexivity.
Qed.

Lemma lookupZ_last (scale : list Q) (d : Q) :
  scale <> [] ->
  lookupZ scale (Z.of_nat (length scale) - 1) = Some (List.last scale d).
Proof.
  intros Hne. unfold lookupZ.
  destruct (Z.ltb_spec (Z.of_nat (length scale) - 1) 0) as [H|_].
  - destruct scale; [congruence|cbn [length] in H; lia].
  - replace (Z.to_nat (Z.of_nat (length scale) - 1)) with (length scale - 1)%nat
      by lia.
    now apply nth_error_last.
Qed.

(** The window of the search stays inside the array, whatever the order of
    the entries: [findClosestIndex] returns an index of the scale. *)
Lemma bsearch_tracks (value : Q) (scale : list Q) (lo hi : Z) (best : Z * Q) :
  (0 <= lo)%Z -> (hi < Z.of_nat (length scale))%Z ->
  tracks value scale best -> tracks value scale (bsearch value scale lo hi best).
Proof.
  remember (Z.to_nat (hi - lo + 1)) as n eqn:Hn. revert lo hi best Hn.
  induction n as [n IH] using lt_wf_ind. intros lo hi best Hn Hlo Hhi Htr.
  rewrite bsearch_unfold.
  destruct (Z_le_gt_dec lo hi) as [Hle|Hgt]; [|exact Htr].
  cbv zeta.
  assert (Hmid : (lo <= (lo + hi) / 2 <= hi)%Z)
    by (Z.to_euclidean_division_equations; lia).
  set (mid := ((lo + hi) / 2)%Z) in *.
  destruct (lookupZ_in_range scale mid ltac:(lia)) as [x Hx]. rewrite Hx.
  pose proof (tracks_closer value scale mid x best Hx Htr) as Htr'.
  destruct (Qltb x value).
  - apply (IH (Z.to_nat (hi - (mid + 1) + 1))); [lia|reflexivity|lia|lia|exact Htr'].
  - apply (IH (Z.to_nat (mid - 1 - lo + 1))); [lia|reflexivity|lia|lia|exact Htr'].
Qed.

Lemma scan_neighbors_tracks (value : Q) (scale : list Q) (neighbors : list Z)
    (best : Z * Q) :
  tracks value scale best ->
  tracks value scale (scan_neighbors value scale neighbors best).
Proof.
  unfold scan_neighbors. revert best.
  induction neighbors as [|idx rest IH]; intros best Htr; [exact Htr|].
  cbn [fold_left]. destruct (lookupZ scale idx) as [x|] eqn:E; [|now apply IH].
  apply IH. now apply tracks_closer.
Qed.

Lemma findClosestIndex_in_range (value : Q) (scale : list Q) :
  scale <> [] ->
  (0 <= findClosestIndex value scale < Z.of_nat (length scale))%Z.
Proof.
  intros Hne. destruct scale as [|s0 [|s1 rest]]; [congruence| cbn; lia |].
  unfold findClosestIndex.
  set (sc := s0 :: s1 :: rest) in *.
  destruct (Qle_bool value s0); [cbn [length sc]; unfold sc; cbn [length]; lia|].
  destruct (Qle_bool (List.last sc s0) value);
    [unfold sc; cbn [length]; lia|].
  cbv zeta.
  match goal with |- context [scan_neighbors ?v ?s ?n ?b] =>
    assert (Ht : tracks v s (scan_neighbors v s n b)) end.
  { apply scan_neighbors_tracks, bsearch_tracks; [lia|lia|].
    exists s0. split; reflexivity. }
  destruct Ht as (x & Hx & _). apply lookupZ_Some in Hx as [Hx _]. exact Hx.
Qed.

(** Over an ascending scale the returned index is one of minimum distance. *)
Lemma findClosestIndex_minimal (value : Q) (scale : list Q) :
  ascendingb scale = true -> scale <> [] ->
  exists x, lookupZ scale (findClosestIndex value scale) = Some x /\
            forall y, In y scale -> Qabs (x - value) <= Qabs (y - value).
Proof.
  intros Hasc Hne. destruct scale as [|s0 [|s1 rest]]; [congruence| |].
  - exists s0. split; [reflexivity|]. intros y [<-|[]]. apply Qle_refl.
  - unfold findClosestIndex.
    set (sc := s0 :: s1 :: rest) in *.
    destruct (Qle_bool value s0) eqn:E0.
    { apply Qle_bool_iff in E0. exists s0. split; [reflexivity|].
      intros y [<-|Hy]; [apply Qle_refl|].
      pose proof (ascendingb_head s0 _ Hasc y Hy).
      apply dist_above; lra. }
    destruct (Qle_bool (List.last sc s0) value) eqn:E1.
    { apply Qle_bool_iff in E1. exists (List.last sc s0).
      split; [now apply lookupZ_last|].
      intros y Hy. apply In_lookupZ in Hy as [i Hi].
      pose proof (lookupZ_Some _ _ _ Hi) as [Hr _].
      assert (Hle : y <= List.last sc s0).
      { eapply (ascendingb_lookup sc Hasc i (Z.of_nat (length sc) - 1));
          [lia|exact Hi|now apply lookupZ_last]. }
      apply dist_below; lra. }
    cbv zeta.
    assert (Hmin : minimal value sc
              (bsearch value sc 0 (Z.of_nat (length sc) - 1)
                 (0%Z, Qabs (s0 - value)))).
    { apply bsearch_minimal; [exact Hasc|].
      refine (conj _ (conj _ (conj _ (conj _ (conj _ (conj _ (conj _ _)))))));
        try lia.
      - exists s0. split; reflexivity.
      - intros i x Hi Hx. apply lookupZ_Some in Hx. lia.
      - intros i x Hi Hx. apply lookupZ_Some in Hx. lia.
      - intros x Hx. apply lookupZ_Some in Hx. lia.
      - intros x Hx. apply lookupZ_Some in Hx. lia. }
    rewrite scan_neighbors_minimal by exact Hmin.
    destruct Hmin as [(x & Hx & Hd) Hall]. exists x. split; [exact Hx|].
    intros y Hy. apply In_lookupZ in Hy as [i Hi].
    rewrite <- Hd. eapply Hall, Hi.
Qed.

(** ** The linear scan of [findClosestKey] *)

Section LinearScan.

Variable value : Q.

(** [best] is the first entry of [seen] at minimum distance. *)
Definition first_minimal (seen : list (jsstring * Q)) (best : jsstring * Q)
  : Prop :=
  exists (i : nat) (x : Q),
    nth_error seen i = Some (fst best, x) /\
    snd best = Qabs (x - value) /\
    (forall j e, nth_error seen j = Some e ->
                 snd best <= Qabs (snd e - value)) /\
    (forall j e, (j < i)%nat -> nth_error seen j = Some e ->
                 snd best < Qabs (snd e - value)).

Lemma first_minimal_step (seen : list (jsstring * Q)) (e : jsstring * Q)
    (best : jsstring * Q) :
  first_minimal seen best ->
  first_minimal (seen ++ [e]) (closer value (fst e) (snd e) best).
Proof using Type.
  intros (i & x & Hi & Hd & Hall & Hbefore).
  assert (Hlt : (i < length seen)%nat)
    by (apply nth_error_Some; congruence).
  unfold closer.
  destruct (Qltb (Qabs (snd e - value)) (snd best)) eqn:E.
  - apply Qltb_lt in E. exists (length seen), (snd e). cbn [fst snd].
    split; [|split; [reflexivity|split]].
    + rewrite nth_error_app2 by lia. rewrite Nat.sub_diag.
      destruct e; reflexivity.
    + intros j e' Hj.
      destruct (Nat.lt_ge_cases j (length seen)) as [Hjl|Hjl].
      * rewrite nth_error_app1 in Hj by exact Hjl.
        specialize (Hall j e' Hj). lra.
      * rewrite nth_error_app2 in Hj by exact Hjl.
        destruct (j - length seen)%nat as [|[|?]]; cbn in Hj; try discriminate.
        injection Hj as <-. apply Qle_refl.
    + intros j e' Hjl Hj. rewrite nth_error_app1 in Hj by exact Hjl.
      specialize (Hall j e' Hj). lra.
  - apply Qltb_ge in E. exists i, x.
    split; [|split; [exact Hd|split]].
    + rewrite nth_error_app1 by exact Hlt. exact Hi.
    + intros j e' Hj.
      destruct (Nat.lt_ge_cases j (length seen)) as [Hjl|Hjl].
      * rewrite nth_error_app1 in Hj by exact Hjl. eapply Hall, Hj.
      * rewrite nth_error_app2 in Hj by exact Hjl.
        destruct (j - length seen)%nat as [|[|?]]; cbn in Hj; try discriminate.
        injection Hj as <-. exact E.
    + intros j e' Hji Hj. rewrite nth_error_app1 in Hj by lia.
      eapply Hbefore; eassumption.
Qed.

Lemma first_minimal_fold (rest seen : list (jsstring * Q))
    (best : jsstring * Q) :
  first_minimal seen best ->
  first_minimal (seen ++ rest)
    (fold_left (fun best e => closer value (fst e) (snd e) best) rest best).
Proof using Type.
  revert seen best. induction rest as [|e rest IH]; intros seen best H.
  - rewrite app_nil_r. exact H.
  - cbn [fold_left].
    replace (seen ++ e :: rest) with ((seen ++ [e]) ++ rest)
      by (rewrite <- app_assoc; reflexivity).
    apply IH, first_minimal_step, H.
Qed.

(** [findClosestKey] returns the key of the first entry, in entry order,
    whose value is at minimum distance from [value]. *)
Lemma findClosestKey_first_minimal (scale : list (jsstring * Q)) :
  scale <> [] ->
  exists best, findClosestKey value scale = Some (fst best) /\
               first_minimal scale best.
Proof using Type.
  destruct scale as [|[k0 v0] rest]; [congruence|]. intros _.
  eexists. split; [reflexivity|].
  cbn [fold_left]. rewrite closer_keep by apply Qle_refl.
  apply (first_minimal_fold rest [(k0, v0)]).
  exists 0%nat, v0. cbn [fst snd nth_error].
  split; [reflexivity|split; [reflexivity|split]].
  - intros [|[|?]] e Hj; cbn in Hj; try discriminate.
    injection Hj as <-. apply Qle_refl.
  - intros j e Hj. lia.
Qed.

End LinearScan.

(** ** The search in double precision *)

Section Rounded.

Local Open Scope Q_scope.

Variable round : Q -> Q.
Hypothesis round_le : forall a b : Q, a <= b -> round a <= round b.
Hypothesis round_0 : round 0 == 0.

Local Abbreviation dist := (Binary64.absDiff round).

(** Rounding keeps the order of the distances on either side of the
    value. *)
Lemma rounded_dist_below (v a b : Q) : a <= b -> b <= v -> dist b v <= dist a v.
Proof using round_le round_0.
  intros Hab Hbv. unfold Binary64.absDiff.
  pose proof (round_le (a - v) (b - v) ltac:(lra)).
  pose proof (round_le (b - v) 0 ltac:(lra)).
  qabs; lra.
Qed.

Lemma rounded_dist_above (v a b : Q) : v <= a -> a <= b -> dist a v <= dist b v.
Proof using round_le round_0.
  intros Hva Hab. unfold Binary64.absDiff.
  pose proof (round_le (a - v) (b - v) ltac:(lra)).
  pose proof (round_le 0 (a - v) ltac:(lra)).
  qabs; lra.
Qed.

Lemma rounded_dist_eq (v a : Q) : a == v -> dist a v == 0.
Proof using round_le round_0.
  intros Hav. unfold Binary64.absDiff.
  pose proof (round_le (a - v) 0 ltac:(lra)).
  pose proof (round_le 0 (a - v) ltac:(lra)).
  qabs; lra.
Qed.

Lemma rounded_dist_nonneg (v a : Q) : 0 <= dist a v.
Proof using Type. unfold Binary64.absDiff. apply Qabs_nonneg. Qed.

Lemma rounded_bsearch_unfold (value : Q) (scale : list Q) (lo hi : Z)
    (best : Z * Q) :
  Binary64.bsearch round value scale lo hi best =
  if Z_le_gt_dec lo hi then
    let mid := ((lo + hi) / 2)%Z in
    match lookupZ scale mid with
    | Some x =>
        if Qltb x value
        then Binary64.bsearch round value scale (mid + 1) hi
               (Binary64.closer round value mid x best)
        else Binary64.bsearch round value scale lo (mid - 1)
               (Binary64.closer round value mid x best)
    | None => Binary64.bsearch round value scale lo (mid - 1) best
    end
  else best.
Proof using Type.
  simp bsearch. destruct (Z_le_gt_dec lo hi); cbn; [|reflexivity].
  destruct (lookupZ scale ((lo + hi) / 2)); cbn; [|reflexivity].
  destruct (Qltb q value); reflexivity.
Qed.

Lemma rounded_closer_snd_le {I} (value : Q) (i : I) (x : Q) (best : I * Q) :
  snd (Binary64.closer round value i x best) <= snd best /\
  snd (Binary64.closer round value i x best) <= dist x value.
Proof using Type.
  unfold Binary64.closer. cbv zeta.
  destruct (Qltb (dist x value) (snd best)) eqn:E; cbn [snd].
  - apply Qltb_lt in E. split; lra.
  - apply Qltb_ge in E. split; lra.
Qed.

Lemma rounded_closer_keep {I} (value : Q) (i : I) (x : Q) (best : I * Q) :
  snd best <= dist x value -> Binary64.closer round value i x best = best.
Proof using Type.
  intros H. unfold Binary64.closer. cbv zeta.
  destruct (Qltb (dist x value) (snd best)) eqn:E; [|reflexivity].
  apply Qltb_lt in E. lra.
Qed.

Section RoundedBinarySearch.

Variable value : Q.
Variable scale : list Q.
Hypothesis Hasc : ascendingb scale = true.

(** [best] is an index of the scale together with its computed distance. *)
Definition rounded_tracks (best : Z * Q) : Prop :=
  exists xb, lookupZ scale (fst best) = Some xb /\ snd best = dist xb value.

(** No entry has a smaller computed distance than [best]. *)
Definition rounded_minimal (best : Z * Q) : Prop :=
  rounded_tracks best /\
  forall i x, lookupZ scale i = Some x -> snd best <= dist x value.

Definition rounded_bs_inv (lo hi : Z) (best : Z * Q) : Prop :=
  rounded_tracks best /\
  (0 <= lo)%Z /\ (hi < Z.of_nat (length scale))%Z /\ (lo <= hi + 1)%Z /\
  (forall i x, (i < lo)%Z -> lookupZ scale i = Some x -> x < value) /\
  (forall i x, (hi < i)%Z -> lookupZ scale i = Some x -> value <= x) /\
  (forall x, lookupZ scale (lo - 1) = Some x -> snd best <= dist x value) /\
  (forall x, lookupZ scale (hi + 1) = Some x -> snd best <= dist x value).

Lemma rounded_tracks_closer (mid : Z) (x : Q) (best : Z * Q) :
  lookupZ scale mid = Some x -> rounded_tracks best ->
  rounded_tracks (Binary64.closer round value mid x best).
Proof using Type.
  intros Hmid Hbest. unfold Binary64.closer. cbv zeta.
  destruct (Qltb (dist x value) (snd best)); [|exact Hbest].
  exists x. split; [exact Hmid|reflexivity].
Qed.

Lemma rounded_bs_inv_exit (lo hi : Z) (best : Z * Q) :
  rounded_bs_inv lo hi best -> (lo > hi)%Z -> rounded_minimal best.
Proof using Hasc round_le round_0.
  intros (Htr & Hlo & Hhi & Hw & Hbelow & Habove & Hl & Hr) Hexit.
  split; [exact Htr|]. intros i x Hi.
  pose proof (lookupZ_Some _ _ _ Hi) as [Hrange _].
  destruct (Z_lt_ge_dec i lo) as [Hlt|Hge].
  - destruct (lookupZ_in_range scale (lo - 1) ltac:(lia)) as [p Hp].
    pose proof (Hbelow (lo - 1)%Z p ltac:(lia) Hp) as Hpv.
    pose proof (ascendingb_lookup scale Hasc i (lo - 1) x p ltac:(lia) Hi Hp).
    specialize (Hl p Hp).
    pose proof (rounded_dist_below value x p ltac:(lra) ltac:(lra)). lra.
  - destruct (lookupZ_in_range scale (hi + 1) ltac:(lia)) as [q Hq].
    pose proof (Habove (hi + 1)%Z q ltac:(lia) Hq) as Hqv.
    pose proof (ascendingb_lookup scale Hasc (hi + 1) i q x ltac:(lia) Hq Hi).
    specialize (Hr q Hq).
    pose proof (rounded_dist_above value q x ltac:(lra) ltac:(lra)). lra.
Qed.

Lemma rounded_bsearch_minimal (lo hi : Z) (best : Z * Q) :
  rounded_bs_inv lo hi best ->
  rounded_minimal (Binary64.bsearch round value scale lo hi best).
Proof using Hasc round_le round_0.
  remember (Z.to_nat (hi - lo + 1)) as n eqn:Hn.
  revert lo hi best Hn.
  induction n as [n IH] using lt_wf_ind. intros lo hi best Hn Hinv.
  rewrite rounded_bsearch_unfold.
  destruct (Z_le_gt_dec lo hi) as [Hle|Hgt];
    [|eapply rounded_bs_inv_exit; eassumption].
  cbv zeta.
  assert (Hmid : (lo <= (lo + hi) / 2 <= hi)%Z)
    by (Z.to_euclidean_division_equations; lia).
  set (mid := ((lo + hi) / 2)%Z) in *.
  destruct Hinv as (Htr & Hlo & Hhi & Hw & Hbelow & Habove & Hl & Hr).
  destruct (lookupZ_in_range scale mid ltac:(lia)) as [x Hx].
  rewrite Hx.
  pose proof (rounded_closer_snd_le value mid x best) as [Hc1 Hc2].
  pose proof (rounded_tracks_closer mid x best Hx Htr) as Htr'.
  destruct (Qltb x value) eqn:Hcmp.
  - apply Qltb_lt in Hcmp.
    apply (IH (Z.to_nat (hi - (mid + 1) + 1))); [lia|reflexivity|].
    refine (conj Htr' (conj _ (conj _ (conj _ (conj _ (conj _ (conj _ _)))))));
      try lia.
    + intros i y Hi Hy.
      pose proof (ascendingb_lookup scale Hasc i mid y x ltac:(lia) Hy Hx).
      lra.
    + exact Habove.
    + intros y Hy. replace (mid + 1 - 1)%Z with mid in Hy by lia.
      rewrite Hx in Hy. injection Hy as <-. exact Hc2.
    + intros y Hy. specialize (Hr y Hy). lra.
  - apply Qltb_ge in Hcmp.
    apply (IH (Z.to_nat (mid - 1 - lo + 1))); [lia|reflexivity|].
    refine (conj Htr' (conj _ (conj _ (conj _ (conj _ (conj _ (conj _ _)))))));
      try lia.
    + exact Hbelow.
    + intros i y Hi Hy.
      pose proof (ascendingb_lookup scale Hasc mid i x y ltac:(lia) Hx Hy).
      lra.
    + intros y Hy. specialize (Hl y Hy). lra.
    + intros y Hy. replace (mid - 1 + 1)%Z with mid in Hy by lia.
      rewrite Hx in Hy. injection Hy as <-. exact Hc2.
Qed.

Lemma rounded_scan_neighbors_minimal (neighbors : list Z) (best : Z * Q) :
  rounded_minimal best ->
  Binary64.scan_neighbors round value scale neighbors best = best.
Proof using Type.
  intros [_ Hmin]. unfold Binary64.scan_neighbors.
  induction neighbors as [|idx rest IH]; [reflexivity|].
  cbn [fold_left]. destruct (lookupZ scale idx) as [x|] eqn:E; [|exact IH].
  rewrite rounded_closer_keep; [exact IH|]. eapply Hmin, E.
Qed.

End RoundedBinarySearch.

(** Over an ascending scale the returned index is one of minimum computed
    distance. *)
Lemma rounded_findClosestIndex_minimal (value : Q) (scale : list Q) :
  ascendingb scale = true -> scale <> [] ->
  exists x, lookupZ scale (Binary64.findClosestIndex round value scale)
            = Some x /\
            forall y, In y scale -> dist x value <= dist y value.
Proof using round_le round_0.
  intros Hasc Hne. destruct scale as [|s0 [|s1 rest]]; [congruence| |].
  - exists s0. split; [reflexivity|]. intros y [<-|[]]. apply Qle_refl.
  - unfold Binary64.findClosestIndex.
    set (sc := s0 :: s1 :: rest) in *.
    destruct (Qle_bool value s0) eqn:E0.
    { apply Qle_bool_iff in E0. exists s0. split; [reflexivity|].
      intros y [<-|Hy]; [apply Qle_refl|].
      pose proof (ascendingb_head s0 _ Hasc y Hy).
      apply rounded_dist_above; lra. }
    destruct (Qle_bool (List.last sc s0) value) eqn:E1.
    { apply Qle_bool_iff in E1. exists (List.last sc s0).
      split; [now apply lookupZ_last|].
      intros y Hy. apply In_lookupZ in Hy as [i Hi].
      pose proof (lookupZ_Some _ _ _ Hi) as [Hr _].
      assert (Hle : y <= List.last sc s0).
      { eapply (ascendingb_lookup sc Hasc i (Z.of_nat (length sc) - 1));
          [lia|exact Hi|now apply lookupZ_last]. }
      apply rounded_dist_below; lra. }
    cbv zeta.
    assert (Hmin : rounded_minimal value sc
              (Binary64.bsearch round value sc 0 (Z.of_nat (length sc) - 1)
                 (0%Z, dist s0 value))).
    { apply rounded_bsearch_minimal; [exact Hasc|].
      refine (conj _ (conj _ (conj _ (conj _ (conj _ (conj _ (conj _ _)))))));
        try lia.
      - exists s0. split; reflexivity.
      - intros i x Hi Hx. apply lookupZ_Some in Hx. lia.
      - intros i x Hi Hx. apply lookupZ_Some in Hx. lia.
      - intros x Hx. apply lookupZ_Some in Hx. lia.
      - intros x Hx. apply lookupZ_Some in Hx. lia. }
    rewrite rounded_scan_neighbors_minimal by exact Hmin.
    destruct Hmin as [(x & Hx & Hd) Hall]. exists x. split; [exact Hx|].
    intros y Hy. apply In_lookupZ in Hy as [i Hi].
    rewrite <- Hd. eapply Hall, Hi.
Qed.

Section RoundedLinearScan.

Variable value : Q.

(** [best] is the first entry of [seen] at minimum computed distance. *)
Definition rounded_first_minimal (seen : list (jsstring * Q))
    (best : jsstring * Q) : Prop :=
  exists (i : nat) (x : Q),
    nth_error seen i = Some (fst best, x) /\
    snd best = dist x value /\
    (forall j e, nth_error seen j = Some e -> snd best <= dist (snd e) value) /\
    (forall j e, (j < i)%nat -> nth_error seen j = Some e ->
                 snd best < dist (snd e) value).

Lemma rounded_first_minimal_step (seen : list (jsstring * Q))
    (e : jsstring * Q) (best : jsstring * Q) :
  rounded_first_minimal seen best ->
  rounded_first_minimal (seen ++ [e])
    (Binary64.closer round value (fst e) (snd e) best).
Proof using Type.
  intros (i & x & Hi & Hd & Hall & Hbefore).
  assert (Hlt : (i < length seen)%nat)
    by (apply nth_error_Some; congruence).
  unfold Binary64.closer. cbv zeta.
  destruct (Qltb (dist (snd e) value) (snd best)) eqn:E.
  - apply Qltb_lt in E. exists (length seen), (snd e). cbn [fst snd].
    split; [|split; [reflexivity|split]].
    + rewrite nth_error_app2 by lia. rewrite Nat.sub_diag.
      destruct e; reflexivity.
    + intros j e' Hj.
      destruct (Nat.lt_ge_cases j (length seen)) as [Hjl|Hjl].
      * rewrite nth_error_app1 in Hj by exact Hjl.
        specialize (Hall j e' Hj). lra.
      * rewrite nth_error_app2 in Hj by exact Hjl.
        destruct (j - length seen)%nat as [|[|?]]; cbn in Hj; try discriminate.
        injection Hj as <-. apply Qle_refl.
    + intros j e' Hjl Hj. rewrite nth_error_app1 in Hj by exact Hjl.
      specialize (Hall j e' Hj). lra.
  - apply Qltb_ge in E. exists i, x.
    split; [|split; [exact Hd|split]].
    + rewrite nth_error_app1 by exact Hlt. exact Hi.
    + intros j e' Hj.
      destruct (Nat.lt_ge_cases j (length seen)) as [Hjl|Hjl].
      * rewrite nth_error_app1 in Hj by exact Hjl. eapply Hall, Hj.
      * rewrite nth_error_app2 in Hj by exact Hjl.
        destruct (j - length seen)%nat as [|[|?]]; cbn in Hj; try discriminate.
        injection Hj as <-. exact E.
    + intros j e' Hji Hj. rewrite nth_error_app1 in Hj by lia.
      eapply Hbefore; eassumption.
Qed.

Lemma rounded_first_minimal_fold (rest seen : list (jsstring * Q))
    (best : jsstring * Q) :
  rounded_first_minimal seen best ->
  rounded_first_minimal (seen ++ rest)
    (fold_left
       (fun best e => Binary64.closer round value (fst e) (snd e) best)
       rest best).
Proof using Type.
  revert seen best. induction rest as [|e rest IH]; intros seen best H.
  - rewrite app_nil_r. exact H.
  - cbn [fold_left].
    replace (seen ++ e :: rest) with ((seen ++ [e]) ++ rest)
      by (rewrite <- app_assoc; reflexivity).
    apply IH, rounded_first_minimal_step, H.
Qed.

Lemma rounded_findClosestKey_first_minimal (scale : list (jsstring * Q)) :
  scale <> [] ->
  exists best, Binary64.findClosestKey round value scale = Some (fst best) /\
               rounded_first_minimal scale best.
Proof using Type.
  destruct scale as [|[k0 v0] rest]; [congruence|]. intros _.
  eexists. split; [reflexivity|].
  cbn [fold_left]. rewrite rounded_closer_keep by apply Qle_refl.
  apply (rounded_first_minimal_fold rest [(k0, v0)]).
  exists 0%nat, v0. cbn [fst snd nth_error].
  split; [reflexivity|split; [reflexivity|split]].
  - intros [|[|?]] e Hj; cbn in Hj; try discriminate.
    injection Hj as <-. apply Qle_refl.
  - intros j e Hj. lia.
Qed.

End RoundedLinearScan.

End Rounded.

(** ** Without rounding: the exact functions *)

Section Exact.

Local Open Scope Q_scope.

Lemma exact_closer {I} (value : Q) (i : I) (x : Q) (best : I * Q) :
  Binary64.closer Binary64.exact value i x best = closer value i x best.
Proof. reflexivity. Qed.

Lemma exact_bsearch (value : Q) (scale : list Q) (lo hi : Z) (best : Z * Q) :
  Binary64.bsearch Binary64.exact value scale lo hi best
  = bsearch value scale lo hi best.
Proof.
  remember (Z.to_nat (hi - lo + 1)) as n eqn:Hn.
  revert lo hi best Hn.
  induction n as [n IH] using lt_wf_ind. intros lo hi best Hn.
  rewrite (rounded_bsearch_unfold Binary64.exact), bsearch_unfold.
  destruct (Z_le_gt_dec lo hi) as [Hle|Hgt]; [|reflexivity].
  cbv zeta.
  assert (Hmid : (lo <= (lo + hi) / 2 <= hi)%Z)
    by (Z.to_euclidean_division_equations; lia).
  set (mid := ((lo + hi) / 2)%Z) in *.
  destruct (lookupZ scale mid) as [x|].
  - destruct (Qltb x value).
    + apply (IH (Z.to_nat (hi - (mid + 1) + 1))); [lia|reflexivity].
    + apply (IH (Z.to_nat (mid - 1 - lo + 1))); [lia|reflexivity].
  - apply (IH (Z.to_nat (mid - 1 - lo + 1))); [lia|reflexivity].
Qed.

Lemma exact_findClosestIndex (value : Q) (scale : list Q) :
  Binary64.findClosestIndex Binary64.exact value scale
  = findClosestIndex value scale.
Proof.
  unfold Binary64.findClosestIndex, findClosestIndex.
  destruct scale as [|s0 [|s1 rest]]; try reflexivity.
  cbv zeta. rewrite exact_bsearch. reflexivity.
Qed.

Lemma exact_findClosestKey (value : Q) (scale : list (jsstring * Q)) :
  Binary64.findClosestKey Binary64.exact value scale
  = findClosestKey value scale.
Proof. reflexivity. Qed.

Lemma exact_findNearestWithTolerance (value : Q) (scale : list Q)
    (tolerance : option Q) :
  Binary64.findNearestWithTolerance Binary64.exact value scale tolerance
  = findNearestWithTolerance value scale tolerance.
Proof.
  unfold Binary64.findNearestWithTolerance, findNearestWithTolerance.
  destruct scale as [|s0 rest]; [reflexivity|].
  cbv zeta. rewrite exact_findClosestIndex. reflexivity.
Qed.

End Exact.

(** ** The matcher decides the language of a pattern *)

Section RegexCorrect.

Local Open Scope N_scope.

Lemma lang_Void_inv (s : jsstring) : lang Void s -> False.
Proof. intros H. inversion H. Qed.

Lemma lang_Eps_inv (s : jsstring) : lang Eps s -> s = [].
Proof. intros H. now inversion H. Qed.

Lemma lang_Class_inv (p : N -> bool) (s : jsstring) :
  lang (Class p) s -> exists c, s = [c] /\ p c = true.
Proof. intros H. inversion H; subst. eauto. Qed.

Lemma lang_Seq_inv (r1 r2 : regex) (s : jsstring) :
  lang (Seq r1 r2) s ->
  exists s1 s2, s = s1 ++ s2 /\ lang r1 s1 /\ lang r2 s2.
Proof. intros H. inversion H; subst. eauto. Qed.

Lemma lang_Alt_inv (r1 r2 : regex) (s : jsstring) :
  lang (Alt r1 r2) s -> lang r1 s \/ lang r2 s.
Proof. intros H. inversion H; subst; auto. Qed.

Lemma nullable_lang (r : regex) : nullable r = true <-> lang r [].
Proof.
  split.
  - induction r; cbn; intros H; try discriminate.
    + constructor.
    + apply andb_true_iff in H as [H1 H2].
      change (@nil N) with (@nil N ++ []). constructor; auto.
    + apply orb_true_iff in H as [H|H]; [apply lang_alt_l|apply lang_alt_r];
        auto.
    + constructor.
  - intros H. remember [] as s eqn:Hs.
    induction H; cbn; subst; try reflexivity; try discriminate.
    + apply app_eq_nil in Hs as [-> ->]. rewrite IHlang1, IHlang2; auto.
    + rewrite IHlang; auto.
    + rewrite IHlang; auto. apply orb_true_r.
Qed.

Lemma seq_lang (r1 r2 : regex) (s : jsstring) :
  lang (seq r1 r2) s <-> lang (Seq r1 r2) s.
Proof.
  assert (HV1 : forall r, lang Void s <-> lang (Seq Void r) s).
  { intros r. split; intros H; [destruct (lang_Void_inv _ H)|].
    apply lang_Seq_inv in H as (? & ? & _ & H & _).
    destruct (lang_Void_inv _ H). }
  assert (HV2 : forall r, lang Void s <-> lang (Seq r Void) s).
  { intros r. split; intros H; [destruct (lang_Void_inv _ H)|].
    apply lang_Seq_inv in H as (? & ? & _ & _ & H).
    destruct (lang_Void_inv _ H). }
  assert (HE : forall r, lang r s <-> lang (Seq Eps r) s).
  { intros r. split; intros H.
    - change s with ([] ++ s). constructor; [constructor|exact H].
    - apply lang_Seq_inv in H as (s1 & s2 & -> & H1 & H2).
      apply lang_Eps_inv in H1 as ->. exact H2. }
  destruct r1, r2; cbn [seq]; auto; reflexivity.
Qed.

Lemma alt_lang (r1 r2 : regex) (s : jsstring) :
  lang (alt r1 r2) s <-> lang (Alt r1 r2) s.
Proof.
  assert (HV1 : forall r, lang r s <-> lang (Alt Void r) s).
  { intros r. split; intros H; [now apply lang_alt_r|].
    apply lang_Alt_inv in H as [H|H]; [destruct (lang_Void_inv _ H)|exact H]. }
  assert (HV2 : forall r, lang r s <-> lang (Alt r Void) s).
  { intros r. split; intros H; [now apply lang_alt_l|].
    apply lang_Alt_inv in H as [H|H]; [exact H|destruct (lang_Void_inv _ H)]. }
  destruct r1, r2; cbn [alt]; auto; reflexivity.
Qed.

(** A non-empty match of a starred pattern begins with a non-empty match of
    its body. *)
Lemma lang_Star_cons_inv (r : regex) (c : N) (s : jsstring) :
  lang (Star r) (c :: s) ->
  exists s1 s2, s = s1 ++ s2 /\ lang r (c :: s1) /\ lang (Star r) s2.
Proof.
  intros H. remember (Star r) as r' eqn:Hr. remember (c :: s) as w eqn:Hw.
  revert s Hw.
  induction H; intros s' Hw; try discriminate.
  injection Hr as ->.
  destruct s1 as [|c1 s1].
  - cbn in Hw. apply IHlang2; [reflexivity|exact Hw].
  - cbn in Hw. injection Hw as -> <-. exists s1, s2. auto.
Qed.

Lemma deriv_lang (c : N) (r : regex) (s : jsstring) :
  lang (deriv c r) s <-> lang r (c :: s).
Proof.
  revert s. induction r as [| |p|r1 IH1 r2 IH2|r1 IH1 r2 IH2|r1 IH1];
    intros s; cbn [deriv].
  - split; intros H; destruct (lang_Void_inv _ H).
  - split; intros H; [destruct (lang_Void_inv _ H)|].
    apply lang_Eps_inv in H. discriminate.
  - destruct (p c) eqn:E; split; intros H.
    + apply lang_Eps_inv in H as ->. now constructor.
    + apply lang_Class_inv in H as (c' & Hc & _).
      injection Hc as _ ->. constructor.
    + destruct (lang_Void_inv _ H).
    + apply lang_Class_inv in H as (c' & Hc & Hp).
      injection Hc as -> _. congruence.
  - rewrite alt_lang. split; intros H.
    + apply lang_Alt_inv in H as [H|H].
      * apply seq_lang, lang_Seq_inv in H as (s1 & s2 & -> & H1 & H2).
        apply IH1 in H1. change (c :: s1 ++ s2) with ((c :: s1) ++ s2).
        now constructor.
      * destruct (nullable r1) eqn:E; [|destruct (lang_Void_inv _ H)].
        apply nullable_lang in E. apply IH2 in H.
        change (c :: s) with ([] ++ c :: s). now constructor.
    + apply lang_Seq_inv in H as (s1 & s2 & Hs & H1 & H2).
      destruct s1 as [|c1 s1]; cbn in Hs.
      * subst s2. apply lang_alt_r.
        apply nullable_lang in H1. rewrite H1. now apply IH2.
      * injection Hs as <- ->. apply lang_alt_l, seq_lang.
        constructor; [now apply IH1|exact H2].
  - rewrite alt_lang. split; intros H.
    + apply lang_Alt_inv in H as [H|H];
        [apply lang_alt_l, IH1|apply lang_alt_r, IH2]; exact H.
    + apply lang_Alt_inv in H as [H|H];
        [apply lang_alt_l, IH1|apply lang_alt_r, IH2]; exact H.
  - rewrite seq_lang. split; intros H.
    + apply lang_Seq_inv in H as (s1 & s2 & -> & H1 & H2).
      apply IH1 in H1. change (c :: s1 ++ s2) with ((c :: s1) ++ s2).
      now constructor.
    + apply lang_Star_cons_inv in H as (s1 & s2 & -> & H1 & H2).
      constructor; [now apply IH1|exact H2].
Qed.

Lemma matches_lang (r : regex) (s : jsstring) :
  matches r s = true <-> lang r s.
Proof.
  revert r. induction s as [|c s IH]; intros r; cbn [matches].
  - apply nullable_lang.
  - rewrite IH. apply deriv_lang.
Qed.

Lemma lang_Star_any (s : jsstring) : lang (Star any) s.
Proof.
  induction s as [|c s IH]; [constructor|].
  change (c :: s) with ([c] ++ s). constructor; [now constructor|exact IH].
Qed.

(** [test] answers whether the string contains a match. *)
Lemma test_contains (r : regex) (s : jsstring) :
  test r s = true <-> contains r s.
Proof.
  unfold test, contains. rewrite matches_lang. split.
  - intros H. apply lang_Seq_inv in H as (pre & s2 & -> & _ & H).
    apply lang_Seq_inv in H as (m & post & -> & H & _). eauto.
  - intros (pre & m & post & -> & H).
    constructor; [apply lang_Star_any|].
    constructor; [exact H|apply lang_Star_any].
Qed.

Lemma test_not_contains (r : regex) (s : jsstring) :
  test r s = false <-> ~ contains r s.
Proof.
  rewrite <- test_contains. destruct (test r s); split; congruence.
Qed.

End RegexCorrect.

(** ** The validation gate *)

(** The tests of [validateJSXOutput] that precede its last one, in source
    order, each with the message it throws. *)
Definition gate_tests : list ((jsstring -> bool) * jsstring) :=
  [ (isEmpty, MSG_EMPTY);
    (fun t => negb (test jsxElementPattern t), MSG_NO_JSX);
    (test inlineStylePattern, MSG_INLINE_STYLE);
    (test styleStringPattern, MSG_STYLE_STRING);
    (test styleTagPattern, MSG_STYLE_TAG);
    (test styledComponentsPattern, MSG_CSS_IN_JS);
    (test cssInClassNamePattern, MSG_CSS_IN_CLASSNAME);
    (test cssImportPattern, MSG_CSS_IMPORT);
    (test cssModulePattern, MSG_CSS_MODULE);
    (test requireCssPattern, MSG_REQUIRE_CSS) ].

Fixpoint first_failing (tests : list ((jsstring -> bool) * jsstring))
    (t : jsstring) : option jsstring :=
  match tests with
  | [] => None
  | (check, m) :: rest => if check t then Some m else first_failing rest t
  end.

(** A test decides a condition. *)
Definition decides (tb : (jsstring -> bool) * jsstring)
    (tp : (jsstring -> Prop) * jsstring) : Prop :=
  snd tb = snd tp /\ forall t, fst tb t = true <-> fst tp t.

Lemma first_failing_Some tests conds (t m : jsstring) :
  Forall2 decides tests conds ->
  first_failing tests t = Some m <-> first_violation conds t m.
Proof.
  intros H. induction H as [|[b mb] [P mp] tests conds [Hm Hd] _ IH];
    cbn [first_failing].
  - split; intros H; [discriminate|inversion H].
  - cbn in Hm, Hd. subst mp. destruct (b t) eqn:E.
    + split.
      * intros [= <-]. constructor. now apply Hd.
      * intros Hv. inversion Hv; subst; [reflexivity|].
        exfalso. match goal with Hn : ~ P t |- _ => apply Hn end.
        now apply Hd.
    + assert (Hn : ~ P t) by (intros HP; apply Hd in HP; congruence).
      rewrite IH. split.
      * intros Hv. now constructor.
      * intros Hv. inversion Hv; subst; [contradiction|assumption].
Qed.

Lemma first_failing_None tests conds (t : jsstring) :
  Forall2 decides tests conds ->
  first_failing tests t = None <-> Forall (fun c => ~ fst c t) conds.
Proof.
  intros H. induction H as [|[b mb] [P mp] tests conds [Hm Hd] _ IH];
    cbn [first_failing].
  - split; auto.
  - cbn in Hm, Hd. destruct (b t) eqn:E.
    + split; [discriminate|]. intros HF. inversion HF; subst.
      exfalso. cbn in *. match goal with Hn : ~ P t |- _ => apply Hn end.
      now apply Hd.
    + rewrite IH. split.
      * intros HF. constructor; [|exact HF].
        cbn. intros HP. apply Hd in HP. congruence.
      * intros HF. now inversion HF.
Qed.

Lemma gate_tests_decide : Forall2 decides gate_tests gate.
Proof.
  unfold gate_tests, gate.
  repeat (constructor; [split; [reflexivity|cbn [fst]; intros t] |]);
    [..|constructor]; try apply test_contains.
  - destruct t; cbn; split; congruence.
  - rewrite negb_true_iff. apply test_not_contains.
Qed.

(** Whatever contains a JSX element contains an opening tag: the last test
    of the validator never fails. *)
Lemma jsx_element_has_opening_tag (t : jsstring) :
  contains jsxElementPattern t -> contains openingTagPattern t.
Proof.
  intros (pre & m & post & -> & H).
  unfold jsxElementPattern in H. cbn [seqs] in H.
  apply lang_Seq_inv in H as (m1 & m2 & -> & H1 & H).
  apply lang_Seq_inv in H as (m3 & m4 & -> & H3 & _).
  exists pre, (m1 ++ m3), (m4 ++ post). split.
  - now rewrite <- !app_assoc.
  - now constructor.
Qed.

Lemma validateJSXOutput_first_failing (jsxCode : jsstring) :
  validateJSXOutput jsxCode =
  match first_failing gate_tests (trim jsxCode) with
  | Some m => Throw m
  | None => Return (trim jsxCode)
  end.
Proof.
  unfold validateJSXOutput. cbv zeta. cbn [first_failing gate_tests].
  destruct (isEmpty (trim jsxCode)); [reflexivity|].
  destruct (test jsxElementPattern (trim jsxCode)) eqn:Ejsx; cbn [negb];
    [|reflexivity].
  repeat match goal with
         | |- context [if test ?r ?t then _ else _] =>
             destruct (test r t); [reflexivity|]
         end.
  apply test_contains, jsx_element_has_opening_tag, test_contains in Ejsx.
  now rewrite Ejsx.
Qed.

(** None of the three import patterns matches an import that binds a name
    to a plain stylesheet: such a text is returned. *)
Lemma binding_stylesheet_import_is_returned :
  validateJSXOutput
    (js "import styles from './button.css'; <button className='p-4'>OK</button>")
  = Return
    (js "import styles from './button.css'; <button className='p-4'>OK</button>").
Proof. vm_compute. reflexivity. Qed.

(** ** Trimming keeps what starts and ends with a visible character *)

Lemma trimStart_keeps (pre core : jsstring) (x : N) :
  isWhiteSpace x = false ->
  exists pre', trimStart (pre ++ x :: core) = pre' ++ x :: core.
Proof.
  intros Hx. induction pre as [|c pre IH]; cbn [app trimStart].
  - exists []. now rewrite Hx.
  - destruct (isWhiteSpace c); [exact IH|]. now exists (c :: pre).
Qed.

Lemma trimEnd_keeps (core post : jsstring) (y : N) :
  isWhiteSpace y = false ->
  exists post', trimEnd ((core ++ [y]) ++ post) = (core ++ [y]) ++ post'.
Proof.
  intros Hy. unfold trimEnd.
  rewrite rev_app_distr, rev_app_distr. cbn [rev app].
  destruct (trimStart_keeps (rev post) (rev core) y Hy) as [p' Hp].
  rewrite Hp. exists (rev p').
  rewrite rev_app_distr. cbn [rev]. rewrite rev_involutive.
  reflexivity.
Qed.

Lemma trim_keeps (pre mid post : jsstring) (x y : N) :
  isWhiteSpace x = false -> isWhiteSpace y = false ->
  exists pre' post',
    trim (pre ++ (x :: mid ++ [y]) ++ post) = pre' ++ (x :: mid ++ [y]) ++ post'.
Proof.
  intros Hx Hy. unfold trim.
  cbn [app]. rewrite <- app_assoc.
  destruct (trimStart_keeps pre (mid ++ [y] ++ post) x Hx) as [pre' Hpre].
  rewrite Hpre.
  replace (pre' ++ x :: mid ++ [y] ++ post)
    with (((pre' ++ x :: mid) ++ [y]) ++ post)
    by (rewrite <- !app_assoc; reflexivity).
  destruct (trimEnd_keeps (pre' ++ x :: mid) post y Hy) as [post' Hpost].
  rewrite Hpost. exists pre', post'. rewrite <- !app_assoc. reflexivity.
Qed.

(** A match that starts and ends with a visible character survives the
    trimming of the text around it. *)
Lemma contains_trim (r : regex) (pre mid post : jsstring) (x y : N) :
  isWhiteSpace x = false -> isWhiteSpace y = false ->
  lang r (x :: mid ++ [y]) ->
  contains r (trim (pre ++ (x :: mid ++ [y]) ++ post)).
Proof.
  intros Hx Hy H.
  destruct (trim_keeps pre mid post x y Hx Hy) as (pre' & post' & ->).
  now exists pre', (x :: mid ++ [y]), post'.
Qed.

Lemma lang_lit (s : jsstring) : lang (lit s) s.
Proof.
  induction s as [|c s IH]; cbn [lit]; [constructor|].
  change (c :: s) with ([c] ++ s).
  constructor; [constructor; apply N.eqb_refl|exact IH].
Qed.

Lemma lang_Star_Class (p : N -> bool) (s : jsstring) :
  Forall (fun c => p c = true) s -> lang (Star (Class p)) s.
Proof.
  induction 1 as [|c s Hc _ IH]; [constructor|].
  change (c :: s) with ([c] ++ s). constructor; [now constructor|exact IH].
Qed.

(** The text up to the first quote character. *)
Lemma split_at_first_quote (s : jsstring) :
  Exists (fun c => isQuote c = true) s ->
  exists nq q rest,
    s = nq ++ q :: rest /\ isQuote q = true /\
    Forall (fun c => negb (isQuote c) = true) nq.
Proof.
  induction s as [|c s IH]; intros H; [inversion H|].
  destruct (isQuote c) eqn:E.
  - exists [], c, s. auto.
  - inversion H as [? ? Hc|? ? Hs]; subst; [congruence|].
    destruct (IH Hs) as (nq & q & rest & -> & Hq & Hnq).
    exists (c :: nq), q, rest. repeat split; auto.
    constructor; [now rewrite E|exact Hnq].
Qed.

(** ** Colon-prefixed classes in a quoted className value *)

(** Brings nested concatenations to the right-nested form. *)
Ltac list_norm := repeat (progress (rewrite <- ?app_assoc; cbn [app])).

Lemma breakpoint_text_no_quote (bp : Breakpoint) :
  Forall (fun c => negb (isQuote c) = true) (breakpoint_text bp).
Proof. destruct bp; repeat constructor. Qed.

Lemma withBreakpoint_nonempty (bp : Breakpoint) (c : jsstring) :
  c <> [] -> withBreakpoint bp c = breakpoint_text bp ++ js ":" ++ c.
Proof. intros H. destruct c; [congruence|reflexivity]. Qed.

(** The className pattern matches from the attribute name up to the first
    quote character after the colon. *)
Lemma className_colon_match (ws1 ws2 a nq : jsstring) (q1 q2 : N)
    (bp : Breakpoint) :
  Forall (fun c => isWhiteSpace c = true) ws1 ->
  Forall (fun c => isWhiteSpace c = true) ws2 ->
  isQuote q1 = true -> isQuote q2 = true ->
  Forall (fun c => negb (isQuote c) = true) a ->
  Forall (fun c => negb (isQuote c) = true) nq ->
  lang cssInClassNamePattern
    (js "className" ++ ws1 ++ js "=" ++ ws2 ++ [q1] ++
     (a ++ breakpoint_text bp) ++ js ":" ++ [] ++ nq ++ [q2]).
Proof.
  intros Hws1 Hws2 Hq1 Hq2 Ha Hnq.
  unfold cssInClassNamePattern. cbn [seqs].
  constructor; [apply lang_lit|].
  constructor; [now apply lang_Star_Class|].
  constructor; [now constructor|].
  constructor; [now apply lang_Star_Class|].
  constructor; [now constructor|].
  constructor.
  { apply lang_Star_Class, Forall_app. split; [exact Ha|].
    apply breakpoint_text_no_quote. }
  constructor; [now constructor|].
  constructor; [constructor|].
  constructor; [now apply lang_Star_Class|now constructor].
Qed.

Lemma quote_not_space (q : N) : isQuote q = true -> isWhiteSpace q = false.
Proof.
  unfold isQuote, dquote, squote. intros H.
  apply orb_true_iff in H as [H|H]; apply N.eqb_eq in H; subst; reflexivity.
Qed.

(** A text holding a quoted className value with a colon-prefixed class,
    no quote character standing between the opening quote and the class,
    contains a match of the className pattern after trimming. *)
Lemma quoted_breakpoint_class_detected (bp : Breakpoint)
    (c pre ws1 ws2 a b post : jsstring) (q1 q2 : N) :
  c <> [] ->
  Forall (fun x => isWhiteSpace x = true) ws1 ->
  Forall (fun x => isWhiteSpace x = true) ws2 ->
  isQuote q1 = true -> isQuote q2 = true ->
  Forall (fun x => negb (isQuote x) = true) a ->
  contains cssInClassNamePattern
    (trim (pre ++ js "className" ++ ws1 ++ js "=" ++ ws2 ++ [q1] ++ a ++
           withBreakpoint bp c ++ b ++ [q2] ++ post)).
Proof.
  intros Hc Hws1 Hws2 Hq1 Hq2 Ha.
  rewrite (withBreakpoint_nonempty bp c Hc).
  destruct (split_at_first_quote (c ++ b ++ [q2] ++ post))
    as (nq & q & rest & Hsplit & Hq & Hnq).
  { apply Exists_app. right. apply Exists_app. right.
    apply Exists_cons_hd. exact Hq2. }
  pose proof (className_colon_match ws1 ws2 a nq q1 q bp
                Hws1 Hws2 Hq1 Hq Ha Hnq) as Hm.
  set (mid := js "lassName" ++ ws1 ++ js "=" ++ ws2 ++ [q1] ++
              (a ++ breakpoint_text bp) ++ js ":" ++ [] ++ nq).
  assert (Hmid : js "className" ++ ws1 ++ js "=" ++ ws2 ++ [q1] ++
                 (a ++ breakpoint_text bp) ++ js ":" ++ [] ++ nq ++ [q]
                 = 99%N :: mid ++ [q]).
  { unfold mid. change (js "className") with (99%N :: js "lassName").
    list_norm. reflexivity. }
  rewrite Hmid in Hm.
  replace (pre ++ js "className" ++ ws1 ++ js "=" ++ ws2 ++ [q1] ++ a ++
           (breakpoint_text bp ++ js ":" ++ c) ++ b ++ [q2] ++ post)
    with (pre ++ (99%N :: mid ++ [q]) ++ rest).
  - apply contains_trim; [reflexivity|now apply quote_not_space|exact Hm].
  - rewrite <- Hmid. list_norm. do 5 f_equal. list_norm.
    do 3 f_equal. cbn [app] in Hsplit. now rewrite Hsplit.
Qed.

(** ** Reference parsing *)

Section FigmaParsing.

Local Open Scope N_scope.

Lemma alnum_not_space (c : N) : isAlnum c = true -> isWhiteSpace c = false.
Proof.
  unfold isAlnum, isAlpha, isUpper, isLower, isDigit, isWhiteSpace.
  intros H. apply not_true_is_false. intros Hw.
  repeat match goal with
         | H' : _ |- _ =>
             progress (rewrite ?orb_true_iff, ?andb_true_iff, ?N.eqb_eq,
                         ?N.leb_le in H')
         end.
  lia.
Qed.

(** A text whose first and last code units are visible is its own trim. *)
Lemma trim_visible_ends (x : N) (rest : jsstring) :
  isWhiteSpace x = false ->
  isWhiteSpace (List.last (x :: rest) x) = false ->
  trim (x :: rest) = x :: rest.
Proof.
  intros Hx Hy. unfold trim. cbn [trimStart]. rewrite Hx.
  unfold trimEnd.
  rewrite (app_removelast_last x (l := x :: rest)) at 1 by discriminate.
  rewrite rev_app_distr. cbn [rev app trimStart]. rewrite Hy.
  change (List.last (x :: rest) x :: rev (removelast (x :: rest)))
    with (rev [List.last (x :: rest) x] ++ rev (removelast (x :: rest))).
  rewrite <- rev_app_distr, rev_involutive.
  symmetry. apply app_removelast_last. discriminate.
Qed.

Lemma last_Forall (P : N -> Prop) (s : jsstring) (d : N) :
  Forall P s -> s <> [] -> P (List.last s d).
Proof.
  induction 1 as [|c s Hc Hs IH]; [congruence|]. intros _.
  destruct s as [|c' s]; [exact Hc|]. apply IH. discriminate.
Qed.

Lemma trim_visible (s : jsstring) :
  Forall (fun c => isWhiteSpace c = false) s -> trim s = s.
Proof.
  intros H. destruct s as [|x rest]; [reflexivity|].
  apply trim_visible_ends.
  - now inversion H.
  - apply (last_Forall (fun c => isWhiteSpace c = false)); [exact H|discriminate].
Qed.

Lemma stripPrefix_app (p r : jsstring) : stripPrefix p (p ++ r) = Some r.
Proof.
  induction p as [|a p IH]; [reflexivity|].
  cbn [app stripPrefix]. now rewrite N.eqb_refl.
Qed.

Lemma stripPrefix_Some (p s r : jsstring) :
  stripPrefix p s = Some r -> s = p ++ r.
Proof.
  revert s. induction p as [|a p IH]; intros s H; cbn in H.
  - now injection H as ->.
  - destruct s as [|b s]; [discriminate|].
    destruct (N.eqb_spec a b) as [->|]; [|discriminate].
    cbn [app]. f_equal. now apply IH.
Qed.

Lemma takeWhile_split (p : N -> bool) (s : jsstring) :
  Forall (fun c => p c = true) (takeWhile p s) /\
  exists r, s = takeWhile p s ++ r.
Proof.
  induction s as [|c s [IH1 [r IH2]]]; cbn [takeWhile].
  - split; [constructor|now exists []].
  - destruct (p c) eqn:E.
    + split; [now constructor|]. exists r. cbn [app]. now f_equal.
    + split; [constructor|]. now exists (c :: s).
Qed.

Lemma takeWhile_app_stop (p : N -> bool) (run rest : jsstring) :
  Forall (fun c => p c = true) run ->
  match rest with [] => True | x :: _ => p x = false end ->
  takeWhile p (run ++ rest) = run.
Proof.
  intros Hrun Hrest. induction Hrun as [|c run Hc _ IH]; cbn [app takeWhile].
  - destruct rest as [|x rest]; [reflexivity|]. cbn [takeWhile].
    now rewrite Hrest.
  - now rewrite Hc, IH.
Qed.

Lemma greedyRun_app_stop (p : N -> bool) (run rest : jsstring) :
  run <> [] -> Forall (fun c => p c = true) run ->
  match rest with [] => True | x :: _ => p x = false end ->
  greedyRun p (run ++ rest) = Some run.
Proof.
  intros Hne Hrun Hrest. unfold greedyRun.
  rewrite takeWhile_app_stop by assumption.
  destruct run; [congruence|reflexivity].
Qed.

Lemma greedyRun_Some (p : N -> bool) (s run : jsstring) :
  greedyRun p s = Some run ->
  run <> [] /\ Forall (fun c => p c = true) run /\ exists r, s = run ++ r.
Proof.
  unfold greedyRun. intros H.
  destruct (takeWhile_split p s) as [HF Hr].
  destruct (takeWhile p s) as [|c t] eqn:E; [discriminate|].
  injection H as <-. split; [discriminate|]. split; assumption.
Qed.

Lemma greedyRun_head (p : N -> bool) (c : N) (s : jsstring) :
  p c = true -> exists run, greedyRun p (c :: s) = Some run.
Proof.
  intros H. unfold greedyRun. cbn [takeWhile]. rewrite H. eauto.
Qed.

Lemma leftmost_Some {A} (f : jsstring -> option A) (s : jsstring) (x : A) :
  leftmost f s = Some x -> exists pre s', s = pre ++ s' /\ f s' = Some x.
Proof.
  induction s as [|c s IH]; cbn [leftmost]; intros H.
  - destruct (f []) eqn:E; [|discriminate]. injection H as ->.
    now exists [], [].
  - destruct (f (c :: s)) eqn:E.
    + injection H as ->. now exists [], (c :: s).
    + destruct (IH H) as (pre & s' & -> & Hs'). now exists (c :: pre), s'.
Qed.

Lemma leftmost_complete {A} (f : jsstring -> option A) (pre s : jsstring)
    (x : A) :
  f s = Some x -> exists y, leftmost f (pre ++ s) = Some y.
Proof.
  intros H. induction pre as [|c pre IH]; cbn [app].
  - destruct s; cbn [leftmost]; rewrite H; eauto.
  - cbn [leftmost]. destruct (f (c :: pre ++ s)); eauto.
Qed.

(** Positions at which the pattern cannot match are skipped. *)
Lemma leftmost_skip {A} (f : jsstring -> option A) (pre s : jsstring) :
  (forall pre1 pre2 c, pre = pre1 ++ c :: pre2 -> f (c :: pre2 ++ s) = None) ->
  leftmost f (pre ++ s) = leftmost f s.
Proof.
  induction pre as [|c pre IH]; intros H; [reflexivity|].
  cbn [app leftmost]. rewrite (H [] pre c eq_refl).
  apply IH. intros pre1 pre2 c' ->. now apply (H (c :: pre1) pre2 c').
Qed.

Lemma lang_lit_inv (s m : jsstring) : lang (lit s) m -> m = s.
Proof.
  revert m. induction s as [|c s IH]; intros m H; cbn [lit] in H.
  - now apply lang_Eps_inv.
  - apply lang_Seq_inv in H as (m1 & m2 & -> & H1 & H2).
    apply lang_Class_inv in H1 as (c' & -> & Hc).
    apply N.eqb_eq in Hc. subst c'. cbn [app]. f_equal. now apply IH.
Qed.

(** The hand-written matcher of the document pattern and the pattern agree
    on where a match starts. *)
Lemma matchFileAt_lang (s id : jsstring) :
  matchFileAt s = Some id ->
  exists m post, s = m ++ post /\ lang filePattern m.
Proof.
  unfold matchFileAt. intros H.
  destruct (stripPrefix (js "figma.com/") s) as [r|] eqn:E0; [|discriminate].
  apply stripPrefix_Some in E0 as ->.
  assert (Hk : exists k r' run r'',
             (k = js "file" \/ k = js "design") /\ r = k ++ r' /\
             r' = js "/" ++ run ++ r'' /\ run <> [] /\
             Forall (fun c => isAlnum c = true) run).
  { destruct (stripPrefix (js "file") r) as [r1|] eqn:E1.
    - destruct (stripPrefix (js "/") r1) as [r2|] eqn:E2.
      + destruct (greedyRun isAlnum r2) as [run|] eqn:E3.
        * apply stripPrefix_Some in E1 as ->. apply stripPrefix_Some in E2 as ->.
          apply greedyRun_Some in E3 as (Hne & HF & r'' & ->).
          exists (js "file"), (js "/" ++ run ++ r''), run, r''. auto.
        * apply stripPrefix_Some in E1 as ->. discriminate.
      + apply stripPrefix_Some in E1 as ->. discriminate.
    - destruct (stripPrefix (js "design") r) as [r1|] eqn:E1'; [|discriminate].
      destruct (stripPrefix (js "/") r1) as [r2|] eqn:E2; [|discriminate].
      destruct (greedyRun isAlnum r2) as [run|] eqn:E3; [|discriminate].
      apply stripPrefix_Some in E1' as ->. apply stripPrefix_Some in E2 as ->.
      apply greedyRun_Some in E3 as (Hne & HF & r'' & ->).
      exists (js "design"), (js "/" ++ run ++ r''), run, r''. auto. }
  destruct Hk as (k & r' & run & r'' & Hk & -> & -> & Hne & HF).
  exists (js "figma.com/" ++ k ++ js "/" ++ run), r''. split.
  - now rewrite <- !app_assoc.
  - unfold filePattern. cbn [seqs].
    constructor; [apply lang_lit|].
    constructor.
    { destruct Hk as [->| ->];
        [apply lang_alt_l|apply lang_alt_r]; apply lang_lit. }
    constructor; [constructor; reflexivity|].
    destruct run as [|c run]; [congruence|]. inversion HF; subst.
    change (c :: run) with ([c] ++ run).
    constructor; [now constructor|now apply lang_Star_Class].
Qed.

Lemma lang_matchFileAt (m post : jsstring) :
  lang filePattern m -> exists id, matchFileAt (m ++ post) = Some id.
Proof.
  unfold filePattern. cbn [seqs]. intros H.
  apply lang_Seq_inv in H as (m1 & m2 & -> & H1 & H).
  apply lang_lit_inv in H1 as ->.
  apply lang_Seq_inv in H as (k & m3 & -> & Hk & H).
  apply lang_Seq_inv in H as (sl & run & -> & Hsl & Hrun).
  apply lang_Class_inv in Hsl as (c & -> & Hc). apply N.eqb_eq in Hc. subst c.
  apply lang_Seq_inv in Hrun as (r1 & r2 & -> & Hr1 & _).
  apply lang_Class_inv in Hr1 as (c & -> & Hc).
  unfold matchFileAt. rewrite <- !app_assoc, stripPrefix_app.
  destruct (greedyRun_head isAlnum c (r2 ++ post) Hc) as [run Hrun].
  assert (Hslash : forall r, stripPrefix (js "/") (47 :: r) = Some r)
    by reflexivity.
  assert (Hother : forall r, stripPrefix (js "file") (js "design" ++ r) = None)
    by reflexivity.
  apply lang_Alt_inv in Hk as [Hk|Hk]; apply lang_lit_inv in Hk as ->.
  - rewrite stripPrefix_app. cbn [app]. rewrite Hslash, Hrun. eauto.
  - rewrite Hother, stripPrefix_app. cbn [app]. rewrite Hslash, Hrun. eauto.
Qed.

(** No match of the document pattern is found exactly when the text
    contains none. *)
Lemma leftmost_matchFileAt_None (t : jsstring) :
  leftmost matchFileAt t = None <-> ~ contains filePattern t.
Proof.
  split.
  - intros H (pre & m & post & -> & Hm).
    destruct (lang_matchFileAt m post Hm) as [id Hid].
    destruct (leftmost_complete matchFileAt pre _ _ Hid) as [y Hy]. congruence.
  - intros H. destruct (leftmost matchFileAt t) as [id|] eqn:E; [|reflexivity].
    exfalso. apply H.
    apply leftmost_Some in E as (pre & s' & -> & Hs').
    apply matchFileAt_lang in Hs' as (m & post & -> & Hm).
    now exists pre, m, post.
Qed.

End FigmaParsing.

Section FigmaUrls.

Local Open Scope N_scope.

Lemma leftmost_here {A} (f : jsstring -> option A) (s : jsstring) (x : A) :
  f s = Some x -> leftmost f s = Some x.
Proof. intros H. destruct s; cbn [leftmost]; now rewrite H. Qed.

Lemma leftmost_matchFileAt_skip (pre s : jsstring) :
  Forall (fun c => (102 =? c) = false) pre ->
  leftmost matchFileAt (pre ++ s) = leftmost matchFileAt s.
Proof.
  intros H. apply leftmost_skip. intros pre1 pre2 c ->.
  apply Forall_app in H as [_ H]. inversion H as [|? ? Hc _]; subst.
  unfold matchFileAt.
  change (js "figma.com/") with (102 :: js "igma.com/").
  cbn [stripPrefix]. now rewrite Hc.
Qed.

Lemma forallb_Forall (p : N -> bool) (s : jsstring) :
  Forall (fun c => p c = true) s -> forallb p s = true.
Proof.
  induction 1 as [|c s Hc _ IH]; [reflexivity|].
  cbn [forallb]. now rewrite Hc, IH.
Qed.

(** Before the first occurrence of the parameter name the node pattern
    cannot match. *)
Lemma leftmost_matchNodeAt_first (before rest : jsstring) (sep : N) :
  ~ contains (lit (js "node-id=")) before ->
  isQueryMark sep = true ->
  leftmost matchNodeAt (before ++ sep :: rest)
  = leftmost matchNodeAt (sep :: rest).
Proof.
  intros Hnone Hsep. apply leftmost_skip. intros pre1 pre2 c ->.
  cbn [matchNodeAt]. destruct (isQueryMark c); [|reflexivity].
  destruct (stripPrefix (js "node-id=") (pre2 ++ sep :: rest)) as [r|] eqn:E;
    [|reflexivity].
  exfalso. apply stripPrefix_Some in E.
  apply app_eq_app in E as [l [[H1 H2]|[H1 H2]]].
  - apply Hnone. exists (pre1 ++ [c]), (js "node-id="), l.
    split; [|apply lang_lit]. rewrite H1, <- app_assoc. reflexivity.
  - destruct l as [|x l].
    + rewrite app_nil_r in H1. apply Hnone.
      exists (pre1 ++ [c]), (js "node-id="), [].
      split; [|apply lang_lit]. rewrite <- H1, app_nil_r, <- app_assoc.
      reflexivity.
    + injection H2 as -> _.
      assert (Hin : In x (js "node-id="))
        by (rewrite H1; apply in_or_app; right; left; reflexivity).
      cbn in Hin.
      repeat (destruct Hin as [<-|Hin]; [discriminate|]). exact Hin.
Qed.

(** The reference of a well-formed URL: the document id after the first
    [file] or [design] path segment and the first [node-id] query
    parameter. *)
Lemma parseFigmaUrl_url (prefix kind fid name enc tail node : jsstring)
    (sep : N) :
  let before :=
    prefix ++ js "figma.com/" ++ kind ++ js "/" ++ fid ++ js "/" ++ name in
  let url := before ++ sep :: js "node-id=" ++ enc ++ tail in
  Forall (fun c => isWhiteSpace c = false) url ->
  Forall (fun c => (102 =? c) = false) prefix ->
  kind = js "file" \/ kind = js "design" ->
  fid <> [] -> Forall (fun c => isAlnum c = true) fid ->
  ~ contains (lit (js "node-id=")) before ->
  isQueryMark sep = true ->
  enc <> [] -> Forall (fun c => notAmpersand c = true) enc ->
  match tail with [] => True | x :: _ => x = 38 end ->
  decodeURIComponent enc = Some node ->
  parseFigmaUrl url = Parsed {| fileId := fid; nodeId := Some node |}.
Proof.
  intros before url Hvis Hpre Hkind Hfid Hal Hnone Hsep Henc Hamp Htail Hdec.
  assert (Htrim : trim url = url) by now apply trim_visible.
  assert (Hurl : url = prefix ++ js "figma.com/" ++ kind ++ js "/" ++ fid ++
                       js "/" ++ name ++ sep :: js "node-id=" ++ enc ++ tail).
  { unfold url, before. now rewrite <- !app_assoc. }
  assert (Hbare : isBareIdentifier url = false).
  { unfold isBareIdentifier. rewrite Hurl, forallb_app.
    change (forallb isAlnum (js "figma.com/" ++ ?r)) with false.
    now rewrite andb_false_r, andb_false_r. }
  assert (Hfile : leftmost matchFileAt url = Some fid).
  { rewrite Hurl, leftmost_matchFileAt_skip by exact Hpre.
    apply leftmost_here. unfold matchFileAt. rewrite stripPrefix_app.
    assert (Hrun : greedyRun isAlnum
                     (fid ++ js "/" ++ name ++ sep :: js "node-id=" ++ enc
                      ++ tail)
                   = Some fid)
      by (apply greedyRun_app_stop; [assumption|assumption|reflexivity]).
    destruct Hkind as [-> | ->].
    - rewrite stripPrefix_app, stripPrefix_app, Hrun. reflexivity.
    - change (stripPrefix (js "file") (js "design" ++ ?r)) with (@None jsstring).
      rewrite stripPrefix_app, stripPrefix_app, Hrun. reflexivity. }
  assert (Hnode : leftmost matchNodeAt url = Some enc).
  { unfold url. rewrite leftmost_matchNodeAt_first by assumption.
    apply leftmost_here. cbn [matchNodeAt]. rewrite Hsep, stripPrefix_app.
    apply greedyRun_app_stop; [assumption|assumption|].
    destruct tail; [exact I|now subst]. }
  unfold parseFigmaUrl. cbv zeta.
  now rewrite Htrim, Hbare, Hfile, Hnode, Hdec.
Qed.

Lemma parseFigmaUrl_bare (id : jsstring) :
  id <> [] -> Forall (fun c => isAlnum c = true) id ->
  parseFigmaUrl id = Parsed {| fileId := id; nodeId := None |}.
Proof.
  intros Hne Hal. unfold parseFigmaUrl. cbv zeta.
  rewrite trim_visible
    by (eapply List.Forall_impl; [|exact Hal]; apply alnum_not_space).
  unfold isBareIdentifier. rewrite forallb_Forall by exact Hal.
  destruct id; [congruence|reflexivity].
Qed.

Lemma parseFigmaUrl_invalid (s : jsstring) :
  isBareIdentifier (trim s) = false ->
  ~ contains filePattern (trim s) ->
  parseFigmaUrl s = ThrowError (js "Invalid Figma URL format: " ++ s).
Proof.
  intros Hbare Hnone. unfold parseFigmaUrl. cbv zeta. rewrite Hbare.
  apply leftmost_matchFileAt_None in Hnone. now rewrite Hnone.
Qed.

End FigmaUrls.

(** ** Paths *)

Section Paths.

Local Open Scope N_scope.

Lemma takeWhile_dropWhile (p : N -> bool) (s : jsstring) :
  takeWhile p s ++ dropWhile p s = s.
Proof.
  induction s as [|c s IH]; [reflexivity|].
  cbn [takeWhile dropWhile]. destruct (p c); [|reflexivity].
  cbn [app]. now rewrite IH.
Qed.

Lemma takeWhile_Forall (p : N -> bool) (s : jsstring) :
  Forall (fun c => p c = true) (takeWhile p s).
Proof. apply takeWhile_split. Qed.

Lemma dropWhile_head (p : N -> bool) (s : jsstring) :
  match dropWhile p s with [] => True | c :: _ => p c = false end.
Proof.
  induction s as [|c s IH]; [exact I|].
  cbn [dropWhile]. destruct (p c) eqn:E; [exact IH|exact E].
Qed.

Lemma splitPath_nonempty (s : jsstring) : splitPath s <> [].
Proof.
  destruct s as [|c s]; [discriminate|]. cbn [splitPath].
  destruct (c =? slash); [discriminate|].
  destruct (splitPath s); discriminate.
Qed.

Lemma splitPath_no_slash (s : jsstring) :
  Forall (fun c => (c =? slash) = false) s -> splitPath s = [s].
Proof.
  induction 1 as [|c s Hc _ IH]; [reflexivity|].
  cbn [splitPath]. now rewrite Hc, IH.
Qed.

Lemma splitPath_app_slash (a b : jsstring) :
  splitPath (a ++ slash :: b) = splitPath a ++ splitPath b.
Proof.
  induction a as [|c a IH]; [reflexivity|].
  cbn [app splitPath]. rewrite IH.
  destruct (c =? slash); [reflexivity|].
  pose proof (splitPath_nonempty a).
  destruct (splitPath a); [congruence|reflexivity].
Qed.

Lemma splitPath_slashes (sl : jsstring) :
  Forall (fun c => (c =? slash) = true) sl ->
  Forall (fun seg => seg = []) (splitPath sl).
Proof.
  induction 1 as [|c sl Hc _ IH]; [repeat constructor|].
  cbn [splitPath]. rewrite Hc. now constructor.
Qed.

Lemma splitPath_component_slashes (base sl : jsstring) :
  Forall (fun c => (c =? slash) = false) base ->
  Forall (fun c => (c =? slash) = true) sl ->
  exists trailing,
    splitPath (base ++ sl) = [base] ++ trailing /\
    Forall (fun seg => seg = []) trailing.
Proof.
  intros Hbase Hsl. destruct Hsl as [|c sl Hc Hsl].
  - exists []. rewrite app_nil_r. split; [now apply splitPath_no_slash|constructor].
  - apply N.eqb_eq in Hc. subst c. rewrite splitPath_app_slash.
    rewrite splitPath_no_slash by exact Hbase.
    exists (splitPath sl). split; [reflexivity|now apply splitPath_slashes].
Qed.

(** The segments of a name: some segments, its last component, and the
    empty segments of the trailing separators. *)
Lemma splitPath_lastComponent (name : jsstring) :
  exists segs trailing,
    splitPath name = segs ++ [lastComponent name] ++ trailing /\
    Forall (fun seg => seg = []) trailing.
Proof.
  unfold lastComponent.
  set (r := rev name).
  set (r1 := dropWhile (N.eqb slash) r).
  set (rbase := takeWhile (fun c => negb (c =? slash)) r1).
  set (r2 := dropWhile (fun c => negb (c =? slash)) r1).
  assert (Hname : name = rev r2 ++ rev rbase ++ rev (takeWhile (N.eqb slash) r)).
  { rewrite <- !rev_app_distr, <- app_assoc. unfold rbase, r2, r1.
    rewrite !takeWhile_dropWhile. unfold r. now rewrite rev_involutive. }
  assert (Hsl : Forall (fun c => (c =? slash) = true)
                  (rev (takeWhile (N.eqb slash) r))).
  { apply Forall_rev. eapply List.Forall_impl; [|apply takeWhile_Forall].
    intros c Hc. cbv beta in Hc. now rewrite N.eqb_sym. }
  assert (Hbase : Forall (fun c => (c =? slash) = false) (rev rbase)).
  { apply Forall_rev. eapply List.Forall_impl; [|apply takeWhile_Forall].
    intros c Hc. cbv beta in Hc. now apply negb_true_iff in Hc. }
  destruct (splitPath_component_slashes _ _ Hbase Hsl)
    as (trailing & Hsplit & Htr).
  pose proof (dropWhile_head (fun c => negb (c =? slash)) r1) as Hhead.
  fold r2 in Hhead.
  assert (Hgoal : exists segs,
             splitPath (rev r2 ++ rev rbase ++
                        rev (takeWhile (N.eqb slash) r))
             = segs ++ [rev rbase] ++ trailing).
  { destruct r2 as [|c r2'].
    - exists []. exact Hsplit.
    - apply negb_false_iff, N.eqb_eq in Hhead. subst c.
      exists (splitPath (rev r2')).
      cbn [rev]. rewrite <- app_assoc. cbn [app].
      rewrite splitPath_app_slash, Hsplit. reflexivity. }
  destruct Hgoal as [segs Hsegs]. rewrite <- Hname in Hsegs.
  now exists segs, trailing.
Qed.

Definition ordinary (seg : jsstring) : Prop :=
  seg <> [] /\ seg <> js "." /\ seg <> js "..".

Lemma pushSegment_ordinary (p : path) (seg : jsstring) :
  ordinary seg -> pushSegment p seg = p ++ [seg].
Proof.
  intros (H1 & H2 & H3). unfold pushSegment.
  repeat (destruct (decide _); [congruence|]). reflexivity.
Qed.

Lemma fold_pushSegment_empty (trailing : list jsstring) (p : path) :
  Forall (fun seg => seg = []) trailing ->
  fold_left pushSegment trailing p = p.
Proof.
  induction 1 as [|seg trailing -> _ IH]; [reflexivity|]. exact IH.
Qed.

(** A name whose last component is ordinary is joined below some
    directory. *)
Lemma join_lastComponent (dir : path) (name : jsstring) :
  ordinary (lastComponent name) ->
  exists parent, segments (join dir name) = parent ++ [lastComponent name].
Proof.
  intros Hord. unfold join. cbn [segments].
  destruct (splitPath_lastComponent name) as (segs & trailing & -> & Htr).
  rewrite !fold_left_app. cbn [fold_left].
  rewrite fold_pushSegment_empty by exact Htr.
  rewrite pushSegment_ordinary by exact Hord. eauto.
Qed.

Lemma endsWithSeparator_plain (name : jsstring) :
  Forall (fun c => (c =? slash) = false) name -> endsWithSeparator name = false.
Proof.
  intros H. unfold endsWithSeparator. apply Forall_rev in H.
  destruct (rev name) as [|c r]; [reflexivity|].
  now inversion H.
Qed.

(** A name without separator is joined as one further segment, and the
    result ends with no separator. *)
Lemma join_simple (dir : path) (name : jsstring) :
  Forall (fun c => (c =? slash) = false) name -> ordinary name ->
  join dir name = {| segments := dir ++ [name]; trailingSeparator := false |}.
Proof.
  intros Hns Hord. unfold join. rewrite splitPath_no_slash by exact Hns.
  rewrite (endsWithSeparator_plain name Hns).
  cbn [fold_left]. now rewrite pushSegment_ordinary.
Qed.

Lemma segments_join_simple (dir : path) (name : jsstring) :
  Forall (fun c => (c =? slash) = false) name -> ordinary name ->
  segments (join dir name) = dir ++ [name].
Proof. intros Hns Hord. now rewrite join_simple. Qed.

Lemma lastComponent_no_slash (name : jsstring) :
  Forall (fun c => (c =? slash) = false) (lastComponent name).
Proof.
  unfold lastComponent. apply Forall_rev.
  eapply List.Forall_impl; [|apply takeWhile_Forall].
  intros c Hc. cbv beta in Hc. now apply negb_true_iff in Hc.
Qed.

End Paths.

Section Destinations.

Local Open Scope N_scope.

Lemma skipn_takeWhile (p : N -> bool) (s : jsstring) :
  skipn (length (takeWhile p s)) s = dropWhile p s.
Proof.
  induction s as [|c s IH]; [reflexivity|].
  cbn [takeWhile dropWhile]. destruct (p c); [exact IH|reflexivity].
Qed.

(** After the coercion of the extension the last component of the file name
    is an ordinary segment that holds a dot. *)
Lemma coerced_lastComponent (name : jsstring) :
  ordinary (lastComponent (coerceExtension name)) /\
  In dot_char (lastComponent (coerceExtension name)).
Proof.
  unfold coerceExtension. cbv zeta.
  destruct (bool_decide (toLowerCase (extname name) <> js ".tsx") &&
            bool_decide (toLowerCase (extname name) <> js ".jsx")) eqn:E.
  - unfold lastComponent. rewrite rev_app_distr.
    change (rev (js ".tsx")) with [120; 115; 116; 46].
    cbn [app dropWhile]. change (slash =? 120) with false. cbv iota.
    cbn [takeWhile].
    change (negb (120 =? slash)) with true.
    change (negb (115 =? slash)) with true.
    change (negb (116 =? slash)) with true.
    change (negb (46 =? slash)) with true. cbv iota.
    set (t := takeWhile _ (rev name)).
    change (120 :: 115 :: 116 :: 46 :: t) with ([120; 115; 116; 46] ++ t).
    rewrite rev_app_distr. cbn [rev app].
    split.
    + repeat split; intros H; apply (f_equal (@length N)) in H;
        rewrite length_app in H; cbn in H; lia.
    + apply in_or_app. right. left. reflexivity.
  - assert (Hext : extname name <> []).
    { intros H. rewrite H in E. discriminate. }
    unfold extname in Hext. cbv zeta in Hext. unfold lastComponent.
    set (rbase := takeWhile (fun c => negb (c =? slash))
                    (dropWhile (N.eqb slash) (rev name))) in *.
    set (rext := takeWhile (fun c => negb (c =? dot_char)) rbase) in *.
    pose proof (firstn_skipn (length rext) rbase) as Hsplit.
    pose proof (dropWhile_head (fun c => negb (c =? dot_char)) rbase) as Hhead.
    unfold rext in Hext, Hsplit. rewrite skipn_takeWhile in Hext, Hsplit.
    destruct (dropWhile (fun c => negb (c =? dot_char)) rbase)
      as [|a [|b rest]] eqn:Ed; try congruence.
    destruct (decide (rbase = js "..")) as [Hdd|Hdd]; [congruence|].
    apply negb_false_iff, N.eqb_eq in Hhead. subst a.
    assert (Hlen : (2 <= length rbase)%nat).
    { rewrite <- Hsplit, length_app. cbn [length]. lia. }
    split.
    + repeat split; intros H.
      * apply (f_equal (@length N)) in H. rewrite length_rev in H.
        cbn in H. lia.
      * apply (f_equal (@length N)) in H. rewrite length_rev in H.
        cbn in H. lia.
      * apply (f_equal (@rev N)) in H. rewrite rev_involutive in H.
        apply Hdd. exact H.
    + apply in_rev. rewrite rev_involutive. rewrite <- Hsplit.
      apply in_or_app. right. left. reflexivity.
Qed.

(** The destination is a file name below some directory. *)
Lemma filePathOf_last (ws : path) (options : WriteOptions) :
  exists parent,
    filePathOf ws options
    = parent ++ [lastComponent (coerceExtension (fileName options))].
Proof.
  unfold filePathOf, destinationOf.
  apply join_lastComponent, coerced_lastComponent.
Qed.

Lemma basename_filePathOf (ws : path) (options : WriteOptions) :
  basename (filePathOf ws options)
  = lastComponent (coerceExtension (fileName options)).
Proof.
  destruct (filePathOf_last ws options) as [parent ->].
  unfold basename. apply last_last.
Qed.

Lemma targetDirOf_eq (ws : path) (options : WriteOptions) :
  targetDirOf ws options = ws ++ [targetFolderOf options].
Proof.
  unfold targetDirOf. apply segments_join_simple.
  - unfold targetFolderOf. destruct (targetFolder options) as [[]|];
      repeat constructor.
  - unfold targetFolderOf. destruct (targetFolder options) as [[]|];
      repeat split; discriminate.
Qed.

(** The destination is never the target directory itself. *)
Lemma filePathOf_not_targetDir (ws : path) (options : WriteOptions) :
  filePathOf ws options <> targetDirOf ws options.
Proof.
  destruct (filePathOf_last ws options) as [parent Hfp].
  rewrite Hfp, targetDirOf_eq. intros H.
  apply app_inj_tail in H as [_ H].
  pose proof (proj2 (coerced_lastComponent (fileName options))) as Hdot.
  rewrite H in Hdot. unfold targetFolderOf in Hdot.
  destruct (targetFolder options) as [[]|]; cbn in Hdot;
    repeat (destruct Hdot as [Hdot|Hdot]; [discriminate|]); exact Hdot.
Qed.

Lemma digits_no_slash (d : Decimal.uint) :
  Forall (fun c => (c =? slash) = false) (digits d).
Proof. induction d; cbn [digits]; constructor; auto. Qed.

(** The scratch file of [showDiffPreview] is never the destination: its name
    is longer than the name of the destination. *)
Lemma tempUri_not_filePath (ws : path) (options : WriteOptions) (now : N) :
  segments
    (join (tempDirOf ws)
       (tempName (js "temp-") now (basename (filePathOf ws options))))
  <> filePathOf ws options.
Proof.
  rewrite basename_filePathOf.
  set (base := lastComponent (coerceExtension (fileName options))).
  destruct (filePathOf_last ws options) as [parent Hfp]. fold base in Hfp.
  rewrite Hfp, segments_join_simple.
  - intros H. apply app_inj_tail in H as [_ H].
    apply (f_equal (@length N)) in H. unfold tempName in H.
    rewrite !length_app in H. cbn in H. lia.
  - unfold tempName. repeat (apply Forall_app; split);
      [repeat constructor|apply digits_no_slash|repeat constructor|
       apply lastComponent_no_slash].
  - unfold tempName. repeat split; discriminate.
Qed.

End Destinations.

(** ** The file system: what an operation leaves untouched *)

Section FileSystem.

Implicit Types (fs : gmap path node) (p q base : path).

Lemma mkdirFrom_frame fs base (segs : list jsstring) fs' :
  mkdirFrom fs base segs = Some fs' ->
  forall q n, fs !! q = Some n -> fs' !! q = Some n.
Proof.
  revert fs base. induction segs as [|seg rest IH]; intros fs base H q n Hq;
    cbn [mkdirFrom] in H.
  - now injection H as <-.
  - destruct (fs !! (base ++ [seg])) as [[c|]|] eqn:E; [discriminate| |].
    + eapply IH; eassumption.
    + eapply IH; [exact H|].
      rewrite lookup_insert_ne; [exact Hq|]. intros Heq. subst q. congruence.
Qed.

Lemma mkdirFrom_dirs fs base (segs rest : list jsstring) :
  dirsFrom fs base segs = true ->
  mkdirFrom fs base (segs ++ rest) = mkdirFrom fs (base ++ segs) rest.
Proof.
  revert base. induction segs as [|seg segs IH]; intros base H.
  - now rewrite app_nil_r.
  - cbn [dirsFrom] in H. cbn [app mkdirFrom].
    destruct (fs !! (base ++ [seg])) as [[c|]|]; try discriminate.
    rewrite (IH _ H), <- app_assoc. reflexivity.
Qed.

(** Below an existing directory a missing directory is created in one
    step. *)
Lemma mkdirSync_child fs p (name : jsstring) :
  isDirectory fs p = true -> fs !! (p ++ [name]) = None ->
  mkdirSync fs (p ++ [name]) = Some (<[p ++ [name] := Dir]> fs).
Proof.
  intros Hdir Hnone. unfold mkdirSync.
  etransitivity; [exact (mkdirFrom_dirs fs [] p [name] Hdir)|].
  cbn [app mkdirFrom]. now rewrite Hnone.
Qed.

Lemma writeFile_frame fs p (content : jsstring) fs' :
  writeFile fs p content = Some fs' ->
  forall q n, q <> p -> fs !! q = Some n -> fs' !! q = Some n.
Proof.
  unfold writeFile. intros H q n Hne Hq.
  assert (Hm : exists fs1, mkdirSync fs (removelast p) = Some fs1 /\
                           fs' = <[p := File content]> fs1).
  { destruct (fs !! p) as [[c|]|];
      try discriminate;
      (destruct (mkdirSync fs (removelast p)) as [fs1|];
       [injection H as <-; eauto|discriminate]). }
  destruct Hm as (fs1 & Hm & ->).
  rewrite lookup_insert_ne by congruence.
  eapply mkdirFrom_frame; eassumption.
Qed.

Lemma writeFileAt_Some fs (s : pathString) (content : jsstring) fs' :
  writeFileAt fs s content = Some fs' ->
  trailingSeparator s = false /\ writeFile fs (segments s) content = Some fs'.
Proof.
  unfold writeFileAt. destruct (trailingSeparator s); [discriminate|].
  now split.
Qed.

Lemma writeFileAt_frame fs (s : pathString) (content : jsstring) fs' :
  writeFileAt fs s content = Some fs' ->
  forall q n, q <> segments s -> fs !! q = Some n -> fs' !! q = Some n.
Proof.
  intros H. apply writeFileAt_Some in H as [_ H].
  now apply (writeFile_frame _ _ _ _ H).
Qed.

Lemma deleteQuietly_frame fs p q :
  q <> p -> deleteQuietly fs p !! q = fs !! q.
Proof.
  intros Hne. unfold deleteQuietly.
  destruct (fs !! p) as [[c|]|]; [|destruct (existsb _ _)|];
    try reflexivity; now apply lookup_delete_ne.
Qed.

Lemma cleanupBody_frame fs p q :
  q <> p -> cleanupBody fs p !! q = fs !! q.
Proof.
  intros Hne. unfold cleanupBody.
  destruct (existsSync fs p); [now apply deleteQuietly_frame|reflexivity].
Qed.

Lemma runCleanup_frame (w : World) q :
  Forall (fun t => t <> q) (timers w) ->
  files (runCleanup w) !! q = files w !! q.
Proof.
  unfold runCleanup. cbn [files].
  generalize (files w). induction (timers w) as [|t ts IH]; intros fs H;
    [reflexivity|].
  inversion H; subst. cbn [fold_left]. rewrite IH by assumption.
  apply cleanupBody_frame. congruence.
Qed.

Lemma ensureTempDir_frame fs (ws : path) fs' :
  ensureTempDir fs ws = Some fs' ->
  forall q n, fs !! q = Some n -> fs' !! q = Some n.
Proof.
  unfold ensureTempDir. destruct (existsSync fs (tempDirOf ws)).
  - now intros [= <-].
  - apply mkdirFrom_frame.
Qed.

(** [showDiffPreview] touches no existing entry but its scratch file, and
    schedules no other path for deletion. *)
Lemma showDiffPreview_frame (env : Env) (w : World) (fileUri ws : path)
    (existingContent newContent : jsstring) :
  workspaceFolder env = Some ws ->
  let tempUri :=
    segments
      (join (tempDirOf ws)
         (tempName (js "temp-") (now1 env) (basename fileUri))) in
  let w' := showDiffPreview env w fileUri existingContent newContent in
  (forall q n, q <> tempUri -> files w !! q = Some n ->
               files w' !! q = Some n) /\
  (exists added, timers w' = timers w ++ added /\
                 Forall (fun t => t = tempUri) added).
Proof.
  intros Hws. cbv zeta. unfold showDiffPreview. rewrite Hws.
  set (tempUri := join (tempDirOf ws) _).
  destruct (ensureTempDir (files w) ws) as [fs1|] eqn:E1.
  - destruct (writeFileAt fs1 tempUri newContent) as [fs2|] eqn:E2;
      cbn [files timers withFiles log scheduleTempFileCleanup].
    + split.
      * intros q n Hne Hq. eapply writeFileAt_frame; [exact E2|exact Hne|].
        eapply ensureTempDir_frame; eassumption.
      * exists [segments tempUri]. split; [reflexivity|]. now constructor.
    + split.
      * intros q n _ Hq. eapply ensureTempDir_frame; eassumption.
      * exists []. rewrite app_nil_r. now split.
  - cbn [files timers log]. split; [auto|].
    exists []. rewrite app_nil_r. now split.
Qed.

(** The first step of [writeJSXCode]: below an existing workspace folder the
    target directory is found or created. *)
Lemma ensure_targetDir (w : World) (ws : path) (options : WriteOptions) :
  isDirectory (files w) ws = true ->
  (if existsSync (files w) (targetDirOf ws options) then Some (files w)
   else mkdirSync (files w) (targetDirOf ws options))
  = Some (if existsSync (files w) (targetDirOf ws options) then files w
          else <[targetDirOf ws options := Dir]> (files w)).
Proof.
  intros Hdir. unfold existsSync.
  destruct (files w !! targetDirOf ws options) eqn:E; [reflexivity|].
  rewrite targetDirOf_eq in *. now apply mkdirSync_child.
Qed.

End FileSystem.

(** ** Further lemmas *)

(** ** Scales without repeated values *)

Lemma strictlyAscendingb_ascendingb (scale : list Q) :
  strictlyAscendingb scale = true -> ascendingb scale = true.
Proof.
  induction scale as [|x [|y rest] IH]; try reflexivity.
  cbn [strictlyAscendingb ascendingb]. intros H.
  apply andb_true_iff in H as [Hxy Hrest]. apply Qltb_lt in Hxy.
  apply andb_true_iff. split; [|exact (IH Hrest)].
  apply Qle_bool_iff. lra.
Qed.

Lemma strictlyAscendingb_tail (x : Q) (rest : list Q) :
  strictlyAscendingb (x :: rest) = true -> strictlyAscendingb rest = true.
Proof.
  destruct rest as [|y rest]; [reflexivity|].
  cbn [strictlyAscendingb]. intros H. now apply andb_true_iff in H as [_ H].
Qed.

Lemma strictlyAscendingb_head (x : Q) (rest : list Q) :
  strictlyAscendingb (x :: rest) = true -> forall y, In y rest -> x < y.
Proof.
  revert x. induction rest as [|z rest IH]; intros x H y Hy; [destruct Hy|].
  cbn [strictlyAscendingb] in H. apply andb_true_iff in H as [Hxz Hrest].
  apply Qltb_lt in Hxz. destruct Hy as [->|Hy]; [exact Hxz|].
  specialize (IH z Hrest y Hy). lra.
Qed.

Lemma strictlyAscendingb_nth (scale : list Q) :
  strictlyAscendingb scale = true ->
  forall (i j : nat) (x y : Q),
    (i < j)%nat -> nth_error scale i = Some x -> nth_error scale j = Some y ->
    x < y.
Proof.
  induction scale as [|a scale IH]; intros Hasc i j x y Hij Hi Hj.
  - destruct i; discriminate.
  - destruct i as [|i], j as [|j]; cbn in Hi, Hj; try lia.
    + injection Hi as <-. eapply strictlyAscendingb_head; [exact Hasc|].
      eapply nth_error_In, Hj.
    + eapply (IH (strictlyAscendingb_tail _ _ Hasc) i j);
        [lia|eassumption..].
Qed.

Lemma strictlyAscendingb_lookup (scale : list Q) :
  strictlyAscendingb scale = true ->
  forall (i j : Z) (x y : Q),
    (i < j)%Z -> lookupZ scale i = Some x -> lookupZ scale j = Some y ->
    x < y.
Proof.
  intros Hasc i j x y Hij Hi Hj.
  apply lookupZ_Some in Hi as [Hi1 Hi2]. apply lookupZ_Some in Hj as [Hj1 Hj2].
  eapply (strictlyAscendingb_nth scale Hasc (Z.to_nat i) (Z.to_nat j));
    [lia|eassumption..].
Qed.

(** In exact arithmetic the search is monotone over a scale whose entries
    strictly increase. *)
Lemma findClosestIndex_ordered (scale : list Q) (v v' : Q) :
  strictlyAscendingb scale = true -> v < v' ->
  (findClosestIndex v scale <= findClosestIndex v' scale)%Z.
Proof.
  intros Hstrict Hlt.
  destruct scale as [|s0 rest] eqn:Escale; [cbn; lia|]. rewrite <- Escale in *.
  assert (Hne : scale <> []) by (rewrite Escale; discriminate).
  pose proof (strictlyAscendingb_ascendingb _ Hstrict) as Hasc.
  destruct (findClosestIndex_minimal v scale Hasc Hne) as (x & Hx & Hmin).
  destruct (findClosestIndex_minimal v' scale Hasc Hne) as (x' & Hx' & Hmin').
  destruct (Z.le_gt_cases (findClosestIndex v scale)
              (findClosestIndex v' scale)) as [Hle|Hgt]; [exact Hle|].
  exfalso.
  assert (Hxx : x' < x).
  { eapply (strictlyAscendingb_lookup scale Hstrict); [|exact Hx'|exact Hx].
    lia. }
  specialize (Hmin x' (lookupZ_In _ _ _ Hx')).
  specialize (Hmin' x (lookupZ_In _ _ _ Hx)).
  clear - Hlt Hxx Hmin Hmin'. revert Hmin Hmin'. qabs; lra.
Qed.

(** An entry of the scale is its own nearest entry. *)
Lemma findClosestIndex_entry (scale : list Q) (x : Q) :
  ascendingb scale = true -> In x scale ->
  exists c, lookupZ scale (findClosestIndex x scale) = Some c /\ c == x.
Proof.
  intros Hasc Hin.
  assert (Hne : scale <> []) by (intros ->; destruct Hin).
  destruct (findClosestIndex_minimal x scale Hasc Hne) as (c & Hc & Hmin).
  exists c. split; [exact Hc|].
  specialize (Hmin x Hin). revert Hmin. qabs; lra.
Qed.

Lemma closer_take {I} (value : Q) (i : I) (x : Q) (best : I * Q) :
  Qabs (x - value) < snd best ->
  closer value i x best = (i, Qabs (x - value)).
Proof.
  intros H. unfold closer.
  destruct (Qltb (Qabs (x - value)) (snd best)) eqn:E; [reflexivity|].
  apply Qltb_ge in E. lra.
Qed.

(** Runs a linear scan over a scale of literals, from the first entry on,
    when the comparisons are settled by the bounds in the context. *)
Ltac scan_entries px :=
  repeat first
    [ rewrite (closer_take px _ _ (_, _)) by (cbn [snd]; qabs; lra)
    | rewrite (closer_keep px _ _ (_, _)) by (cbn [snd]; qabs; lra) ].

(** ** Responsive classes *)

Section ResponsiveClassLemmas.

Local Open Scope N_scope.

Lemma joinWith_cons (sep x y : jsstring) (rest : list jsstring) :
  joinWith sep (x :: y :: rest) = x ++ sep ++ joinWith sep (y :: rest).
Proof. reflexivity. Qed.

Lemma joinWith_head (sep x : jsstring) (rest : list jsstring) :
  exists b, joinWith sep (x :: rest) = x ++ b.
Proof.
  destruct rest as [|y rest].
  - exists []. cbn. now rewrite app_nil_r.
  - exists (sep ++ joinWith sep (y :: rest)). reflexivity.
Qed.

Lemma createResponsiveClasses_variants (baseClass : jsstring)
    (breakpointValues : Breakpoint -> option jsstring) :
  createResponsiveClasses baseClass breakpointValues
  = joinWith (js " ") (baseClass :: variants breakpointValues order).
Proof.
  unfold createResponsiveClasses. f_equal.
  change (baseClass :: variants breakpointValues order)
    with ([baseClass] ++ variants breakpointValues order).
  generalize [baseClass]. generalize order.
  induction l as [|bp bps IH]; intros acc; cbn [fold_left variants flat_map].
  - now rewrite app_nil_r.
  - rewrite IH. unfold variants.
    destruct (breakpointValues bp) as [v|]; [|reflexivity].
    destruct (isEmpty v); [reflexivity|].
    now rewrite <- app_assoc.
Qed.

(** With a variation that is not empty, the first of them comes right
    after the base class. *)
Lemma variants_first (breakpointValues : Breakpoint -> option jsstring)
    (bps : list Breakpoint) (bp : Breakpoint) (v : jsstring) :
  In bp bps -> breakpointValues bp = Some v -> v <> [] ->
  exists bp1 v1 rest,
    v1 <> [] /\
    variants breakpointValues bps = withBreakpoint bp1 v1 :: rest.
Proof.
  induction bps as [|b bps IH]; intros Hin Hv Hne; [destruct Hin|].
  cbn [variants flat_map].
  destruct (breakpointValues b) as [vb|] eqn:Eb.
  - destruct vb as [|c vb].
    + cbn [isEmpty app]. destruct Hin as [->|Hin]; [congruence|].
      exact (IH Hin Hv Hne).
    + cbn [isEmpty app]. exists b, (c :: vb). eexists. split; [discriminate|].
      reflexivity.
  - cbn [app]. destruct Hin as [->|Hin]; [congruence|].
    exact (IH Hin Hv Hne).
Qed.

Lemma order_complete (bp : Breakpoint) : In bp order.
Proof. destruct bp; cbn; auto 6. Qed.

(** A test of the gate that fails makes the validator throw. *)
Lemma first_failing_In tests (check : jsstring -> bool) (m t : jsstring) :
  In (check, m) tests -> check t = true ->
  exists m', first_failing tests t = Some m'.
Proof.
  induction tests as [|[c mc] tests IH]; intros Hin Hc; [destruct Hin|].
  cbn [first_failing]. destruct (c t) eqn:E; [eauto|].
  destruct Hin as [Heq|Hin]; [|exact (IH Hin Hc)].
  injection Heq as -> ->. congruence.
Qed.

Lemma className_test_throws (jsxCode : jsstring) :
  contains cssInClassNamePattern (trim jsxCode) ->
  exists m, validateJSXOutput jsxCode = Throw m.
Proof.
  intros H. apply test_contains in H.
  rewrite validateJSXOutput_first_failing.
  destruct (first_failing_In gate_tests (test cssInClassNamePattern)
              MSG_CSS_IN_CLASSNAME (trim jsxCode)) as [m Hm];
    [cbn; auto 10|exact H|].
  rewrite Hm. eauto.
Qed.

End ResponsiveClassLemmas.

(** ** Trimming, continued *)

Section TrimLemmas.

Local Open Scope N_scope.

Lemma trimStart_visible (x : N) (s : jsstring) :
  isWhiteSpace x = false -> trimStart (x :: s) = x :: s.
Proof. intros H. cbn [trimStart]. now rewrite H. Qed.

Lemma trimStart_head (s : jsstring) :
  match trimStart s with
  | [] => True
  | x :: _ => isWhiteSpace x = false
  end.
Proof.
  induction s as [|c s IH]; [exact I|].
  cbn [trimStart]. destruct (isWhiteSpace c) eqn:E; [exact IH|exact E].
Qed.

Lemma trimStart_idem (s : jsstring) : trimStart (trimStart s) = trimStart s.
Proof.
  pose proof (trimStart_head s) as H.
  destruct (trimStart s) as [|x r]; [reflexivity|].
  now apply trimStart_visible.
Qed.

Lemma trimStart_spaces (a b : jsstring) :
  forallb isWhiteSpace a = true -> trimStart (a ++ b) = trimStart b.
Proof.
  induction a as [|c a IH]; [reflexivity|].
  cbn [forallb app trimStart]. intros H.
  apply andb_true_iff in H as [Hc Ha]. rewrite Hc. exact (IH Ha).
Qed.

Lemma trimStart_app (a b : jsstring) :
  forallb isWhiteSpace a = false -> trimStart (a ++ b) = trimStart a ++ b.
Proof.
  induction a as [|c a IH]; [discriminate|].
  cbn [forallb app trimStart]. destruct (isWhiteSpace c); [|reflexivity].
  exact IH.
Qed.

Lemma trimStart_all_spaces (a : jsstring) :
  forallb isWhiteSpace a = true -> trimStart a = [].
Proof.
  intros H. rewrite <- (app_nil_r a). now rewrite trimStart_spaces.
Qed.

Lemma trimEnd_idem (s : jsstring) : trimEnd (trimEnd s) = trimEnd s.
Proof. unfold trimEnd. now rewrite rev_involutive, trimStart_idem. Qed.

(** Trimming at the end keeps a first code unit that is visible. *)
Lemma trimEnd_head (x : N) (s : jsstring) :
  isWhiteSpace x = false -> exists r, trimEnd (x :: s) = x :: r.
Proof.
  intros Hx.
  destruct (trimEnd_keeps [] s x Hx) as [post' H].
  revert H. unfold trimEnd. cbn [app rev].
  generalize (rev s). intros t H.
  destruct (trimStart_keeps t [] x Hx) as [pre' Hpre].
  rewrite Hpre. rewrite rev_app_distr. cbn [rev app]. eauto.
Qed.

Lemma trim_idem (s : jsstring) : trim (trim s) = trim s.
Proof.
  unfold trim. pose proof (trimStart_head s) as H.
  destruct (trimStart s) as [|x r] eqn:E.
  - reflexivity.
  - destruct (trimEnd_head x r H) as [r' Hr]. rewrite Hr.
    rewrite (trimStart_visible x r' H). rewrite <- Hr. apply trimEnd_idem.
Qed.

Lemma trim_trimStart (s : jsstring) : trim (trimStart s) = trim s.
Proof. unfold trim. now rewrite trimStart_idem. Qed.

(** A trimmed text is empty or ends with a visible code unit. *)
Lemma trim_last (s : jsstring) :
  trim s = [] \/
  exists body y, trim s = body ++ [y] /\ isWhiteSpace y = false.
Proof.
  unfold trim, trimEnd. generalize (trimStart s). intros t.
  pose proof (trimStart_head (rev t)) as H.
  destruct (trimStart (rev t)) as [|y r]; [now left|].
  right. exists (rev r), y. split; [reflexivity|exact H].
Qed.

(** The validator only looks at the trimmed text. *)
Lemma validateJSXOutput_trim (s : jsstring) :
  validateJSXOutput (trim s) = validateJSXOutput s.
Proof. rewrite !validateJSXOutput_first_failing. now rewrite trim_idem. Qed.

End TrimLemmas.

(** ** Code fences *)

Section FenceLemmas.

Local Open Scope N_scope.

Lemma endsWithFence_app (body : jsstring) : endsWithFence (body ++ fence) = true.
Proof.
  unfold endsWithFence. rewrite rev_app_distr.
  change (rev fence) with fence. now rewrite stripPrefix_app.
Qed.

(** The fence followed by white space up to the end: only at the end of a
    text that ends with a visible code unit. *)
Lemma fenceToEnd_visible_end (s body : jsstring) (y : N) :
  s = body ++ [y] -> isWhiteSpace y = false ->
  fenceToEnd s = true -> s = fence.
Proof.
  intros Hs Hy H. unfold fenceToEnd in H.
  destruct (stripPrefix fence s) as [r|] eqn:E; [|discriminate].
  apply stripPrefix_Some in E.
  destruct r as [|c r] using rev_ind; [now rewrite app_nil_r in E|].
  exfalso. clear IHr.
  rewrite forallb_app in H. apply andb_true_iff in H as [_ H].
  cbn in H. rewrite andb_true_r in H.
  rewrite E, app_assoc in Hs. apply app_inj_tail in Hs as [_ ->]. congruence.
Qed.

Lemma fenceToEnd_before_fence (body : jsstring) :
  fenceToEnd (body ++ newline :: fence) = false.
Proof.
  destruct (fenceToEnd (body ++ newline :: fence)) eqn:E; [|reflexivity].
  exfalso.
  apply (fenceToEnd_visible_end _ (body ++ [newline; 96; 96]) 96) in E.
  - apply (f_equal (@length N)) in E. rewrite length_app in E.
    cbn in E. lia.
  - rewrite <- app_assoc. reflexivity.
  - reflexivity.
Qed.

(** The closing pattern finds the fence on the last line, and nothing
    before it. *)
Lemma removeClosingFence_last_line (body : jsstring) :
  removeClosingFence (body ++ newline :: fence) = body.
Proof.
  induction body as [|c body IH]; [reflexivity|].
  cbn [app removeClosingFence].
  assert (H : closingFenceAt (c :: body ++ newline :: fence) = false).
  { unfold closingFenceAt.
    pose proof (fenceToEnd_before_fence (c :: body)) as H2.
    cbn [app] in H2. rewrite H2.
    rewrite (fenceToEnd_before_fence body).
    now destruct (c =? newline). }
  rewrite H. now rewrite IH.
Qed.

(** Without a fence at its end, a text that ends with a visible code unit
    has no match of the closing pattern. *)
Lemma removeClosingFence_none (s : jsstring) :
  (s = [] \/ exists body y, s = body ++ [y] /\ isWhiteSpace y = false) ->
  endsWithFence s = false ->
  removeClosingFence s = s.
Proof.
  induction s as [|c s IH]; intros Hend Hf; [reflexivity|].
  destruct Hend as [Hnil|(body & y & Hs & Hy)]; [discriminate|].
  assert (Hno : forall t pre, c :: s = pre ++ t -> t <> [] ->
                              fenceToEnd t = false).
  { intros t pre Ht Hne.
    destruct (fenceToEnd t) eqn:E; [|reflexivity]. exfalso.
    destruct t as [|z t] using rev_ind; [congruence|]. clear IHt.
    rewrite Hs, app_assoc in Ht. apply app_inj_tail in Ht as [Hb <-].
    apply (fenceToEnd_visible_end _ t y eq_refl Hy) in E.
    rewrite Hs, Hb, <- app_assoc, E in Hf.
    now rewrite endsWithFence_app in Hf. }
  cbn [removeClosingFence].
  assert (H : closingFenceAt (c :: s) = false).
  { unfold closingFenceAt.
    rewrite (Hno (c :: s) [] eq_refl) by discriminate.
    destruct (c =? newline); [|reflexivity].
    destruct s as [|d s]; [reflexivity|].
    now rewrite (Hno (d :: s) [c] eq_refl) by discriminate. }
  rewrite H. f_equal.
  destruct s as [|d s]; [reflexivity|].
  apply IH.
  - right. destruct body as [|b body].
    + cbn in Hs. injection Hs as _ Hs. discriminate.
    + cbn in Hs. injection Hs as _ Hs. eauto.
  - unfold endsWithFence in *. cbn [rev] in Hf.
    destruct (stripPrefix fence (rev (d :: s))) as [r|] eqn:E; [|reflexivity].
    apply stripPrefix_Some in E. cbn [rev] in E. rewrite E in Hf.
    rewrite <- app_assoc in Hf. now rewrite stripPrefix_app in Hf.
Qed.

(** The opening pattern consumes a language tag it knows and nothing of
    the line feed after it. *)
Lemma stripLanguage_tag (tag rest : jsstring) :
  isFenceLanguage tag = true ->
  stripLanguage (tag ++ newline :: rest) = newline :: rest.
Proof.
  intros H.
  destruct tag as [|c1 [|c2 [|c3 [|c4 tag]]]]; try discriminate.
  - destruct rest; reflexivity.
  - cbn [isFenceLanguage] in H. cbn [app stripLanguage]. now rewrite H.
  - cbn [isFenceLanguage] in H. apply andb_true_iff in H as [H H3].
    cbn [app stripLanguage]. now rewrite H, H3.
Qed.

(** A fenced block starts and ends with a visible code unit. *)
Lemma fenced_trimmed (tag code : jsstring) :
  trim (fenced tag code) = fenced tag code.
Proof.
  unfold fenced, fence. cbn [app]. apply trim_visible_ends; [reflexivity|].
  replace (96 :: 96 :: 96 :: tag ++ newline :: code ++ [newline; 96; 96; 96])
    with ((96 :: 96 :: 96 :: tag ++ newline :: code ++ [newline; 96; 96])
          ++ [96]).
  - now rewrite last_last.
  - cbn [app]. do 3 f_equal. rewrite <- app_assoc. cbn [app]. f_equal.
    now rewrite <- app_assoc.
Qed.

End FenceLemmas.

(** ** Licence keys *)

Section LicenseLemmas.

Local Open Scope N_scope.

Lemma checkLicenseKey_wellFormed (key : jsstring) :
  checkLicenseKey key = true <-> wellFormedKey (Some key).
Proof.
  unfold checkLicenseKey, wellFormedKey.
  rewrite !andb_true_iff, Nat.leb_le, forallb_forall, List.Forall_forall.
  split.
  - intros (H8 & _ & H). split; assumption.
  - intros (H8 & H). split; [exact H8|]. split; [|exact H].
    destruct key; [cbn in H8; lia|reflexivity].
Qed.

Lemma keyChar_not_space (c : N) : isKeyChar c = true -> isWhiteSpace c = false.
Proof.
  unfold isKeyChar, isUpper, isDigit, isWhiteSpace. intros H.
  repeat match type of H with
         | _ || _ = true => apply orb_true_iff in H as [H|H]
         | _ && _ = true => apply andb_true_iff in H as [? H]
         end;
    repeat match goal with
           | H' : (_ <=? _) = true |- _ => apply N.leb_le in H'
           | H' : (_ =? _) = true |- _ => apply N.eqb_eq in H'
           end;
    repeat match goal with
           | |- _ || _ = false => apply orb_false_iff; split
           | |- _ && _ = false => apply andb_false_iff
           | |- (_ =? _) = false => apply N.eqb_neq; lia
           end;
    try (right; apply N.leb_gt; lia); try (left; apply N.leb_gt; lia).
Qed.

Lemma wellFormedKey_not_blank (licenseKey : option jsstring) :
  wellFormedKey licenseKey -> ~ blankKey licenseKey.
Proof.
  destruct licenseKey as [key|]; [|intros []].
  intros [H8 Hall] Hblank. cbn in Hblank.
  rewrite trim_visible in Hblank.
  - subst key. cbn in H8. lia.
  - eapply List.Forall_impl; [|exact Hall]. apply keyChar_not_space.
Qed.

Lemma blank_test (key : jsstring) :
  isEmpty key || (length (trim key) =? 0)%nat = true <-> trim key = [].
Proof.
  rewrite orb_true_iff, Nat.eqb_eq. split.
  - intros [H|H]; [destruct key; [reflexivity|discriminate]|].
    now destruct (trim key).
  - intros ->. now right.
Qed.

Lemma includesItem_In (items : list jsstring) (x : jsstring) :
  includesItem items x = true <-> In x items.
Proof.
  unfold includesItem. rewrite existsb_exists. split.
  - intros (y & Hy & Heq). apply bool_decide_eq_true in Heq. now subst.
  - intros H. exists x. split; [exact H|]. now apply bool_decide_eq_true.
Qed.

End LicenseLemmas.

(** ** Suggested file names *)

Section FileNameLemmas.

Local Open Scope N_scope.

Lemma replaceRuns_loose (s : jsstring) (inRun : bool) :
  looseFrom inRun (replaceRuns inRun s) = true.
Proof.
  revert inRun. induction s as [|c s IH]; intros inRun; [reflexivity|].
  cbn [replaceRuns]. destruct (isSlugChar c) eqn:E.
  - cbn [looseFrom]. rewrite E. apply IH.
  - destruct inRun; [apply IH|].
    cbn [looseFrom]. change (isSlugChar hyphen) with false. cbv iota.
    rewrite N.eqb_refl. cbn [negb andb]. apply IH.
Qed.

Lemma looseFrom_cons (b : bool) (c : N) (rest : jsstring) :
  looseFrom b (c :: rest) = true ->
  (isSlugChar c = true /\ looseFrom false rest = true) \/
  (c = hyphen /\ b = false /\ looseFrom true rest = true).
Proof.
  cbn [looseFrom]. destruct (isSlugChar c); [now left|].
  intros H. apply andb_true_iff in H as [H Hrest].
  apply andb_true_iff in H as [Hc Hb]. apply N.eqb_eq in Hc.
  right. destruct b; [discriminate|]. auto.
Qed.

Lemma loose_after_hyphen (s : jsstring) :
  looseFrom true s = true -> dropWhile (N.eqb hyphen) s = s.
Proof.
  destruct s as [|c s]; [reflexivity|]. intros H.
  apply looseFrom_cons in H as [[Hc _]|(_ & Hb & _)]; [|discriminate].
  cbn [dropWhile]. destruct (hyphen =? c) eqn:E; [|reflexivity].
  apply N.eqb_eq in E. subst c. discriminate.
Qed.

Lemma dropWhile_loose (b : bool) (s : jsstring) :
  looseFrom b s = true -> looseFrom true (dropWhile (N.eqb hyphen) s) = true.
Proof.
  destruct s as [|c s]; [reflexivity|]. intros H.
  apply looseFrom_cons in H as [[Hc Hrest]|(-> & _ & Hrest)].
  - cbn [dropWhile]. destruct (hyphen =? c) eqn:E.
    + apply N.eqb_eq in E. subst c. discriminate.
    + cbn [looseFrom]. now rewrite Hc.
  - cbn [dropWhile]. rewrite N.eqb_refl.
    now rewrite (loose_after_hyphen s Hrest).
Qed.

Lemma looseFrom_prefix (b : bool) (l m : jsstring) :
  looseFrom b (l ++ m) = true -> looseFrom b l = true.
Proof.
  revert b. induction l as [|c l IH]; intros b H; [reflexivity|].
  cbn [app] in H. cbn [looseFrom] in *.
  destruct (isSlugChar c); [exact (IH _ H)|].
  apply andb_true_iff in H as [H Hrest]. rewrite H. exact (IH _ Hrest).
Qed.

Lemma looseFrom_last (b : bool) (l : jsstring) (x : N) :
  looseFrom b (l ++ [x]) = true -> isSlugChar x = true \/ x = hyphen.
Proof.
  revert b. induction l as [|c l IH]; intros b H.
  - apply looseFrom_cons in H as [[? _]|[? _]]; auto.
  - cbn [app] in H. apply looseFrom_cons in H as [[_ H]|(_ & _ & H)];
      exact (IH _ H).
Qed.

Lemma loose_slug (b : bool) (l : jsstring) (x : N) :
  looseFrom b (l ++ [x]) = true -> isSlugChar x = true ->
  isSlugFrom b (l ++ [x]) = true.
Proof.
  revert b. induction l as [|c l IH]; intros b H Hx.
  - cbn [app isSlugFrom]. now rewrite Hx.
  - cbn [app] in *. cbn [looseFrom] in H. cbn [isSlugFrom].
    destruct (isSlugChar c); [exact (IH _ H Hx)|].
    apply andb_true_iff in H as [H Hrest]. rewrite H. exact (IH _ Hrest Hx).
Qed.

(** Without the hyphens at its ends, a loose text is empty or a slug. *)
Lemma stripHyphens_slug (b : bool) (s : jsstring) :
  looseFrom b s = true ->
  stripHyphens s = [] \/ isSlug (stripHyphens s) = true.
Proof.
  intros H. unfold stripHyphens.
  apply dropWhile_loose in H.
  induction (dropWhile (N.eqb hyphen) s) as [|x l IH] using rev_ind;
    [now left|].
  rewrite rev_app_distr. cbn [rev app dropWhile].
  destruct (hyphen =? x) eqn:E.
  - apply IH. exact (looseFrom_prefix _ _ _ H).
  - right. cbn [rev]. rewrite rev_involutive. apply loose_slug; [exact H|].
    apply looseFrom_last in H as [H|H]; [exact H|].
    subst x. now rewrite N.eqb_refl in E.
Qed.

Lemma slugChar_visible (c : N) :
  isSlugChar c = true \/ c = hyphen -> isWhiteSpace c = false.
Proof.
  intros [H | ->]; [|reflexivity].
  apply alnum_not_space. unfold isSlugChar in H. unfold isAlnum, isAlpha.
  apply orb_true_iff in H as [H|H]; rewrite H;
    now rewrite ?orb_true_r.
Qed.

Lemma isSlugFrom_chars (b : bool) (s : jsstring) :
  isSlugFrom b s = true ->
  Forall (fun c => isSlugChar c = true \/ c = hyphen) s.
Proof.
  revert b. induction s as [|c s IH]; intros b H; [constructor|].
  cbn [isSlugFrom] in H. destruct (isSlugChar c) eqn:E.
  - constructor; [now left|exact (IH _ H)].
  - apply andb_true_iff in H as [H Hrest].
    apply andb_true_iff in H as [Hc _]. apply N.eqb_eq in Hc.
    constructor; [now right|exact (IH _ Hrest)].
Qed.

Lemma slug_trim (s : jsstring) : isSlug s = true -> trim s = s.
Proof.
  intros H. apply trim_visible.
  eapply List.Forall_impl; [|exact (isSlugFrom_chars _ _ H)].
  exact slugChar_visible.
Qed.

Lemma slug_nonempty (s : jsstring) : isSlug s = true -> s <> [].
Proof. intros H ->. discriminate. Qed.

(** The text [suggestFileName] computes from a name that is not empty. *)
Lemma cleaned_slug (s : jsstring) :
  let cleaned := trim (stripHyphens (replaceRuns false s)) in
  cleaned = [] \/ isSlug cleaned = true.
Proof.
  cbv zeta.
  destruct (stripHyphens_slug false _ (replaceRuns_loose s false)) as [H|H].
  - rewrite H. now left.
  - rewrite (slug_trim _ H). now right.
Qed.

Lemma suggestFileName_default_or_slug
    (toLowerCaseOf : jsstring -> jsstring)
    (nodeName defaultName : option jsstring) :
  suggestFileName toLowerCaseOf nodeName defaultName
  = match defaultName with Some d => d | None => js "component" end
  \/ isSlug (suggestFileName toLowerCaseOf nodeName defaultName) = true.
Proof.
  unfold suggestFileName. cbv zeta.
  destruct nodeName as [n|]; [|now left].
  destruct (isEmpty n); [now left|].
  destruct (cleaned_slug (toLowerCaseOf n)) as [Hc|Hc].
  - rewrite Hc. now left.
  - pose proof (slug_nonempty _ Hc) as Hne.
    destruct (trim _) as [|c t] in *; [congruence|]. now right.
Qed.

Lemma suggestFileName_is_slug (toLowerCaseOf : jsstring -> jsstring)
    (nodeName : option jsstring) :
  isSlug (suggestFileName toLowerCaseOf nodeName None) = true.
Proof.
  destruct (suggestFileName_default_or_slug toLowerCaseOf nodeName None)
    as [Hd|Hs]; [|exact Hs].
  now rewrite Hd.
Qed.

(** *** A slug is left as it is *)

Lemma replaceRuns_slug (a b : bool) (s : jsstring) :
  isSlugFrom a s = true -> (b = true -> a = true) -> replaceRuns b s = s.
Proof.
  revert a b. induction s as [|c s IH]; intros a b H Hab; [reflexivity|].
  cbn [isSlugFrom] in H. cbn [replaceRuns].
  destruct (isSlugChar c) eqn:E.
  - f_equal. apply (IH false false H). discriminate.
  - apply andb_true_iff in H as [H Hrest].
    apply andb_true_iff in H as [Hc Ha]. apply N.eqb_eq in Hc. subst c.
    destruct a; [discriminate|]. destruct b; [now specialize (Hab eq_refl)|].
    f_equal. now apply (IH true true Hrest).
Qed.

Lemma isSlugFrom_last (b : bool) (l : jsstring) (x : N) :
  isSlugFrom b (l ++ [x]) = true -> isSlugChar x = true.
Proof.
  revert b. induction l as [|c l IH]; intros b H.
  - cbn [app isSlugFrom] in H. destruct (isSlugChar x); [reflexivity|].
    apply andb_true_iff in H as [_ H]. discriminate.
  - cbn [app isSlugFrom] in H. destruct (isSlugChar c); [exact (IH _ H)|].
    apply andb_true_iff in H as [_ H]. exact (IH _ H).
Qed.

Lemma stripHyphens_of_slug (s : jsstring) :
  isSlug s = true -> stripHyphens s = s.
Proof.
  intros H. unfold stripHyphens.
  assert (Hhead : dropWhile (N.eqb hyphen) s = s).
  { destruct s as [|c s]; [reflexivity|].
    unfold isSlug in H. cbn [isSlugFrom] in H. cbn [dropWhile].
    destruct (hyphen =? c) eqn:E; [|reflexivity].
    apply N.eqb_eq in E. subst c. discriminate. }
  rewrite Hhead.
  destruct s as [|x l _] using rev_ind; [reflexivity|].
  rewrite rev_app_distr. cbn [rev app dropWhile].
  apply isSlugFrom_last in H.
  destruct (hyphen =? x) eqn:E.
  - apply N.eqb_eq in E. subst x. discriminate.
  - cbn [rev]. now rewrite rev_involutive.
Qed.

Lemma toLowerCase_slug (s : jsstring) :
  isSlug s = true -> toLowerCase s = s.
Proof.
  intros H. apply isSlugFrom_chars in H. unfold toLowerCase.
  induction H as [|c s Hc _ IH]; [reflexivity|].
  cbn [List.map]. rewrite IH. f_equal.
  destruct ((65 <=? c) && (c <=? 90)) eqn:E; [|reflexivity]. exfalso.
  apply andb_true_iff in E as [E1 E2].
  apply N.leb_le in E1. apply N.leb_le in E2.
  destruct Hc as [Hc | ->]; [|unfold hyphen in *; lia].
  unfold isSlugChar, isLower, isDigit in Hc.
  apply orb_true_iff in Hc as [Hc|Hc]; apply andb_true_iff in Hc as [H1 H2];
    apply N.leb_le in H1; apply N.leb_le in H2; lia.
Qed.

(** *** A slug as a file name *)

Lemma takeWhile_all (p : N -> bool) (s : jsstring) :
  Forall (fun c => p c = true) s -> takeWhile p s = s.
Proof.
  induction 1 as [|c s Hc _ IH]; [reflexivity|].
  cbn [takeWhile]. now rewrite Hc, IH.
Qed.

Lemma dropWhile_none (p : N -> bool) (s : jsstring) :
  Forall (fun c => p c = false) s -> dropWhile p s = s.
Proof.
  destruct 1 as [|c s Hc _]; [reflexivity|].
  cbn [dropWhile]. now rewrite Hc.
Qed.

Lemma extname_plain (name : jsstring) :
  Forall (fun c => (c =? slash) = false /\ (c =? dot_char) = false) name ->
  extname name = [].
Proof.
  intros H. unfold extname. cbv zeta.
  assert (Hrev : Forall (fun c => (c =? slash) = false /\
                                  (c =? dot_char) = false) (rev name))
    by now apply Forall_rev.
  rewrite (dropWhile_none (N.eqb slash) (rev name)).
  2: { eapply List.Forall_impl; [|exact Hrev]. intros c [Hc _].
       now rewrite N.eqb_sym. }
  rewrite (takeWhile_all (fun c => negb (c =? slash)) (rev name)).
  2: { eapply List.Forall_impl; [|exact Hrev]. intros c [Hc _].
       cbv beta. now rewrite Hc. }
  rewrite (takeWhile_all (fun c => negb (c =? dot_char)) (rev name)).
  2: { eapply List.Forall_impl; [|exact Hrev]. intros c [_ Hc].
       cbv beta. now rewrite Hc. }
  now rewrite skipn_all.
Qed.

Lemma slug_plain (s : jsstring) :
  isSlug s = true ->
  Forall (fun c => (c =? slash) = false /\ (c =? dot_char) = false) s.
Proof.
  intros H. eapply List.Forall_impl; [|exact (isSlugFrom_chars _ _ H)].
  intros c [Hc| ->]; [|split; reflexivity].
  unfold isSlugChar, isLower, isDigit in Hc.
  apply orb_true_iff in Hc as [Hc|Hc]; apply andb_true_iff in Hc as [H1 H2];
    apply N.leb_le in H1; apply N.leb_le in H2;
    split; apply N.eqb_neq; unfold slash, dot_char; lia.
Qed.

Lemma coerceExtension_slug (s : jsstring) :
  isSlug s = true -> coerceExtension s = s ++ js ".tsx".
Proof.
  intros H. unfold coerceExtension. cbv zeta.
  now rewrite (extname_plain s (slug_plain s H)).
Qed.

End FileNameLemmas.

(** ** Writing below the workspace folder *)

Section WriterLemmas.

Local Open Scope N_scope.

Lemma lastComponent_plain (name : jsstring) :
  Forall (fun c => (c =? slash) = false) name -> lastComponent name = name.
Proof.
  intros H. unfold lastComponent.
  assert (Hrev : Forall (fun c => (c =? slash) = false) (rev name))
    by now apply Forall_rev.
  rewrite (dropWhile_none (N.eqb slash) (rev name)).
  2: { eapply List.Forall_impl; [|exact Hrev]. intros c Hc.
       now rewrite N.eqb_sym. }
  rewrite (takeWhile_all (fun c => negb (c =? slash)) (rev name)).
  2: { eapply List.Forall_impl; [|exact Hrev]. intros c Hc.
       cbv beta. now rewrite Hc. }
  apply rev_involutive.
Qed.

Lemma coerceExtension_no_slash (name : jsstring) :
  Forall (fun c => (c =? slash) = false) name ->
  Forall (fun c => (c =? slash) = false) (coerceExtension name).
Proof.
  intros H. unfold coerceExtension. cbv zeta.
  destruct (_ && _); [|exact H].
  apply Forall_app. split; [exact H|repeat constructor].
Qed.

(** A file name without separator is written directly into the target
    directory. *)
Lemma destinationOf_plain (ws : path) (options : WriteOptions) :
  Forall (fun c => (c =? slash) = false) (fileName options) ->
  destinationOf ws options
  = {| segments :=
         targetDirOf ws options ++ [coerceExtension (fileName options)];
       trailingSeparator := false |}.
Proof.
  intros H. unfold destinationOf.
  pose proof (coerceExtension_no_slash _ H) as Hc.
  apply join_simple; [exact Hc|].
  rewrite <- (lastComponent_plain _ Hc). apply coerced_lastComponent.
Qed.

Lemma filePathOf_plain (ws : path) (options : WriteOptions) :
  Forall (fun c => (c =? slash) = false) (fileName options) ->
  filePathOf ws options
  = targetDirOf ws options ++ [coerceExtension (fileName options)].
Proof.
  intros H. unfold filePathOf. now rewrite destinationOf_plain.
Qed.

(** The destination of a file name without separator is its plain path. *)
Lemma destinationOf_filePathOf (ws : path) (options : WriteOptions) :
  Forall (fun c => (c =? slash) = false) (fileName options) ->
  destinationOf ws options
  = {| segments := filePathOf ws options; trailingSeparator := false |}.
Proof.
  intros H. rewrite (filePathOf_plain ws options H).
  now apply destinationOf_plain.
Qed.

Lemma mkdirSync_existing fs (p : path) :
  isDirectory fs p = true -> mkdirSync fs p = Some fs.
Proof.
  intros H. unfold mkdirSync, isDirectory in *.
  pose proof (mkdirFrom_dirs fs [] p [] H) as Hm.
  rewrite app_nil_r in Hm. exact Hm.
Qed.

Lemma dirsFrom_app fs (base segs rest : list jsstring) :
  dirsFrom fs base (segs ++ rest)
  = dirsFrom fs base segs && dirsFrom fs (base ++ segs) rest.
Proof.
  revert base. induction segs as [|seg segs IH]; intros base.
  - cbn [app dirsFrom andb]. now rewrite app_nil_r.
  - cbn [app dirsFrom].
    match goal with
    | |- context [match ?x with _ => _ end] => destruct x as [[?|]|]
    end; try reflexivity.
    rewrite IH. now rewrite <- app_assoc.
Qed.

Lemma isDirectory_child fs (p : path) (name : jsstring) :
  isDirectory fs p = true -> fs !! (p ++ [name]) = Some Dir ->
  isDirectory fs (p ++ [name]) = true.
Proof.
  intros Hp Hn. unfold isDirectory in *. rewrite dirsFrom_app, Hp.
  cbn [andb dirsFrom app]. now rewrite Hn.
Qed.

(** A new entry keeps the directories that exist. *)
Lemma dirsFrom_insert fs (k : path) (v : node) (base segs : list jsstring) :
  fs !! k = None -> dirsFrom fs base segs = true ->
  dirsFrom (<[k := v]> fs) base segs = true.
Proof.
  intros Hk. revert base. induction segs as [|seg segs IH]; intros base H;
    [reflexivity|].
  cbn [dirsFrom] in *.
  match type of H with
  | context [match ?x with _ => _ end] => destruct x as [[?|]|] eqn:E
  end; try discriminate.
  rewrite lookup_insert_ne by (intros ->; congruence).
  rewrite E. now apply IH.
Qed.

(** The target directory after [writeJSXCode] has ensured it. *)
Lemma ensured_targetDir (w : World) (ws : path) (options : WriteOptions) :
  isDirectory (files w) ws = true ->
  (forall c, files w !! targetDirOf ws options <> Some (File c)) ->
  let fs1 := if existsSync (files w) (targetDirOf ws options) then files w
             else <[targetDirOf ws options := Dir]> (files w) in
  isDirectory fs1 ws = true /\ isDirectory fs1 (targetDirOf ws options) = true.
Proof.
  intros Hdir Hnf fs1. unfold fs1, existsSync.
  destruct (files w !! targetDirOf ws options) as [[c|]|] eqn:E.
  - now destruct (Hnf c).
  - split; [exact Hdir|]. rewrite targetDirOf_eq in *.
    now apply isDirectory_child.
  - split.
    + now apply dirsFrom_insert.
    + rewrite targetDirOf_eq in *. apply isDirectory_child.
      * now apply dirsFrom_insert.
      * apply lookup_insert_eq.
Qed.

(** The write of a new file into an existing directory. *)
Lemma writeFile_new fs (dir : path) (name content : jsstring) :
  isDirectory fs dir = true -> fs !! (dir ++ [name]) = None ->
  writeFile fs (dir ++ [name]) content
  = Some (<[dir ++ [name] := File content]> fs).
Proof.
  intros Hdir Hnew. unfold writeFile. rewrite Hnew.
  rewrite removelast_last. now rewrite (mkdirSync_existing fs dir Hdir).
Qed.

(** *** The cleanup timers only remove *)

Lemma deleteQuietly_sub fs (p q : path) (n : node) :
  deleteQuietly fs p !! q = Some n -> fs !! q = Some n.
Proof.
  unfold deleteQuietly.
  destruct (fs !! p) as [[c|]|] eqn:E; [| |auto].
  - intros H. apply lookup_delete_Some in H. tauto.
  - destruct (existsb _ _); [auto|].
    intros H. apply lookup_delete_Some in H. tauto.
Qed.

Lemma cleanupBody_sub fs (p q : path) (n : node) :
  cleanupBody fs p !! q = Some n -> fs !! q = Some n.
Proof.
  unfold cleanupBody. destruct (existsSync fs p); [|auto].
  apply deleteQuietly_sub.
Qed.

Lemma cleanup_sub (ts : list path) fs (q : path) (n : node) :
  fold_left cleanupBody ts fs !! q = Some n -> fs !! q = Some n.
Proof.
  revert fs. induction ts as [|t ts IH]; intros fs H; [exact H|].
  cbn [fold_left] in H. apply IH in H. now apply cleanupBody_sub in H.
Qed.

(** A timer removes its path, unless a directory stands there. *)
Lemma cleanupBody_removes fs (p : path) :
  fs !! p <> Some Dir -> cleanupBody fs p !! p = None.
Proof.
  intros H. unfold cleanupBody, existsSync, deleteQuietly.
  destruct (fs !! p) as [[c|]|] eqn:E; [|congruence|exact E].
  apply lookup_delete_eq.
Qed.

Lemma cleanup_removes (before after : list path) fs (p : path) :
  (forall c, fs !! p = Some c -> c <> Dir) ->
  fold_left cleanupBody (before ++ p :: after) fs !! p = None.
Proof.
  intros Hp. rewrite fold_left_app. cbn [fold_left].
  set (fs1 := fold_left cleanupBody before fs).
  assert (H1 : cleanupBody fs1 p !! p = None).
  { apply cleanupBody_removes. intros H. unfold fs1 in H.
    apply cleanup_sub in H. now apply (Hp Dir). }
  destruct (fold_left cleanupBody after (cleanupBody fs1 p) !! p) eqn:E;
    [|reflexivity].
  apply cleanup_sub in E. congruence.
Qed.

End WriterLemmas.

Section WriterRuns.

Local Open Scope N_scope.

(** The destination resolved for a suggested name. *)
Lemma suggested_destination (toLowerCaseOf : jsstring -> jsstring)
    (nodeName : option jsstring) (ws : path) (folder : TargetFolder)
    (diff : option bool) :
  let name := suggestFileName toLowerCaseOf nodeName None in
  filePathOf ws
    {| fileName := name; targetFolder := Some folder; showDiff := diff |}
  = ws ++ [folderName folder; name ++ js ".tsx"].
Proof.
  intros name.
  pose proof (suggestFileName_is_slug toLowerCaseOf nodeName) as Hs.
  fold name in Hs.
  unfold filePathOf, destinationOf. rewrite targetDirOf_eq. cbn [fileName].
  rewrite (coerceExtension_slug name Hs).
  unfold targetFolderOf. cbn [targetFolder].
  rewrite segments_join_simple.
  - rewrite <- app_assoc. reflexivity.
  - apply Forall_app. split; [|repeat constructor].
    eapply List.Forall_impl; [|exact (slug_plain name Hs)]. now intros c [Hc _].
  - repeat split; intros H; apply (f_equal (@length N)) in H;
      rewrite length_app in H; cbn in H; lia.
Qed.

(** The run of [writeJSXCode] that writes: a new file, confirmed, without
    preview. *)
Lemma writeJSXCode_confirmed (env : Env) (w : World) (jsxCode : jsstring)
    (options : WriteOptions) (ws : path) :
  workspaceFolder env = Some ws ->
  isDirectory (files w) ws = true ->
  Forall (fun c => (c =? slash) = false) (fileName options) ->
  (forall c, files w !! targetDirOf ws options <> Some (File c)) ->
  files w !! filePathOf ws options = None ->
  answer env = Some (js "Yes") ->
  showDiff options = Some false ->
  exists w',
    writeJSXCode env w jsxCode options
    = (Returned (Some (filePathOf ws options)), w') /\
    files w'
    = <[filePathOf ws options := File jsxCode]>
        (if existsSync (files w) (targetDirOf ws options) then files w
         else <[targetDirOf ws options := Dir]> (files w)).
Proof.
  intros Hws Hdir Hplain Hfolder Hnew Hyes Hquiet.
  unfold writeJSXCode. rewrite Hws. cbv zeta.
  change (segments (join ws (targetFolderOf options)))
    with (targetDirOf ws options).
  change (join (targetDirOf ws options) (coerceExtension (fileName options)))
    with (destinationOf ws options).
  rewrite (destinationOf_filePathOf ws options Hplain).
  rewrite (ensure_targetDir w ws options Hdir).
  destruct (ensured_targetDir w ws options Hdir Hfolder) as [_ Htarget].
  set (fs1 := if existsSync (files w) (targetDirOf ws options) then files w
              else <[targetDirOf ws options := Dir]> (files w)) in *.
  assert (H1 : fs1 !! filePathOf ws options = None).
  { unfold fs1. destruct (existsSync _ _); [exact Hnew|].
    rewrite lookup_insert_ne; [exact Hnew|].
    intros Heq. now apply (filePathOf_not_targetDir ws options). }
  cbn [files withFiles]. unfold existsSyncAt, writeFileAt.
  cbn [trailingSeparator segments]. unfold existsSync at 1. rewrite H1.
  rewrite Hquiet. rewrite bool_decide_eq_false_2 by (intros H; now apply H).
  unfold askUserConfirmation. rewrite (bool_decide_eq_true_2 _ Hyes).
  cbn [negb files log withFiles].
  assert (Hwrite : writeFile fs1 (filePathOf ws options) jsxCode
                   = Some (<[filePathOf ws options := File jsxCode]> fs1)).
  { rewrite (filePathOf_plain ws options Hplain) in *.
    now apply writeFile_new. }
  rewrite Hwrite. eexists. split; reflexivity.
Qed.

(** The run of [writeJSXCode] that finds the destination: it is refused and
    the file is kept. *)
Lemma writeJSXCode_existing (env : Env) (w : World) (jsxCode : jsstring)
    (options : WriteOptions) (ws : path) (existing : jsstring) :
  workspaceFolder env = Some ws ->
  isDirectory (files w) ws = true ->
  trailingSeparator (destinationOf ws options) = false ->
  files w !! filePathOf ws options = Some (File existing) ->
  exists w',
    writeJSXCode env w jsxCode options
    = (ThrewError (alreadyExistsMessage options), w') /\
    files w' !! filePathOf ws options = Some (File existing).
Proof.
  intros Hws Hdir Hsep Hfile.
  unfold writeJSXCode. rewrite Hws. cbv zeta.
  change (segments (join ws (targetFolderOf options)))
    with (targetDirOf ws options).
  change (join (targetDirOf ws options) (coerceExtension (fileName options)))
    with (destinationOf ws options).
  rewrite (ensure_targetDir w ws options Hdir).
  set (fs1 := if existsSync (files w) (targetDirOf ws options) then files w
              else <[targetDirOf ws options := Dir]> (files w)).
  assert (H1 : fs1 !! filePathOf ws options = Some (File existing)).
  { unfold fs1. destruct (existsSync _ _); [exact Hfile|].
    rewrite lookup_insert_ne; [exact Hfile|].
    intros Heq. now apply (filePathOf_not_targetDir ws options). }
  cbn [files withFiles]. unfold existsSyncAt, readFileSyncAt. rewrite Hsep.
  change (segments (destinationOf ws options)) with (filePathOf ws options).
  unfold existsSync at 1, readFileSync. rewrite H1.
  eexists. split; [reflexivity|].
  destruct (bool_decide (showDiff options <> Some false)); [|exact H1].
  destruct (showDiffPreview_frame env (withFiles w fs1)
              (filePathOf ws options) ws existing jsxCode Hws)
    as [Hframe _].
  apply Hframe; [|exact H1]. intros Heq.
  now apply (tempUri_not_filePath ws options (now1 env)).
Qed.

Lemma ordinary_long (seg : jsstring) : (3 <= length seg)%nat -> ordinary seg.
Proof.
  intros H. repeat split; intros ->; cbn in H; lia.
Qed.

(** The names of the scratch files. *)
Lemma tempName_simple (dir : path) (prefix : jsstring) (now : N)
    (name : jsstring) :
  Forall (fun c => (c =? slash) = false) prefix ->
  (3 <= length prefix)%nat ->
  Forall (fun c => (c =? slash) = false) name ->
  join dir (tempName prefix now name)
  = {| segments := dir ++ [tempName prefix now name];
       trailingSeparator := false |}.
Proof.
  intros Hp Hlen Hn. apply join_simple.
  - unfold tempName. repeat (apply Forall_app; split);
      [exact Hp|apply digits_no_slash|repeat constructor|exact Hn].
  - apply ordinary_long. unfold tempName. rewrite length_app. lia.
Qed.

Lemma child_neq (dir : path) (name : jsstring) : dir ++ [name] <> dir.
Proof.
  induction dir as [|seg dir IH]; [discriminate|].
  cbn [app]. intros H. injection H as H. exact (IH H).
Qed.

Lemma tempDirOf_eq (ws : path) : tempDirOf ws = ws ++ [js ".figma-temp"].
Proof.
  unfold tempDirOf. apply segments_join_simple; [repeat constructor|].
  repeat split; discriminate.
Qed.

End WriterRuns.

(** ** Scratch paths below the scratch directory *)

Section ScratchPaths.

Local Open Scope N_scope.

Implicit Types (fs : gmap path node) (p q base : path).

Lemma isPrefix_app p (k : path) : isPrefix p (p ++ k) = true.
Proof.
  induction p as [|a p IH]; [reflexivity|].
  cbn [app isPrefix]. now rewrite decide_True by reflexivity.
Qed.

Lemma isPrefix_refl p : isPrefix p p = true.
Proof.
  induction p as [|a p IH]; [reflexivity|].
  cbn [isPrefix]. now rewrite decide_True by reflexivity.
Qed.

Lemma isPrefix_longer p q (seg : jsstring) :
  isPrefix p q = false -> isPrefix (p ++ [seg]) q = false.
Proof.
  revert q. induction p as [|a p IH]; intros q H; [discriminate|].
  destruct q as [|b q]; [reflexivity|]. cbn [app isPrefix] in *.
  destruct (decide (a = b)); [now apply IH|reflexivity].
Qed.

Lemma isPrefix_child p (seg : jsstring) : isPrefix (p ++ [seg]) p = false.
Proof.
  induction p as [|a p IH]; [reflexivity|].
  cbn [app isPrefix]. now rewrite decide_True by reflexivity.
Qed.

(** Two directories of different names below one directory: nothing below
    the one lies below the other. *)
Lemma isPrefix_sibling p (a b : jsstring) (k : path) :
  a <> b -> isPrefix (p ++ [a]) (p ++ b :: k) = false.
Proof.
  intros Hab. induction p as [|c p IH].
  - cbn [app isPrefix]. now rewrite decide_False by exact Hab.
  - cbn [app isPrefix]. now rewrite decide_True by reflexivity.
Qed.

(** What lies above a directory is not below one of its entries. *)
Lemma isPrefix_above p (a : jsstring) (pre post : path) :
  p = pre ++ post -> isPrefix (p ++ [a]) pre = false.
Proof.
  intros ->. induction pre as [|c pre IH].
  - destruct post; reflexivity.
  - cbn [app isPrefix]. now rewrite decide_True by reflexivity.
Qed.

(** Without a step upwards, the segments of a name lead below the
    directory they are resolved from. *)
Lemma fold_pushSegment_below (segs : list jsstring) (dir : path) :
  Forall (fun seg => seg <> js "..") segs ->
  exists more, fold_left pushSegment segs dir = dir ++ more.
Proof.
  intros H. revert dir. induction H as [|seg segs Hseg _ IH]; intros dir.
  - exists []. now rewrite app_nil_r.
  - cbn [fold_left]. unfold pushSegment at 2.
    destruct (decide (seg = [])); [apply IH|].
    destruct (decide (seg = js ".")); [apply IH|].
    destruct (decide (seg = js "..")); [contradiction|].
    destruct (IH (dir ++ [seg])) as [more Hmore].
    exists (seg :: more). rewrite Hmore, <- app_assoc. reflexivity.
Qed.

Lemma splitPath_prefix (prefix s : jsstring) :
  Forall (fun c => (c =? slash) = false) prefix ->
  exists seg segs,
    splitPath s = seg :: segs /\
    splitPath (prefix ++ s) = (prefix ++ seg) :: segs.
Proof.
  intros H. induction H as [|c prefix Hc _ IH].
  - pose proof (splitPath_nonempty s) as Hne.
    destruct (splitPath s) as [|seg segs] eqn:E; [congruence|].
    exists seg, segs. split; [reflexivity|exact E].
  - destruct IH as (seg & segs & Hs & Hp). exists seg, segs.
    split; [exact Hs|]. cbn [app splitPath]. now rewrite Hc, Hp.
Qed.

(** The scratch file of a name without a step upwards lies below the
    directory its name is joined to. *)
Lemma tempName_below (dir : path) (prefix : jsstring) (now : N)
    (name : jsstring) :
  Forall (fun c => (c =? slash) = false) prefix ->
  (3 <= length prefix)%nat ->
  Forall (fun seg => seg <> js "..") (splitPath name) ->
  exists seg more,
    segments (join dir (tempName prefix now name)) = dir ++ seg :: more.
Proof.
  intros Hp Hlen Hname. unfold join, tempName. cbn [segments].
  rewrite !app_assoc.
  destruct (splitPath_prefix ((prefix ++ decimal now) ++ js "-") name)
    as (seg & segs & Hs & Hsplit).
  { repeat (apply Forall_app; split);
      [exact Hp|apply digits_no_slash|repeat constructor]. }
  rewrite Hsplit. cbn [fold_left].
  rewrite Hs in Hname. inversion Hname as [|? ? _ Hsegs]; subst.
  rewrite pushSegment_ordinary.
  2: { apply ordinary_long. rewrite !length_app. lia. }
  match goal with
  | |- context [fold_left pushSegment segs ?d] =>
      destruct (fold_pushSegment_below segs d Hsegs) as [more Hmore]
  end.
  rewrite Hmore, <- app_assoc. eauto.
Qed.

Lemma mkdirFrom_outside fs base (segs : list jsstring) fs' :
  mkdirFrom fs base segs = Some fs' ->
  forall q, isPrefix base q = false \/ q = base -> fs' !! q = fs !! q.
Proof.
  revert fs base. induction segs as [|seg rest IH]; intros fs base H q Hq;
    cbn [mkdirFrom] in H.
  - now injection H as <-.
  - assert (Hq' : isPrefix (base ++ [seg]) q = false \/ q = base ++ [seg]).
    { left. destruct Hq as [Hq| ->];
        [now apply isPrefix_longer|apply isPrefix_child]. }
    assert (Hne : base ++ [seg] <> q).
    { intros <-. destruct Hq as [Hq|Hq].
      - now rewrite isPrefix_app in Hq.
      - now apply (child_neq base seg). }
    destruct (fs !! (base ++ [seg])) as [[c|]|] eqn:E; [discriminate| |].
    + exact (IH _ _ H q Hq').
    + rewrite (IH _ _ H q Hq'). now apply lookup_insert_ne.
Qed.

(** Creating directories below a directory changes nothing outside its
    first new entry. *)
Lemma mkdirFrom_below fs base (seg : jsstring) (rest : list jsstring) fs' :
  mkdirFrom fs base (seg :: rest) = Some fs' ->
  forall q, isPrefix (base ++ [seg]) q = false -> fs' !! q = fs !! q.
Proof.
  cbn [mkdirFrom]. intros H q Hq.
  assert (Hne : base ++ [seg] <> q).
  { intros <-. now rewrite isPrefix_refl in Hq. }
  destruct (fs !! (base ++ [seg])) as [[c|]|] eqn:E; [discriminate| |].
  - apply (mkdirFrom_outside _ _ _ _ H). now left.
  - rewrite (mkdirFrom_outside _ _ _ _ H q (or_introl Hq)).
    now apply lookup_insert_ne.
Qed.

(** A write below an entry of an existing directory changes nothing
    outside that entry. *)
Lemma writeFile_below fs (dir : path) (seg : jsstring) (more : path)
    (content : jsstring) fs' :
  isDirectory fs dir = true ->
  writeFile fs (dir ++ seg :: more) content = Some fs' ->
  forall q, isPrefix (dir ++ [seg]) q = false -> fs' !! q = fs !! q.
Proof.
  intros Hdir H q Hq. unfold writeFile in H.
  assert (Hne : dir ++ seg :: more <> q).
  { intros <-.
    change (dir ++ seg :: more) with (dir ++ [seg] ++ more) in Hq.
    now rewrite app_assoc, isPrefix_app in Hq. }
  assert (Hm : exists fs1, mkdirSync fs (removelast (dir ++ seg :: more))
                           = Some fs1 /\
                           fs' = <[dir ++ seg :: more := File content]> fs1).
  { destruct (fs !! (dir ++ seg :: more)) as [[c|]|];
      try discriminate;
      (destruct (mkdirSync fs (removelast (dir ++ seg :: more))) as [fs1|];
       [injection H as <-; eauto|discriminate]). }
  destruct Hm as (fs1 & Hm & ->).
  rewrite lookup_insert_ne by exact Hne.
  rewrite removelast_app in Hm by discriminate.
  unfold mkdirSync in Hm. rewrite (mkdirFrom_dirs fs [] dir _ Hdir) in Hm.
  cbn [app] in Hm. destruct more as [|m more].
  - cbn [removelast mkdirFrom] in Hm. now injection Hm as <-.
  - change (removelast (seg :: m :: more))
      with (seg :: removelast (m :: more)) in Hm.
    exact (mkdirFrom_below _ _ _ _ _ Hm q Hq).
Qed.

Lemma dirsFrom_ext fs fs' (base : path) (segs : list jsstring) :
  (forall pre post, segs = pre ++ post -> pre <> [] ->
                    fs' !! (base ++ pre) = fs !! (base ++ pre)) ->
  dirsFrom fs' base segs = dirsFrom fs base segs.
Proof.
  revert base. induction segs as [|seg segs IH]; intros base H;
    [reflexivity|].
  cbn [dirsFrom]. rewrite (H [seg] segs eq_refl ltac:(discriminate)).
  destruct (fs !! (base ++ [seg])) as [[c|]|]; try reflexivity.
  apply IH. intros pre post -> Hpre.
  rewrite <- app_assoc. apply (H (seg :: pre) post eq_refl). discriminate.
Qed.

(** What changes nothing outside an entry of a directory keeps the
    directory. *)
Lemma isDirectory_outside fs fs' (dir : path) (seg : jsstring) :
  (forall q, isPrefix (dir ++ [seg]) q = false -> fs' !! q = fs !! q) ->
  isDirectory fs' dir = isDirectory fs dir.
Proof.
  intros H. unfold isDirectory. apply dirsFrom_ext.
  intros pre post Hdir _. cbn [app]. apply H.
  now apply (isPrefix_above dir seg pre post).
Qed.

Lemma ensureTempDir_outside fs (ws : path) fs' :
  isDirectory fs ws = true ->
  ensureTempDir fs ws = Some fs' ->
  forall q, isPrefix (tempDirOf ws) q = false -> fs' !! q = fs !! q.
Proof.
  intros Hdir. unfold ensureTempDir.
  destruct (existsSync fs (tempDirOf ws)); [now intros [= <-]|].
  rewrite tempDirOf_eq. unfold mkdirSync.
  rewrite (mkdirFrom_dirs fs [] ws _ Hdir). cbn [app].
  apply mkdirFrom_below.
Qed.

Lemma writeFileAt_below fs (dir : path) (seg : jsstring) (more : path)
    (s : pathString) (content : jsstring) fs' :
  isDirectory fs dir = true ->
  segments s = dir ++ seg :: more ->
  writeFileAt fs s content = Some fs' ->
  forall q, isPrefix (dir ++ [seg]) q = false -> fs' !! q = fs !! q.
Proof.
  intros Hdir Hs H. apply writeFileAt_Some in H as [_ H].
  rewrite Hs in H. now apply (writeFile_below _ _ _ _ _ _ Hdir H).
Qed.

(** The preview of a new file, for a name without a step upwards: nothing
    outside the scratch directory is created or changed. *)
Lemma showDiffPreviewForNewFile_outside (env : Env) (w : World)
    (fileUri ws : path) (newContent targetFolder fileName : jsstring) :
  workspaceFolder env = Some ws ->
  isDirectory (files w) ws = true ->
  Forall (fun seg => seg <> js "..") (splitPath fileName) ->
  forall q, isPrefix (tempDirOf ws) q = false ->
    files (showDiffPreviewForNewFile env w fileUri newContent targetFolder
             fileName) !! q = files w !! q.
Proof.
  intros Hws Hdir Hname q Hq. unfold showDiffPreviewForNewFile. rewrite Hws.
  destruct (ensureTempDir (files w) ws) as [fs1|] eqn:E1; [|reflexivity].
  pose proof (ensureTempDir_outside _ _ _ Hdir E1) as H1.
  assert (Hdir1 : isDirectory fs1 ws = true).
  { rewrite <- Hdir. apply (isDirectory_outside _ _ ws (js ".figma-temp")).
    rewrite <- tempDirOf_eq. exact H1. }
  destruct (tempName_below (tempDirOf ws) (js "temp-") (now1 env) fileName)
    as (seg1 & more1 & Ht); [repeat constructor|cbn; lia|exact Hname|].
  destruct (tempName_below (tempDirOf ws) (js "empty-") (now2 env) fileName)
    as (seg2 & more2 & He); [repeat constructor|cbn; lia|exact Hname|].
  rewrite tempDirOf_eq, <- app_assoc in Ht, He. cbn [app] in Ht, He.
  rewrite tempDirOf_eq in Hq, H1.
  destruct (writeFileAt fs1 _ newContent) as [fs2|] eqn:E2;
    cbn [files withFiles log]; [|now apply H1].
  pose proof (writeFileAt_below _ _ _ _ _ _ _ Hdir1 Ht E2) as H2.
  assert (Hdir2 : isDirectory fs2 ws = true).
  { rewrite <- Hdir1. now apply (isDirectory_outside _ _ ws (js ".figma-temp")). }
  destruct (writeFileAt fs2 _ []) as [fs3|] eqn:E3;
    cbn [files withFiles log scheduleTempFileCleanup].
  - rewrite (writeFileAt_below _ _ _ _ _ _ _ Hdir2 He E3 q Hq).
    rewrite (H2 q Hq). now apply H1.
  - rewrite (H2 q Hq). now apply H1.
Qed.

Lemma existsSyncAt_ext fs fs' (s : pathString) :
  fs' !! segments s = fs !! segments s ->
  existsSyncAt fs' s = existsSyncAt fs s.
Proof.
  intros H. unfold existsSyncAt, existsSync. now rewrite H.
Qed.

(** The destination of a name without a step upwards lies below the target
    directory, hence outside the scratch directory. *)
Lemma filePathOf_outside_tempDir (ws : path) (options : WriteOptions) :
  Forall (fun seg => seg <> js "..")
    (splitPath (coerceExtension (fileName options))) ->
  isPrefix (tempDirOf ws) (filePathOf ws options) = false.
Proof.
  intros H. unfold filePathOf, destinationOf, join. cbn [segments].
  destruct (fold_pushSegment_below _ (targetDirOf ws options) H)
    as [more ->].
  rewrite tempDirOf_eq, targetDirOf_eq, <- app_assoc. cbn [app].
  apply isPrefix_sibling. unfold targetFolderOf.
  destruct (targetFolder options) as [[]|]; discriminate.
Qed.

End ScratchPaths.

Section UpwardNames.

Local Open Scope N_scope.

Lemma endsWithSeparator_app (a s : jsstring) :
  s <> [] -> endsWithSeparator (a ++ s) = endsWithSeparator s.
Proof.
  intros Hs. unfold endsWithSeparator. rewrite rev_app_distr.
  destruct (rev s) as [|c r] eqn:E; [|reflexivity].
  apply (f_equal (@rev N)) in E. rewrite rev_involutive in E. contradiction.
Qed.

Lemma pushSegment_up (p : path) : pushSegment p (js "..") = removelast p.
Proof.
  unfold pushSegment.
  destruct (decide (js ".." = [])) as [H|_]; [discriminate H|].
  destruct (decide (js ".." = js ".")) as [H|_]; [discriminate H|].
  destruct (decide (js ".." = js "..")) as [_|H]; [reflexivity|].
  now destruct H.
Qed.

Lemma splitPath_upwards (prefix name : jsstring) :
  Forall (fun c => (c =? slash) = false) prefix ->
  Forall (fun c => (c =? slash) = false) name ->
  splitPath (prefix ++ js "../../../" ++ name)
  = [prefix ++ js ".."; js ".."; js ".."; name].
Proof.
  intros Hp Hn.
  destruct (splitPath_prefix prefix (js "../../../" ++ name) Hp)
    as (seg & segs & Hs & ->).
  change (js "../../../" ++ name)
    with (js ".." ++ slash :: (js ".." ++ slash :: (js ".." ++ slash :: name)))
    in Hs.
  rewrite !splitPath_app_slash, (splitPath_no_slash name Hn) in Hs.
  now injection Hs as <- <-.
Qed.

(** A file name that steps upwards three times: its scratch path is a path
    of the workspace folder itself. *)
Lemma tempName_upwards (ws : path) (prefix : jsstring) (now : N)
    (name : jsstring) :
  Forall (fun c => (c =? slash) = false) prefix ->
  (3 <= length prefix)%nat ->
  Forall (fun c => (c =? slash) = false) name -> ordinary name ->
  join (tempDirOf ws) (tempName prefix now (js "../../../" ++ name))
  = {| segments := ws ++ [name]; trailingSeparator := false |}.
Proof.
  intros Hp Hlen Hn Hord.
  assert (Hname : tempName prefix now (js "../../../" ++ name)
                  = ((prefix ++ decimal now) ++ js "-")
                    ++ js "../../../" ++ name).
  { unfold tempName. now rewrite <- !app_assoc. }
  assert (HP : Forall (fun c => (c =? slash) = false)
                 ((prefix ++ decimal now) ++ js "-")).
  { repeat (apply Forall_app; split);
      [exact Hp|apply digits_no_slash|repeat constructor]. }
  unfold join. rewrite Hname. f_equal.
  - rewrite (splitPath_upwards _ name HP Hn). cbn [fold_left].
    rewrite (pushSegment_ordinary (tempDirOf ws)).
    2: { apply ordinary_long. rewrite !length_app. lia. }
    rewrite !pushSegment_up.
    rewrite removelast_last, tempDirOf_eq, removelast_last.
    now apply pushSegment_ordinary.
  - rewrite app_assoc. destruct name as [|c name'].
    + now destruct Hord.
    + rewrite endsWithSeparator_app by discriminate.
      now apply endsWithSeparator_plain.
Qed.

End UpwardNames.

(** ** The reference parsed and the request sent *)

Section RequestLemmas.

Local Open Scope N_scope.

Lemma decode_nonempty (s r : jsstring) :
  decodeURIComponent s = Some r -> s <> [] -> r <> [].
Proof.
  funelim (decodeURIComponent s); intros H Hne; try congruence;
    try (injection H as <-; discriminate).
  injection H as <-. unfold utf16Encode. destruct (v <? 65536); discriminate.
Qed.

Lemma hexValue_lt (c a : N) : hexValue c = Some a -> a < 16.
Proof.
  unfold hexValue, isDigit.
  destruct ((48 <=? c) && (c <=? 57)) eqn:E1.
  { apply andb_true_iff in E1 as [H1 H2].
    apply N.leb_le in H1. apply N.leb_le in H2. intros [= <-]. lia. }
  destruct ((65 <=? c) && (c <=? 70)) eqn:E2.
  { apply andb_true_iff in E2 as [H1 H2].
    apply N.leb_le in H1. apply N.leb_le in H2. intros [= <-]. lia. }
  destruct ((97 <=? c) && (c <=? 102)) eqn:E3; [|discriminate].
  apply andb_true_iff in E3 as [H1 H2].
  apply N.leb_le in H1. apply N.leb_le in H2. intros [= <-]. lia.
Qed.

Lemma parseHexOctet_lt (s : jsstring) (b : N) :
  parseHexOctet s = Some b -> b < 256.
Proof.
  unfold parseHexOctet. destruct s as [|h1 [|h2 s]]; try discriminate.
  destruct (hexValue h1) as [a|] eqn:E1; [|discriminate].
  destruct (hexValue h2) as [a'|] eqn:E2; [|discriminate].
  apply hexValue_lt in E1. apply hexValue_lt in E2. intros [= <-]. lia.
Qed.

Lemma utf16Encode_units (v : N) :
  v <= 1114111 -> Forall isCodeUnit (utf16Encode v).
Proof.
  intros Hv. unfold utf16Encode, isCodeUnit.
  destruct (N.ltb_spec v 65536) as [H|H]; [repeat constructor; exact H|].
  repeat constructor.
  - assert ((v - 65536) / 1024 < 1024)
      by (apply N.Div0.div_lt_upper_bound; lia).
    lia.
  - pose proof (N.mod_lt (v - 65536) 1024). lia.
Qed.

Lemma utf8CodePoint_bound (b : N) (bs : list N) (v : N) :
  b < 256 -> utf8CodePoint b bs = Some v -> v <= 1114111.
Proof.
  intros Hb. unfold utf8CodePoint.
  destruct (forallb _ bs) eqn:Hall; [|discriminate].
  destruct bs as [|o1 [|o2 [|o3 [|o4 bs]]]]; try discriminate.
  - cbn [fold_left].
    destruct (128 <=? _); [|discriminate]. intros [= <-].
    cbn [forallb] in Hall. rewrite andb_true_r in Hall.
    apply andb_true_iff in Hall as [_ H1]. apply N.ltb_lt in H1. lia.
  - cbn [fold_left].
    destruct (_ && _); [|discriminate]. intros [= <-].
    cbn [forallb] in Hall. rewrite andb_true_r in Hall.
    apply andb_true_iff in Hall as [H1 H2].
    apply andb_true_iff in H1 as [_ H1]. apply andb_true_iff in H2 as [_ H2].
    apply N.ltb_lt in H1. apply N.ltb_lt in H2. lia.
  - cbn [fold_left].
    destruct (_ && _) eqn:E; [|discriminate]. intros [= <-].
    apply andb_true_iff in E as [_ E]. now apply N.leb_le in E.
Qed.

(** Decoding yields code units when it is given code units. *)
Lemma decode_units (s r : jsstring) :
  Forall isCodeUnit s -> decodeURIComponent s = Some r -> Forall isCodeUnit r.
Proof.
  funelim (decodeURIComponent s); intros Hs H; try discriminate;
    injection H as <-;
    try (inversion Hs as [|? ? Hc Hrest]; subst).
  all: try solve [constructor].
  all: try solve [constructor; [exact Hc|now apply Hind]].
  all: try solve
    [constructor;
     [match goal with
      | Hb : parseHexOctet _ = Some _ |- _ =>
          apply parseHexOctet_lt in Hb; unfold isCodeUnit; lia
      end
     |apply Hind; [now apply Forall_drop|assumption]]].
  apply Forall_app. split.
  - apply utf16Encode_units.
    match goal with
    | Hv : utf8CodePoint _ _ = Some _ |- _ =>
        eapply utf8CodePoint_bound; [|exact Hv]
    end.
    match goal with
    | Hb : parseHexOctet _ = Some _ |- _ => now apply parseHexOctet_lt in Hb
    end.
  - apply Hind; [now apply Forall_drop|assumption].
Qed.

Lemma Forall_trimStart (P : N -> Prop) (s : jsstring) :
  Forall P s -> Forall P (trimStart s).
Proof.
  induction 1 as [|c s Hc Hs IH]; [constructor|].
  cbn [trimStart]. destruct (isWhiteSpace c); [exact IH|now constructor].
Qed.

Lemma Forall_trim (P : N -> Prop) (s : jsstring) :
  Forall P s -> Forall P (trim s).
Proof.
  intros H. unfold trim, trimEnd.
  apply Forall_rev, Forall_trimStart, Forall_rev, Forall_trimStart, H.
Qed.

(** The identifier captured by the document pattern. *)
Lemma matchFileAt_id (s id : jsstring) :
  matchFileAt s = Some id ->
  id <> [] /\ Forall (fun c => isAlnum c = true) id.
Proof.
  unfold matchFileAt.
  destruct (stripPrefix (js "figma.com/") s) as [r|]; [|discriminate].
  assert (Hc : forall r',
    match stripPrefix (js "/") r' with
    | Some r'' => greedyRun isAlnum r''
    | None => None
    end = Some id ->
    id <> [] /\ Forall (fun c => isAlnum c = true) id).
  { intros r' H. destruct (stripPrefix (js "/") r'); [|discriminate].
    apply greedyRun_Some in H as (H1 & H2 & _). now split. }
  destruct (stripPrefix (js "file") r) as [r1|].
  - destruct (match stripPrefix (js "/") r1 with
              | Some r'' => greedyRun isAlnum r''
              | None => None
              end) eqn:E1.
    + intros [= <-]. exact (Hc _ E1).
    + destruct (stripPrefix (js "design") r) as [r2|]; [|discriminate].
      apply Hc.
  - destruct (stripPrefix (js "design") r) as [r2|]; [|discriminate].
    apply Hc.
Qed.

(** The parameter captured by the node pattern is a part of the text. *)
Lemma matchNodeAt_part (s raw : jsstring) :
  matchNodeAt s = Some raw ->
  raw <> [] /\ exists pre post, s = pre ++ raw ++ post.
Proof.
  unfold matchNodeAt. destruct s as [|c rest]; [discriminate|].
  destruct (isQueryMark c); [|discriminate].
  destruct (stripPrefix (js "node-id=") rest) as [r|] eqn:E; [|discriminate].
  apply stripPrefix_Some in E. intros H.
  apply greedyRun_Some in H as (H1 & _ & post & ->).
  split; [exact H1|]. exists (c :: js "node-id="), post.
  rewrite E. reflexivity.
Qed.

(** What a parsed reference holds. *)
Lemma parseFigmaUrl_parsed (figmaUrl : jsstring) (p : ParsedFigmaUrl) :
  parseFigmaUrl figmaUrl = Parsed p ->
  fileId p <> [] /\ Forall (fun c => isAlnum c = true) (fileId p) /\
  (forall n, nodeId p = Some n ->
     n <> [] /\ (Forall isCodeUnit figmaUrl -> Forall isCodeUnit n)).
Proof.
  unfold parseFigmaUrl. cbv zeta.
  destruct (isBareIdentifier (trim figmaUrl)) eqn:Ebare.
  { intros [= <-]. cbn [fileId nodeId].
    unfold isBareIdentifier in Ebare.
    apply andb_true_iff in Ebare as [Hne Hall].
    split; [|split].
    - intros H. rewrite H in Hne. discriminate.
    - apply List.Forall_forall. now apply forallb_forall.
    - discriminate. }
  destruct (leftmost matchFileAt (trim figmaUrl)) as [id|] eqn:Efile;
    [|discriminate].
  apply leftmost_Some in Efile as (pre & s' & _ & Hid).
  apply matchFileAt_id in Hid as [Hne Hall].
  destruct (leftmost matchNodeAt (trim figmaUrl)) as [raw|] eqn:Enode.
  - destruct (decodeURIComponent raw) as [n|] eqn:Edec; [|discriminate].
    intros [= <-]. cbn [fileId nodeId].
    split; [exact Hne|]. split; [exact Hall|].
    intros n' [= <-].
    apply leftmost_Some in Enode as (pre' & s'' & Htrim & Hraw).
    apply matchNodeAt_part in Hraw as (Hrne & a & b & ->).
    split; [exact (decode_nonempty raw n Edec Hrne)|].
    intros Hunits. apply (decode_units raw n); [|exact Edec].
    apply (Forall_trim isCodeUnit) in Hunits. rewrite Htrim in Hunits.
    apply Forall_app in Hunits as [_ Hunits].
    apply Forall_app in Hunits as [_ Hunits].
    now apply Forall_app in Hunits as [Hunits _].
  - intros [= <-]. cbn [fileId nodeId].
    split; [exact Hne|]. split; [exact Hall|]. discriminate.
Qed.

(** *** The escapes of [encodeURIComponent] *)

Lemma hexDigit_alnum (n : N) : n < 16 -> isAlnum (hexDigit n) = true.
Proof.
  intros H. unfold hexDigit, isAlnum, isAlpha, isUpper, isDigit.
  destruct (N.ltb_spec n 10) as [Hn|Hn].
  - apply orb_true_iff. right. apply andb_true_iff.
    split; apply N.leb_le; lia.
  - apply orb_true_iff. left. apply orb_true_iff. left. apply andb_true_iff.
    split; apply N.leb_le; lia.
Qed.

Lemma escapeOctet_encoded (o : N) :
  o < 256 -> Forall (fun c => isEncoded c = true) (escapeOctet o).
Proof.
  intros H. unfold escapeOctet. repeat constructor.
  - unfold isEncoded, isUnreserved. rewrite hexDigit_alnum; [reflexivity|].
    apply N.Div0.div_lt_upper_bound. lia.
  - unfold isEncoded, isUnreserved. rewrite hexDigit_alnum; [reflexivity|].
    apply N.mod_lt. lia.
Qed.

Lemma utf8Encode_octets (v : N) :
  v <= 1114111 -> Forall (fun o => o < 256) (utf8Encode v).
Proof.
  intros Hv. unfold utf8Encode.
  destruct (N.ltb_spec v 128); [repeat constructor; lia|].
  destruct (N.ltb_spec v 2048).
  { assert (v / 64 < 32) by (apply N.Div0.div_lt_upper_bound; lia).
    pose proof (N.mod_lt v 64). repeat constructor; lia. }
  destruct (N.ltb_spec v 65536).
  { assert (v / 4096 < 16) by (apply N.Div0.div_lt_upper_bound; lia).
    pose proof (N.mod_lt v 64). pose proof (N.mod_lt (v / 64) 64).
    repeat constructor; lia. }
  assert (v / 262144 < 5) by (apply N.Div0.div_lt_upper_bound; lia).
  pose proof (N.mod_lt v 64). pose proof (N.mod_lt (v / 64) 64).
  pose proof (N.mod_lt (v / 4096) 64).
  repeat constructor; lia.
Qed.

Lemma escapeCodePoint_encoded (v : N) :
  v <= 1114111 -> Forall (fun c => isEncoded c = true) (escapeCodePoint v).
Proof.
  intros Hv. unfold escapeCodePoint.
  induction (utf8Encode_octets v Hv) as [|o os Ho _ IH]; [constructor|].
  cbn [flat_map]. apply Forall_app. split; [|exact IH].
  now apply escapeOctet_encoded.
Qed.

Lemma encode_encoded_upto (n : nat) (s e : jsstring) :
  (length s <= n)%nat -> Forall isCodeUnit s ->
  encodeURIComponent s = Some e -> Forall (fun c => isEncoded c = true) e.
Proof.
  revert s e. induction n as [|n IH]; intros s e Hlen Hs H.
  { destruct s; [|cbn in Hlen; lia]. injection H as <-. constructor. }
  destruct s as [|c rest]; [injection H as <-; constructor|].
  cbn [length] in Hlen. inversion Hs as [|? ? Hc Hrest]; subst.
  cbn [encodeURIComponent] in H.
  destruct (isUnreserved c) eqn:Eu.
  { destruct (encodeURIComponent rest) as [r|] eqn:Er; [|discriminate].
    injection H as <-. constructor.
    - unfold isEncoded. now rewrite Eu.
    - apply (IH rest r); [lia|exact Hrest|exact Er]. }
  destruct (isLowSurrogate c); [discriminate|].
  destruct (isHighSurrogate c) eqn:Eh.
  - destruct rest as [|d rest']; [discriminate|].
    destruct (isLowSurrogate d) eqn:El; [|discriminate].
    destruct (encodeURIComponent rest') as [r|] eqn:Er; [|discriminate].
    injection H as <-. inversion Hrest; subst.
    apply Forall_app. split.
    + apply escapeCodePoint_encoded.
      unfold isHighSurrogate in Eh. unfold isLowSurrogate in El.
      apply andb_true_iff in Eh as [Eh1 Eh2].
      apply andb_true_iff in El as [El1 El2].
      apply N.leb_le in Eh1. apply N.leb_le in Eh2.
      apply N.leb_le in El1. apply N.leb_le in El2. nia.
    + apply (IH rest' r); [cbn [length] in Hlen; lia|assumption|exact Er].
  - destruct (encodeURIComponent rest) as [r|] eqn:Er; [|discriminate].
    injection H as <-. apply Forall_app. split.
    + apply escapeCodePoint_encoded. unfold isCodeUnit in Hc. lia.
    + apply (IH rest r); [lia|exact Hrest|exact Er].
Qed.

Lemma encode_encoded (s e : jsstring) :
  Forall isCodeUnit s -> encodeURIComponent s = Some e ->
  Forall (fun c => isEncoded c = true) e.
Proof. apply (encode_encoded_upto (length s)). lia. Qed.

Lemma encode_nonempty (s e : jsstring) :
  encodeURIComponent s = Some e -> s <> [] -> e <> [].
Proof.
  destruct s as [|c rest]; [congruence|]. intros H _.
  cbn [encodeURIComponent] in H.
  assert (Hesc : forall v r, escapeCodePoint v ++ r <> []).
  { intros v r. unfold escapeCodePoint, utf8Encode.
    repeat (destruct (_ <? _)); discriminate. }
  destruct (isUnreserved c).
  { destruct (encodeURIComponent rest); [|discriminate].
    injection H as <-. discriminate. }
  destruct (isLowSurrogate c); [discriminate|].
  destruct (isHighSurrogate c).
  - destruct rest as [|d rest']; [discriminate|].
    destruct (isLowSurrogate d); [|discriminate].
    destruct (encodeURIComponent rest'); [|discriminate].
    injection H as <-. apply Hesc.
  - destruct (encodeURIComponent rest); [|discriminate].
    injection H as <-. apply Hesc.
Qed.

Lemma replaceColons_units (s : jsstring) :
  Forall isCodeUnit s -> Forall isCodeUnit (replaceColons s).
Proof.
  induction 1 as [|c s Hc _ IH]; [constructor|].
  cbn [replaceColons List.map]. constructor; [|exact IH].
  destruct (c =? 58); [unfold isCodeUnit; lia|exact Hc].
Qed.

End RequestLemmas.

(** ** The report of errors *)

Section ReportLemmas.

Local Open Scope N_scope.

Lemma includes_unfold (s sub : jsstring) :
  includes s sub
  = match stripPrefix sub s with
    | Some _ => true
    | None =>
        match s with
        | [] => false
        | _ :: rest => includes rest sub
        end
    end.
Proof. destruct s; reflexivity. Qed.

Lemma includes_part (pre sub post : jsstring) :
  includes (pre ++ sub ++ post) sub = true.
Proof.
  induction pre as [|c pre IH]; rewrite includes_unfold.
  - cbn [app]. now rewrite stripPrefix_app.
  - cbn [app]. destruct (stripPrefix sub _); [reflexivity|exact IH].
Qed.

Lemma first_failing_message tests (t m : jsstring) :
  first_failing tests t = Some m -> In m (List.map snd tests).
Proof.
  induction tests as [|[check mc] tests IH]; [discriminate|].
  cbn [first_failing List.map snd]. destruct (check t).
  - intros [= <-]. now left.
  - intros H. right. exact (IH H).
Qed.

End ReportLemmas.

(** ** Escapes: decoding what was encoded *)

Section Codec.

Local Open Scope N_scope.

(** Division and remainder by constants, for [lia]. *)
Ltac euclid := zify; Z.to_euclidean_division_equations; lia.

(** The clauses of [decodeURIComponent] as one equation. *)
Lemma decode_unfold (s : jsstring) :
  decodeURIComponent s =
  match s with
  | [] => Some []
  | c :: rest =>
      if c =? percent then
        match parseHexOctet rest with
        | None => None
        | Some b =>
            match leadingOnes b with
            | O =>
                match decodeURIComponent (skipn 2 rest) with
                | Some r => Some (b :: r)
                | None => None
                end
            | S O => None
            | S (S k) =>
                if (k <? 3)%nat then
                  match continuationOctets (S k) (skipn 2 rest) with
                  | None => None
                  | Some bs =>
                      match utf8CodePoint b bs with
                      | None => None
                      | Some v =>
                          match decodeURIComponent
                                  (skipn (2 + 3 * S k) rest) with
                          | Some r => Some (utf16Encode v ++ r)
                          | None => None
                          end
                      end
                  end
                else None
            end
        end
      else
        match decodeURIComponent rest with
        | Some r => Some (c :: r)
        | None => None
        end
  end.
Proof.
  funelim (decodeURIComponent s); try reflexivity;
    repeat match goal with
           | H : decodeURIComponent _ = match _ with _ => _ end |- _ => clear H
           | H : _ = decodeURIComponent (_ :: _) |- _ => clear H
           end;
    repeat match goal with
           | H : _ = _ |- _ => rewrite H; clear H
           end; reflexivity.
Qed.

Lemma hexValue_hexDigit (n : N) : n < 16 -> hexValue (hexDigit n) = Some n.
Proof.
  intros H. destruct n as [|p]; [reflexivity|].
  repeat (destruct p as [p|p|]; try lia; try reflexivity).
Qed.

Lemma parseHexOctet_escape (o : N) (rest : jsstring) :
  o < 256 ->
  parseHexOctet (hexDigit (o / 16) :: hexDigit (o mod 16) :: rest) = Some o.
Proof.
  intros H. unfold parseHexOctet.
  rewrite !hexValue_hexDigit by euclid. f_equal. euclid.
Qed.

(** The escaped octets that continue a sequence are read back. *)
Lemma continuation_escape (os : list N) (r : jsstring) :
  Forall (fun o => o < 256) os ->
  continuationOctets (length os) (flat_map escapeOctet os ++ r) = Some os /\
  skipn (3 * length os) (flat_map escapeOctet os ++ r) = r.
Proof.
  induction 1 as [|o os Ho _ [IH1 IH2]]; [split; reflexivity|].
  cbn [length flat_map]. unfold escapeOctet at 1 3. cbn [app].
  split.
  - cbn [continuationOctets]. rewrite N.eqb_refl.
    rewrite (parseHexOctet_escape o _ Ho). cbn [skipn].
    rewrite skipn_O. now rewrite IH1.
  - replace (3 * S (length os))%nat with (3 + 3 * length os)%nat by lia.
    cbn [skipn Nat.add]. exact IH2.
Qed.

(** A sequence of two to four escaped octets is read back as the code
    point its octets encode. *)
Lemma decode_sequence (b : N) (os : list N) (k : nat) (v : N)
    (r : jsstring) :
  b < 256 -> Forall (fun o => o < 256) os ->
  leadingOnes b = S (S k) -> (k < 3)%nat -> length os = S k ->
  utf8CodePoint b os = Some v ->
  decodeURIComponent (flat_map escapeOctet (b :: os) ++ r)
  = match decodeURIComponent r with
    | Some x => Some (utf16Encode v ++ x)
    | None => None
    end.
Proof.
  intros Hb Hos Hlead Hk Hlen Hv.
  cbn [flat_map]. rewrite <- app_assoc.
  rewrite decode_unfold. unfold escapeOctet at 1. cbn [app].
  rewrite N.eqb_refl, (parseHexOctet_escape b _ Hb), Hlead.
  apply Nat.ltb_lt in Hk. rewrite Hk.
  destruct (continuation_escape os r Hos) as [Hc Hs].
  cbn [skipn]. rewrite ?skipn_O. rewrite <- Hlen, Hc, Hv.
  replace (2 + 3 * length os)%nat with (S (S (3 * length os))) by lia.
  cbn [skipn]. now rewrite Hs.
Qed.

Lemma leb_true (a b : N) : a <= b -> (a <=? b) = true.
Proof. apply N.leb_le. Qed.

Lemma ltb_true (a b : N) : a < b -> (a <? b) = true.
Proof. apply N.ltb_lt. Qed.

Lemma ltb_false (a b : N) : b <= a -> (a <? b) = false.
Proof. apply N.ltb_ge. Qed.

Lemma leb_false (a b : N) : b < a -> (a <=? b) = false.
Proof. apply N.leb_gt. Qed.

(** The escape of a code point that is no surrogate is read back. *)
Lemma decode_escapeCodePoint (v : N) (r : jsstring) :
  v <= 1114111 -> (v < 55296 \/ 57343 < v) ->
  decodeURIComponent (escapeCodePoint v ++ r)
  = match decodeURIComponent r with
    | Some x => Some (utf16Encode v ++ x)
    | None => None
    end.
Proof.
  intros Hmax Hsur. unfold escapeCodePoint, utf8Encode.
  destruct (N.ltb_spec v 128) as [H1|H1].
  { cbn [flat_map app]. rewrite app_nil_r.
    rewrite decode_unfold. unfold escapeOctet. cbn [app].
    rewrite N.eqb_refl, parseHexOctet_escape by lia.
    unfold leadingOnes. rewrite (ltb_true v 128 H1). cbn [skipn].
    rewrite ?skipn_O. unfold utf16Encode. rewrite ltb_true by lia. reflexivity. }
  destruct (N.ltb_spec v 2048) as [H2|H2].
  { apply (decode_sequence _ _ 0%nat); try reflexivity; try lia.
    - euclid.
    - repeat constructor. euclid.
    - unfold leadingOnes.
      rewrite !ltb_false by euclid. now rewrite ltb_true by euclid.
    - unfold utf8CodePoint. cbn [forallb fold_left].
      rewrite leb_true, ltb_true by euclid. cbn [andb].
      replace (0 + (192 + v / 64 - 192) * 64 + (128 + v mod 64 - 128))
        with v by euclid.
      replace ((192 + v / 64 - 192) * 64 + (128 + v mod 64 - 128))
        with v by euclid.
      now rewrite leb_true by lia. }
  destruct (N.ltb_spec v 65536) as [H3|H3].
  { apply (decode_sequence _ _ 1%nat); try reflexivity; try lia.
    - euclid.
    - repeat constructor; euclid.
    - unfold leadingOnes.
      rewrite !ltb_false by euclid. now rewrite ltb_true by euclid.
    - unfold utf8CodePoint. cbn [forallb fold_left].
      match goal with
      | |- context [if _ then Some ?e else None] => replace e with v by euclid
      end.
      rewrite !leb_true, !ltb_true by euclid. cbn [andb].
      destruct Hsur as [Hs|Hs].
      + rewrite (leb_false 55296 v) by lia. reflexivity.
      + rewrite (leb_false v 57343) by lia. now rewrite andb_false_r. }
  apply (decode_sequence _ _ 2%nat); try reflexivity; try lia.
  - euclid.
  - repeat constructor; euclid.
  - unfold leadingOnes.
    rewrite !ltb_false by euclid. now rewrite ltb_true by euclid.
  - unfold utf8CodePoint. cbn [forallb fold_left].
    match goal with
    | |- context [if _ then Some ?e else None] => replace e with v by euclid
    end.
    rewrite !leb_true, !ltb_true by euclid. reflexivity.
Qed.

Lemma unreserved_not_percent (c : N) :
  isUnreserved c = true -> (c =? percent) = false.
Proof.
  intros H. destruct (N.eqb_spec c percent) as [->|]; [|reflexivity].
  discriminate.
Qed.

Lemma decode_encode_upto (n : nat) (s e : jsstring) :
  (length s <= n)%nat -> Forall isCodeUnit s ->
  encodeURIComponent s = Some e -> decodeURIComponent e = Some s.
Proof.
  revert s e. induction n as [|n IH]; intros s e Hlen Hs H.
  { destruct s; [|cbn in Hlen; lia]. injection H as <-. reflexivity. }
  destruct s as [|c rest]; [injection H as <-; reflexivity|].
  cbn [length] in Hlen. inversion Hs as [|? ? Hc Hrest]; subst.
  unfold isCodeUnit in Hc. cbn [encodeURIComponent] in H.
  destruct (isUnreserved c) eqn:Eu.
  { destruct (encodeURIComponent rest) as [r|] eqn:Er; [|discriminate].
    injection H as <-. rewrite decode_unfold.
    rewrite (unreserved_not_percent c Eu).
    now rewrite (IH rest r) by (try lia; assumption). }
  destruct (isLowSurrogate c) eqn:Elow; [discriminate|].
  destruct (isHighSurrogate c) eqn:Eh.
  - destruct rest as [|d rest']; [discriminate|].
    destruct (isLowSurrogate d) eqn:El; [|discriminate].
    destruct (encodeURIComponent rest') as [r|] eqn:Er; [|discriminate].
    injection H as <-. inversion Hrest; subst.
    unfold isHighSurrogate in Eh. unfold isLowSurrogate in El.
    apply andb_true_iff in Eh as [Eh1 Eh2].
    apply andb_true_iff in El as [El1 El2].
    apply N.leb_le in Eh1. apply N.leb_le in Eh2.
    apply N.leb_le in El1. apply N.leb_le in El2.
    rewrite decode_escapeCodePoint by lia.
    rewrite (IH rest' r) by (try (cbn [length] in Hlen; lia); assumption).
    f_equal. unfold utf16Encode. rewrite ltb_false by lia.
    cbn [app]. f_equal; [euclid|]. f_equal. euclid.
  - destruct (encodeURIComponent rest) as [r|] eqn:Er; [|discriminate].
    injection H as <-.
    unfold isHighSurrogate in Eh. unfold isLowSurrogate in Elow.
    rewrite decode_escapeCodePoint.
    + rewrite (IH rest r) by (try lia; assumption).
      unfold utf16Encode. now rewrite ltb_true by lia.
    + lia.
    + destruct (N.leb_spec 55296 c) as [H1|H1]; [|now left].
      right. cbn [andb] in Eh.
      destruct (N.leb_spec c 56319) as [H2|H2]; [discriminate|].
      destruct (N.leb_spec 56320 c) as [H3|H3]; [|lia].
      cbn [andb] in Elow. apply N.leb_gt in Elow. exact Elow.
Qed.

(** What [encodeURIComponent] writes, [decodeURIComponent] reads back. *)
Lemma decode_encode (s e : jsstring) :
  Forall isCodeUnit s -> encodeURIComponent s = Some e ->
  decodeURIComponent e = Some s.
Proof. apply (decode_encode_upto (length s)). lia. Qed.

End Codec.

Section CodecUse.

Local Open Scope N_scope.

Lemma encoded_not_ampersand (c : N) :
  isEncoded c = true -> notAmpersand c = true.
Proof.
  intros H. unfold notAmpersand.
  destruct (N.eqb_spec c 38) as [->|]; [discriminate|reflexivity].
Qed.

End CodecUse.

(* ===================================================================== *)
(** * Part III: the claims of the specification                           *)
(* ===================================================================== *)

(** ** Utility-scale mapper *)

(** C3 (the code departs from the claim).  The font-size and corner-radius
    scales are ascending and paired by construction, and the spacing raw
    values are ascending, but the two spacing tables are not paired 1:1:
    [SPACING_SCALE_PX] has 24 entries and [SPACING_UNITS] has 34.  From
    index 17 on the label read by [spacingToTailwind] is not the label of
    the matched raw value: 64px is matched exactly at index 20, whose label
    is "24" (96px at 4px per unit) instead of "16". *)
Theorem spacing_tables_not_paired :
  ascending_entries TEXT_SIZE_SCALE = true /\
  ascending_entries RADIUS_SCALE = true /\
  ascendingb SPACING_SCALE_PX = true /\
  length SPACING_SCALE_PX = 24%nat /\
  length SPACING_UNITS = 34%nat /\
  findClosestIndex 64 SPACING_SCALE_PX = 20%Z /\
  lookupZ SPACING_SCALE_PX 20 = Some 64 /\
  spacingToTailwind 64 = js "24" /\
  lookupZ SPACING_UNITS 18 = Some (js "16").
Proof. vm_compute. tauto. Qed.

(** C4, counterexample.  The value 4 is an entry of the scale, yet with the
    tolerance argument -1 the result is [null]: the claim "regardless of
    tolerance" fails for a negative tolerance. *)
Lemma exact_entry_rejected_by_negative_tolerance :
  ascendingb [0; 4; 8] = true /\ In 4 [0; 4; 8] /\
  findNearestWithTolerance 4 [0; 4; 8] (Some (-1)) = None.
Proof.
  split; [reflexivity|]. split; [right; left; reflexivity|].
  vm_compute. reflexivity.
Qed.

(** C4, amended.  The distance is the one the source computes,
    [Math.abs(entry - v)] in double precision: the exact distance whenever
    the subtraction is exact, as for whole numbers of pixels, and the
    distance rounded to the nearest double otherwise.  The statement holds
    for every rounding [round] that is monotone and keeps 0.  Over a
    non-empty ascending scale, let [c] be the matched entry (one of minimum
    computed distance to [v]) and [eff] the effective tolerance (the
    argument, or by default max(c/2, 2)).  The result is [c] when the
    computed distance is within [eff] and [null] when it exceeds [eff]; so
    a returned value never has a computed distance from [v] of more than
    [eff].  When [v] equals a scale entry and [eff] is not negative, which
    the default tolerance always satisfies, the result is an entry at
    computed distance 0: the entry equal to [v], since the difference of
    two distinct doubles is never rounded to 0. *)
Theorem findNearestWithTolerance_gate (round : Q -> Q) (v : Q)
    (scale : list Q) (tolerance : option Q)
    (Hround : forall a b : Q, a <= b -> round a <= round b)
    (Hzero : round 0 == 0)
    (Hasc : ascendingb scale = true) (Hne : scale <> []) :
  let dist := fun x => Binary64.absDiff round x v in
  let result := Binary64.findNearestWithTolerance round v scale tolerance in
  exists c : Q,
    In c scale /\
    (forall y, In y scale -> dist c <= dist y) /\
    let eff :=
      match tolerance with
      | Some t => t
      | None => Qmax (round (c * (1 # 2))) 2
      end in
    (dist c <= eff -> result = Some c) /\
    (eff < dist c -> result = None) /\
    (forall r, result = Some r -> In r scale /\ dist r <= eff) /\
    (tolerance = None -> 0 <= eff) /\
    (forall e, In e scale -> e == v -> 0 <= eff ->
               exists r, result = Some r /\ dist r == 0 /\
                         ((forall y, In y scale -> dist y == 0 -> y == v) ->
                          r == v)).
Proof.
  intros dist result.
  destruct (rounded_findClosestIndex_minimal round Hround Hzero v scale
              Hasc Hne) as (c & Hc & Hmin).
  exists c. split; [eapply lookupZ_In, Hc|]. split; [exact Hmin|].
  cbv zeta.
  set (eff := match tolerance with
              | Some t => t
              | None => Qmax (round (c * (1 # 2))) 2
              end).
  assert (Hrun : result = if Qltb eff (dist c) then None else Some c).
  { unfold result, Binary64.findNearestWithTolerance.
    destruct scale as [|s0 rest]; [congruence|].
    apply lookupZ_Some in Hc as [_ Hc].
    rewrite (nth_error_nth _ _ s0 Hc). reflexivity. }
  assert (Hin : dist c <= eff -> result = Some c).
  { intros H. rewrite Hrun.
    destruct (Qltb eff (dist c)) eqn:E; [|reflexivity].
    apply Qltb_lt in E. lra. }
  split; [exact Hin|]. split; [|split; [|split]].
  - intros H. rewrite Hrun. apply Qltb_lt in H. now rewrite H.
  - intros r Hr. rewrite Hrun in Hr.
    destruct (Qltb eff (dist c)) eqn:E; [discriminate|].
    injection Hr as <-. apply Qltb_ge in E.
    split; [eapply lookupZ_In, Hc | exact E].
  - intros ->. unfold eff.
    pose proof (Q.le_max_r (round (c * (1 # 2))) 2). lra.
  - intros e He Hev Heff.
    assert (Hd : dist c == 0).
    { specialize (Hmin e He).
      pose proof (rounded_dist_eq round Hround Hzero v e Hev) as He0.
      pose proof (rounded_dist_nonneg round v c) as Hc0.
      unfold dist in *. lra. }
    exists c. split; [apply Hin; lra|]. split; [exact Hd|].
    intros Hsep. apply Hsep; [eapply lookupZ_In, Hc|exact Hd].
Qed.

Lemma findNearestWithTolerance_gate_witness :
  (forall a b : Q, a <= b -> Binary64.exact a <= Binary64.exact b) /\
  Binary64.exact 0 == 0 /\
  ascendingb SPACING_SCALE_PX = true /\ SPACING_SCALE_PX <> [] /\
  exists c : Q,
    In c SPACING_SCALE_PX /\
    (Binary64.absDiff Binary64.exact c 13 <= 2 ->
     Binary64.findNearestWithTolerance Binary64.exact 13 SPACING_SCALE_PX
       (Some 2) = Some c).
Proof.
  split; [exact (fun a b H => H)|]. split; [reflexivity|].
  split; [reflexivity|]. split; [discriminate|].
  destruct (findNearestWithTolerance_gate Binary64.exact 13 SPACING_SCALE_PX
              (Some 2) (fun a b H => H) (Qeq_refl 0) eq_refl
              ltac:(discriminate))
    as (c & Hin & _ & Hgate & _).
  exists c. split; [exact Hin|exact Hgate].
Defined.

(** C5, counterexample.  In the ascending spacing scale the entries 24
    (index 10) and 28 (index 11) are equally far from 26, and the binary
    search answers the higher index 11: it probes index 11 before index 10
    and a later equal distance never replaces the first one found. *)
Lemma tie_resolved_to_higher_index :
  ascendingb SPACING_SCALE_PX = true /\
  lookupZ SPACING_SCALE_PX 10 = Some 24 /\
  lookupZ SPACING_SCALE_PX 11 = Some 28 /\
  Qabs (24 - 26) == Qabs (28 - 26) /\
  findClosestIndex 26 SPACING_SCALE_PX = 11%Z.
Proof. vm_compute. tauto. Qed.

(** C5, amended.  The distance is the one the source computes,
    [Math.abs(entry - v)] in double precision (the exact distance whenever
    the subtraction is exact, as for whole numbers of pixels); the
    statement holds for every rounding [round] that is monotone and keeps
    0.  For every value and every non-empty ascending scale,
    [findClosestIndex] returns an index whose raw value has minimum
    computed distance to the value (which of two entries of equal computed
    distance is returned depends on the probing order).  For every
    non-empty table of entries, [findClosestKey] returns the key of an
    entry of minimum computed distance, and every entry before it is
    strictly farther: on a tie the lower index wins.  Font size 19, between
    18 and 20, maps to the label of 18. *)
Theorem nearest_search_minimal (round : Q -> Q) (v : Q) (scale : list Q)
    (entries : list (jsstring * Q))
    (Hround : forall a b : Q, a <= b -> round a <= round b)
    (Hzero : round 0 == 0)
    (Hasc : ascendingb scale = true) (Hne : scale <> [])
    (Hentries : entries <> []) :
  let dist := fun x => Binary64.absDiff round x v in
  (exists x,
      lookupZ scale (Binary64.findClosestIndex round v scale) = Some x /\
      forall y, In y scale -> dist x <= dist y) /\
  (exists (k : jsstring) (i : nat) (x : Q),
      Binary64.findClosestKey round v entries = Some k /\
      nth_error entries i = Some (k, x) /\
      (forall j e, nth_error entries j = Some e -> dist x <= dist (snd e)) /\
      (forall j e, (j < i)%nat -> nth_error entries j = Some e ->
                   dist x < dist (snd e))) /\
  fontSizeToTailwind 19 = Some (js "text-lg").
Proof.
  intros dist.
  split; [now apply rounded_findClosestIndex_minimal|]. split; [|reflexivity].
  destruct (rounded_findClosestKey_first_minimal round v entries Hentries)
    as ([k d] & Hk & i & x & Hi & Hd & Hall & Hbefore).
  cbn [fst snd] in *. exists k, i, x. unfold dist. rewrite <- Hd. auto.
Qed.

Lemma nearest_search_minimal_witness :
  (forall a b : Q, a <= b -> Binary64.exact a <= Binary64.exact b) /\
  Binary64.exact 0 == 0 /\
  ascendingb SPACING_SCALE_PX = true /\ SPACING_SCALE_PX <> [] /\
  TEXT_SIZE_SCALE <> [] /\
  exists x,
    lookupZ SPACING_SCALE_PX
      (Binary64.findClosestIndex Binary64.exact 19 SPACING_SCALE_PX)
    = Some x /\
    forall y, In y SPACING_SCALE_PX ->
              Binary64.absDiff Binary64.exact x 19
              <= Binary64.absDiff Binary64.exact y 19.
Proof.
  split; [exact (fun a b H => H)|]. split; [reflexivity|].
  split; [reflexivity|]. split; [discriminate|]. split; [discriminate|].
  exact (proj1 (nearest_search_minimal Binary64.exact 19 SPACING_SCALE_PX
                  TEXT_SIZE_SCALE (fun a b H => H) (Qeq_refl 0)
                  eq_refl ltac:(discriminate) ltac:(discriminate))).
Defined.

(** C6, counterexample.  -8 is below the smallest spacing entry 0, whose
    label is "0", yet [spacingToTailwind] answers "-2": the sign is
    stripped first.  And in the ascending scale [5; 5] the value 5 is at or
    above the largest entry, yet the index 0 is returned, not the last
    index 1.  (At the top of the spacing scale the label returned for
    100px, "36", is the one that the unpaired tables of C3 put at the last
    index.) *)
Lemma clamping_counterexamples :
  (-8 <= 0 /\ lookupZ SPACING_SCALE_PX 0 = Some 0 /\
   lookupZ SPACING_UNITS 0 = Some (js "0") /\
   spacingToTailwind (-8) = js "-2") /\
  (ascendingb [5; 5] = true /\ List.last [5; 5] 0 <= 5 /\
   findClosestIndex 5 [5; 5] = 0%Z) /\
  (List.last SPACING_SCALE_PX 0 <= 100 /\ spacingToTailwind 100 = js "36").
Proof.
  split; [|split].
  - split; [discriminate|]. vm_compute. tauto.
  - split; [reflexivity|]. split; [discriminate|]. reflexivity.
  - split; [discriminate|]. reflexivity.
Qed.

(** C6, amended.  [findClosestIndex] returns index 0 for every value at or
    below the first entry, and the last index for every value above the
    first entry that is at or above the last one; nothing is extrapolated.
    [spacingToTailwind] applies this clamp to the magnitude of its
    argument: every value of 96 or more is mapped as 96 is, every value of
    -96 or less as 96 is, with the marker "-" in front, and 0 is mapped to
    "0", the label of the smallest entry.  A negative value is not clamped
    to the smallest entry: it is mapped by its magnitude and marked.
    (Which label 96 itself gets is the matter of C3.) *)
Theorem findClosestIndex_clamps (v s0 : Q) (rest : list Q) :
  (v <= s0 -> findClosestIndex v (s0 :: rest) = 0%Z) /\
  (s0 < v -> List.last (s0 :: rest) s0 <= v ->
   findClosestIndex v (s0 :: rest) = (Z.of_nat (length (s0 :: rest)) - 1)%Z) /\
  (96 <= v -> spacingToTailwind v = spacingToTailwind 96) /\
  (v <= -96 -> spacingToTailwind v = js "-" ++ spacingToTailwind 96) /\
  (v == 0 -> spacingToTailwind v = js "0") /\
  (v < 0 -> spacingToTailwind v = js "-" ++ spacingToTailwind (- v)).
Proof.
  assert (Htop : forall a, 96 <= a -> findClosestIndex a SPACING_SCALE_PX = 23%Z).
  { intros a H. unfold findClosestIndex, SPACING_SCALE_PX.
    destruct (Qle_bool a 0) eqn:E0.
    { apply Qle_bool_iff in E0. lra. }
    cbn [List.last]. apply Qle_bool_iff in H. now rewrite H. }
  split; [|split; [|split; [|split; [|split]]]].
  - intros H. destruct rest as [|s1 rest]; [reflexivity|].
    unfold findClosestIndex. apply Qle_bool_iff in H. now rewrite H.
  - intros H0 H1. destruct rest as [|s1 rest]; [reflexivity|].
    unfold findClosestIndex.
    apply Qle_bool_gt in H0. rewrite H0.
    apply Qle_bool_iff in H1. now rewrite H1.
  - intros H. unfold spacingToTailwind at 1.
    rewrite (proj2 (Qltb_ge v 0)) by lra.
    rewrite Htop by (qabs; lra). reflexivity.
  - intros H. unfold spacingToTailwind at 1.
    rewrite (proj2 (Qltb_lt v 0)) by lra.
    rewrite Htop by (qabs; lra). reflexivity.
  - intros H. unfold spacingToTailwind.
    assert (Hn : Qltb v 0 = false) by (apply Qltb_ge; lra).
    assert (Hz : Qle_bool (Qabs v) 0 = true).
    { apply Qle_bool_iff. qabs; lra. }
    rewrite Hn. unfold findClosestIndex, SPACING_SCALE_PX. rewrite Hz.
    reflexivity.
  - intros H. unfold spacingToTailwind.
    rewrite (proj2 (Qltb_lt v 0)) by lra.
    rewrite (proj2 (Qltb_ge (- v) 0)) by lra.
    now rewrite Qabs_opp_eq.
Qed.

Lemma findClosestIndex_clamps_witness :
  findClosestIndex (-3) SPACING_SCALE_PX = 0%Z /\
  spacingToTailwind 100 = spacingToTailwind 96.
Proof.
  split.
  - apply (proj1 (findClosestIndex_clamps (-3) 0 (List.tl SPACING_SCALE_PX))).
    discriminate.
  - apply (proj1 (proj2 (proj2 (findClosestIndex_clamps 100 0 [])))).
    discriminate.
Defined.

(** C7, counterexample.  For the value 0 both sides of the claimed equation
    are computed from "0": the left one is "0", the right one "-0". *)
Lemma negation_marker_fails_at_zero :
  spacingToTailwind (Qopp 0) = js "0" /\
  js "-" ++ spacingToTailwind 0 = js "-0".
Proof. split; reflexivity. Qed.

(** C7, amended.  For every value [v] greater than 0, [spacingToTailwind]
    applied to [-v] is [spacingToTailwind v] prefixed with the marker "-":
    the sign is stripped, the absolute value is mapped, and the marker is
    put back.  (At 0 no marker is added, and a negative [v] already carries
    it.) *)
Theorem spacingToTailwind_negation (v : Q) (Hpos : 0 < v) :
  spacingToTailwind (- v) = js "-" ++ spacingToTailwind v.
Proof.
  unfold spacingToTailwind. rewrite Qabs_opp_eq.
  assert (H1 : Qltb (- v) 0 = true) by (apply Qltb_lt; lra).
  assert (H2 : Qltb v 0 = false) by (apply Qltb_ge; lra).
  rewrite H1, H2. reflexivity.
Qed.

Lemma spacingToTailwind_negation_witness :
  0 < 8 /\ spacingToTailwind (Qopp 8) = js "-" ++ spacingToTailwind 8.
Proof.
  split; [reflexivity|]. apply spacingToTailwind_negation. reflexivity.
Defined.


(** ** Output validator *)

(** C1, counterexample.  The class attribute of this text has a value with
    a colon, written in an expression container; the text passes every
    check and is returned. *)
Lemma validator_accepts_colon_in_class_expression :
  validateJSXOutput (js "<div className={'color:red'}>x</div>")
  = Return (js "<div className={'color:red'}>x</div>").
Proof. vm_compute. reflexivity. Qed.

(** C1, amended.  For every input string [validateJSXOutput] runs the
    ordered gate [gate] over the trimmed text and fails closed on the
    patterns it tests.  It throws the message of the first condition that
    holds, in this order: the trimmed text is empty; it contains no
    markup-element-like pattern; it contains [style = { ... }] (inline style,
    object form); [style =] followed by a quoted run (string form); a
    [<style ...> ... </style>] block in any letter case; a CSS-in-JS
    authoring pattern; a className attribute with a quoted value in which a
    colon or semicolon occurs before any further quote character; on one
    line, the import keyword directly followed by a quoted path ending in
    [.css] (a side-effect stylesheet import); on one line, an import with a
    binding from a quoted path ending in [.module.css]; a require of a
    quoted path ending in [.css].  Later conditions are not consulted once one
    holds, the messages are pairwise distinct, and the trimmed text is
    returned exactly when no condition holds.  The instances listed by the
    specification are each rejected with their own message and bare utility
    tokens are accepted. *)
Theorem validateJSXOutput_gate (jsxCode : jsstring) :
  (forall m, validateJSXOutput jsxCode = Throw m <->
             first_violation gate (trim jsxCode) m) /\
  (forall t, validateJSXOutput jsxCode = Return t <->
             t = trim jsxCode /\ Forall (fun c => ~ fst c t) gate) /\
  NoDup (List.map snd gate) /\
  validateJSXOutput (js "<div style={{color: 'red'}}>x</div>")
    = Throw MSG_INLINE_STYLE /\
  validateJSXOutput (js "<div style='color: red'>x</div>")
    = Throw MSG_STYLE_STRING /\
  validateJSXOutput (js "<div><style>.a{color: red}</style></div>")
    = Throw MSG_STYLE_TAG /\
  validateJSXOutput (js "const A = styled.div; <A />")
    = Throw MSG_CSS_IN_JS /\
  validateJSXOutput (js "<div className='color: red'>x</div>")
    = Throw MSG_CSS_IN_CLASSNAME /\
  validateJSXOutput (js "import './button.css'; <A />")
    = Throw MSG_CSS_IMPORT /\
  validateJSXOutput (js "  <div className='flex p-4 text-lg'>x</div>  ")
    = Return (js "<div className='flex p-4 text-lg'>x</div>").
Proof.
  split; [|split; [|split]].
  - intros m. rewrite validateJSXOutput_first_failing.
    rewrite <- (first_failing_Some gate_tests gate _ _ gate_tests_decide).
    destruct (first_failing gate_tests (trim jsxCode)); split; congruence.
  - intros t. rewrite validateJSXOutput_first_failing.
    destruct (first_failing gate_tests (trim jsxCode)) eqn:E.
    + split; [discriminate|]. intros [-> HF].
      apply (first_failing_None gate_tests gate _ gate_tests_decide) in HF.
      congruence.
    + apply (first_failing_None gate_tests gate _ gate_tests_decide) in E.
      split; [intros [= <-]; auto|intros [-> _]; reflexivity].
  - apply (bool_decide_unpack _). vm_compute. reflexivity.
  - vm_compute. repeat split.
Qed.

(** C10, counterexample.  The class built by [withBreakpoint] for the [md]
    breakpoint stands in a className expression container, and the text is
    validated and returned. *)
Lemma breakpoint_class_in_validated_output :
  withBreakpoint BP_md (js "flex") = js "md:flex" /\
  validateJSXOutput
    (js "<div className={'" ++ withBreakpoint BP_md (js "flex")
     ++ js "'}>x</div>")
  = Return (js "<div className={'md:flex'}>x</div>").
Proof. split; vm_compute; reflexivity. Qed.

(** C10, amended.  For every breakpoint prefix and every non-empty class
    string [c], [withBreakpoint] returns the prefix, a colon and [c]; and
    every text that contains a className attribute with a quoted value
    (the name, optional white space, the equals sign, optional white space,
    a quote character) in which no further quote character stands before
    such a colon-prefixed class is rejected by [validateJSXOutput]: by its
    className check, or by one of the six checks before it. *)
Theorem quoted_breakpoint_class_rejected (bp : Breakpoint)
    (c pre ws1 ws2 a b post : jsstring) (q1 q2 : N)
    (Hc : c <> [])
    (Hws1 : Forall (fun x => isWhiteSpace x = true) ws1)
    (Hws2 : Forall (fun x => isWhiteSpace x = true) ws2)
    (Hq1 : isQuote q1 = true) (Hq2 : isQuote q2 = true)
    (Ha : Forall (fun x => negb (isQuote x) = true) a) :
  withBreakpoint bp c = breakpoint_text bp ++ js ":" ++ c /\
  exists m,
    validateJSXOutput
      (pre ++ js "className" ++ ws1 ++ js "=" ++ ws2 ++ [q1] ++ a ++
       withBreakpoint bp c ++ b ++ [q2] ++ post) = Throw m /\
    In m [MSG_EMPTY; MSG_NO_JSX; MSG_INLINE_STYLE; MSG_STYLE_STRING;
          MSG_STYLE_TAG; MSG_CSS_IN_JS; MSG_CSS_IN_CLASSNAME].
Proof.
  split; [now apply withBreakpoint_nonempty|].
  pose proof (quoted_breakpoint_class_detected bp c pre ws1 ws2 a b post
                q1 q2 Hc Hws1 Hws2 Hq1 Hq2 Ha) as Hcont.
  apply test_contains in Hcont.
  rewrite validateJSXOutput_first_failing.
  cbn [first_failing gate_tests].
  repeat match goal with
         | |- context [if ?b then Some ?m else _] =>
             lazymatch m with
             | MSG_CSS_IN_CLASSNAME => fail
             | _ => destruct b; [eexists; split; [reflexivity|cbn; tauto]|]
             end
         end.
  rewrite Hcont. eexists; split; [reflexivity|cbn; tauto].
Qed.

Lemma quoted_breakpoint_class_rejected_witness :
  js "flex" <> [] /\
  exists m,
    validateJSXOutput
      (js "<div " ++ js "className" ++ [] ++ js "=" ++ [] ++ [squote] ++
       js "p-4 " ++ withBreakpoint BP_lg (js "flex") ++ [] ++ [squote] ++
       js ">x</div>") = Throw m.
Proof.
  split; [discriminate|].
  destruct (quoted_breakpoint_class_rejected BP_lg (js "flex") (js "<div ")
              [] [] (js "p-4 ") [] (js ">x</div>") squote squote
              ltac:(discriminate) ltac:(constructor) ltac:(constructor)
              eq_refl eq_refl ltac:(repeat constructor))
    as (_ & m & Hm & _).
  exists m. exact Hm.
Defined.


(** ** Reference parser *)

(** C8.  [parseFigmaUrl] recovers the document id and the URL-decoded node
    id from a well-formed URL: a text without white space in which the
    first [figma.com/file/] or [figma.com/design/] path segment is followed
    by the alphanumeric document id and a slash, and in which the first
    occurrence of [node-id=], behind a question mark or an ampersand, is
    followed by the encoded node id up to the next ampersand or the end.
    It returns a bare alphanumeric identifier verbatim as the document id,
    without node id.  And when the trimmed input is no bare identifier and
    contains no match of the document pattern, it throws the invalid-format
    error whose message carries the original input. *)
Theorem parseFigmaUrl_recovers_reference :
  (forall (prefix kind fid name enc tail node : jsstring) (sep : N),
      let before :=
        prefix ++ js "figma.com/" ++ kind ++ js "/" ++ fid ++ js "/" ++ name in
      let url := before ++ sep :: js "node-id=" ++ enc ++ tail in
      Forall (fun c => isWhiteSpace c = false) url ->
      Forall (fun c => (102 =? c)%N = false) prefix ->
      kind = js "file" \/ kind = js "design" ->
      fid <> [] -> Forall (fun c => isAlnum c = true) fid ->
      ~ contains (lit (js "node-id=")) before ->
      isQueryMark sep = true ->
      enc <> [] -> Forall (fun c => notAmpersand c = true) enc ->
      match tail with [] => True | x :: _ => x = 38%N end ->
      decodeURIComponent enc = Some node ->
      parseFigmaUrl url = Parsed {| fileId := fid; nodeId := Some node |}) /\
  (forall id : jsstring,
      id <> [] -> Forall (fun c => isAlnum c = true) id ->
      parseFigmaUrl id = Parsed {| fileId := id; nodeId := None |}) /\
  (forall s : jsstring,
      isBareIdentifier (trim s) = false ->
      ~ contains filePattern (trim s) ->
      parseFigmaUrl s = ThrowError (js "Invalid Figma URL format: " ++ s)).
Proof.
  split; [|split].
  - exact parseFigmaUrl_url.
  - exact parseFigmaUrl_bare.
  - exact parseFigmaUrl_invalid.
Qed.

Lemma parseFigmaUrl_recovers_reference_witness :
  parseFigmaUrl
    (js "https://www.figma.com/design/AbC123/My-File?type=design&node-id=1%3A2&t=x")
  = Parsed {| fileId := js "AbC123"; nodeId := Some (js "1:2") |} /\
  parseFigmaUrl (js "AbC123")
  = Parsed {| fileId := js "AbC123"; nodeId := None |} /\
  parseFigmaUrl (js "my design file")
  = ThrowError (js "Invalid Figma URL format: my design file").
Proof.
  destruct parseFigmaUrl_recovers_reference as (Hurl & Hbare & Hbad).
  split; [|split].
  - apply (Hurl (js "https://www.") (js "design") (js "AbC123")
             (js "My-File?type=design") (js "1%3A2") (js "&t=x") (js "1:2")
             38%N).
    + repeat constructor.
    + repeat constructor.
    + right; reflexivity.
    + discriminate.
    + repeat constructor.
    + apply test_not_contains. vm_compute. reflexivity.
    + reflexivity.
    + discriminate.
    + repeat constructor.
    + reflexivity.
    + vm_compute. reflexivity.
  - apply Hbare; [discriminate|repeat constructor].
  - apply Hbad; [vm_compute; reflexivity|].
    apply test_not_contains. vm_compute. reflexivity.
Defined.

(** ** Safe writer *)

(** C2, counterexample.  A directory stands at the resolved destination:
    the path exists, yet the failure is not the already-exists error but
    the error of the file system, raised when the destination is read for
    the preview. *)
Lemma existing_directory_is_not_already_exists :
  let ws := [js "proj"] in
  let options :=
    {| fileName := js "card.tsx"; targetFolder := Some Components;
       showDiff := Some false |} in
  let w :=
    {| files := {[ ws := Dir;
                   [js "proj"; js "components"] := Dir;
                   [js "proj"; js "components"; js "card.tsx"] := Dir ]};
       timers := []; events := [] |} in
  let env :=
    {| workspaceFolder := Some ws; now1 := 1700000000000;
       now2 := 1700000000001; answer := Some (js "Yes") |} in
  existsSyncAt (files w) (destinationOf ws options) = true /\
  fst (writeJSXCode env w (js "<div />") options) = ThrewFsError /\
  ThrewFsError <> ThrewError (alreadyExistsMessage options).
Proof. vm_compute. repeat split. discriminate. Qed.

(** C2, amended.  Let the workspace folder be an existing directory and the
    resolved destination exist.  For every content and every options
    (either target folder, any setting of showDiff), [writeJSXCode] fails
    and leaves what stands at the destination as it was, also after the
    cleanup timers scheduled by the invocation have fired: the failure is
    the already-exists error when the destination is a regular file, and
    the error of the file system when it is a directory. *)
Theorem existing_destination_never_overwritten (env : Env) (w : World)
    (jsxCode : jsstring) (options : WriteOptions) (ws : path)
    (Hws : workspaceFolder env = Some ws)
    (Hdir : isDirectory (files w) ws = true)
    (Hexists : existsSyncAt (files w) (destinationOf ws options) = true) :
  exists w',
    writeJSXCode env w jsxCode options
    = (match files w !! filePathOf ws options with
       | Some (File _) => ThrewError (alreadyExistsMessage options)
       | _ => ThrewFsError
       end, w') /\
    files w' !! filePathOf ws options = files w !! filePathOf ws options /\
    (Forall (fun t => t <> filePathOf ws options) (timers w) ->
     files (runCleanup w') !! filePathOf ws options
     = files w !! filePathOf ws options).
Proof.
  unfold writeJSXCode. rewrite Hws. cbv zeta.
  change (segments (join ws (targetFolderOf options)))
    with (targetDirOf ws options).
  change (join (targetDirOf ws options) (coerceExtension (fileName options)))
    with (destinationOf ws options).
  rewrite (ensure_targetDir w ws options Hdir).
  set (fs1 := if existsSync (files w) (targetDirOf ws options) then files w
              else <[targetDirOf ws options := Dir]> (files w)).
  assert (H1 : fs1 !! filePathOf ws options = files w !! filePathOf ws options).
  { unfold fs1. destruct (existsSync _ _); [reflexivity|].
    apply lookup_insert_ne.
    intros Heq. now apply (filePathOf_not_targetDir ws options). }
  cbn [files withFiles].
  rewrite (existsSyncAt_ext (files w) fs1 (destinationOf ws options) H1).
  rewrite Hexists.
  unfold existsSyncAt in Hexists. unfold readFileSyncAt.
  change (segments (destinationOf ws options)) with (filePathOf ws options)
    in *.
  assert (Hquiet : forall w1 : World,
             files w1 = fs1 -> timers w1 = timers w ->
             files w1 !! filePathOf ws options
             = files w !! filePathOf ws options /\
             (Forall (fun t => t <> filePathOf ws options) (timers w) ->
              files (runCleanup w1) !! filePathOf ws options
              = files w !! filePathOf ws options)).
  { intros w1 Hf Ht. rewrite <- H1, <- Hf. split; [reflexivity|].
    intros Hold. apply runCleanup_frame. now rewrite Ht. }
  destruct (trailingSeparator (destinationOf ws options)).
  - destruct (files w !! filePathOf ws options) as [[c|]|] eqn:E;
      try discriminate.
    eexists. split; [reflexivity|]. now apply Hquiet.
  - unfold readFileSync. rewrite H1. unfold existsSync in Hexists.
    destruct (files w !! filePathOf ws options) as [[existing|]|] eqn:E;
      try discriminate.
    2: { eexists. split; [reflexivity|]. now apply Hquiet. }
    eexists. split; [reflexivity|].
    destruct (bool_decide (showDiff options <> Some false));
      [|now apply Hquiet].
    destruct (showDiffPreview_frame env (withFiles w fs1)
                (filePathOf ws options) ws existing jsxCode Hws)
      as [Hframe (added & Htimers & Hadded)].
    assert (Hkeep : files (showDiffPreview env (withFiles w fs1)
                             (filePathOf ws options) existing jsxCode)
                    !! filePathOf ws options = Some (File existing)).
    { apply Hframe; [|cbn [files withFiles]; now rewrite H1]. intros Heq.
      now apply (tempUri_not_filePath ws options (now1 env)). }
    split; [exact Hkeep|]. intros Hold.
    rewrite runCleanup_frame; [exact Hkeep|].
    rewrite Htimers. cbn [timers withFiles]. apply Forall_app. split.
    + exact Hold.
    + eapply List.Forall_impl; [|exact Hadded]. intros t ->.
      apply tempUri_not_filePath.
Qed.

Lemma existing_destination_never_overwritten_witness :
  let ws := [js "proj"] in
  let options :=
    {| fileName := js "card"; targetFolder := Some Components;
       showDiff := Some true |} in
  let w :=
    {| files := {[ ws := Dir;
                   [js "proj"; js "components"] := Dir;
                   [js "proj"; js "components"; js "card.tsx"]
                     := File (js "<old />") ]};
       timers := []; events := [] |} in
  let env :=
    {| workspaceFolder := Some ws; now1 := 1700000000000;
       now2 := 1700000000001; answer := Some (js "Yes") |} in
  exists w',
    writeJSXCode env w (js "<new />") options
    = (ThrewError (alreadyExistsMessage options), w') /\
    files w' !! filePathOf ws options = Some (File (js "<old />")).
Proof.
  intros ws options w env.
  destruct (existing_destination_never_overwritten env w (js "<new />")
              options ws eq_refl)
    as (w' & Hrun & Hkeep & _).
  - vm_compute. reflexivity.
  - vm_compute. reflexivity.
  - exists w'. split; [exact Hrun|exact Hkeep].
Defined.

(** C9, counterexample.  In a workspace that holds nothing but its own
    folder, a write with showDiff false is declined: the result is [null],
    yet the directory [components] has been created. *)
Lemma declined_write_creates_the_target_directory :
  let ws := [js "proj"] in
  let options :=
    {| fileName := js "card"; targetFolder := None;
       showDiff := Some false |} in
  let w := {| files := {[ ws := Dir ]}; timers := []; events := [] |} in
  let env :=
    {| workspaceFolder := Some ws; now1 := 1700000000000;
       now2 := 1700000000001; answer := Some (js "No") |} in
  files w !! filePathOf ws options = None /\
  fst (writeJSXCode env w (js "<div />") options) = Returned None /\
  files w !! [js "proj"; js "components"] = None /\
  files (snd (writeJSXCode env w (js "<div />") options))
    !! [js "proj"; js "components"] = Some Dir.
Proof. vm_compute. repeat split. Qed.

(** C9, amended.  Let the workspace folder be an existing directory, the
    destination not exist, and no segment of the file name be [..].  If the
    user does not choose Yes at the confirmation prompt, [writeJSXCode]
    returns [null] and the destination still does not exist.  The call is
    not free of mutation: the target directory is created when it is
    missing and, unless showDiff is false, the preview may create or change
    entries of the scratch directory [.figma-temp].  Nothing else is
    created, changed or removed: outside the scratch directory the file
    system is the one before the call with the target directory ensured,
    and with showDiff false the scratch directory is not touched either. *)
Theorem declined_write_frame (env : Env) (w : World) (jsxCode : jsstring)
    (options : WriteOptions) (ws : path)
    (Hws : workspaceFolder env = Some ws)
    (Hdir : isDirectory (files w) ws = true)
    (Hinside : Forall (fun seg => seg <> js "..")
                 (splitPath (coerceExtension (fileName options))))
    (Hnew : existsSyncAt (files w) (destinationOf ws options) = false)
    (Hno : answer env <> Some (js "Yes")) :
  let ensured :=
    if existsSync (files w) (targetDirOf ws options) then files w
    else <[targetDirOf ws options := Dir]> (files w) in
  exists w',
    writeJSXCode env w jsxCode options = (Returned None, w') /\
    existsSyncAt (files w') (destinationOf ws options) = false /\
    (forall q, isPrefix (tempDirOf ws) q = false ->
               files w' !! q = ensured !! q) /\
    (showDiff options = Some false -> files w' = ensured).
Proof.
  intros fs1. unfold writeJSXCode. rewrite Hws. cbv zeta.
  change (segments (join ws (targetFolderOf options)))
    with (targetDirOf ws options).
  change (join (targetDirOf ws options) (coerceExtension (fileName options)))
    with (destinationOf ws options).
  rewrite (ensure_targetDir w ws options Hdir). fold fs1.
  assert (H1 : fs1 !! filePathOf ws options = files w !! filePathOf ws options).
  { unfold fs1. destruct (existsSync _ _); [reflexivity|].
    apply lookup_insert_ne.
    intros Heq. now apply (filePathOf_not_targetDir ws options). }
  assert (Hdir1 : isDirectory fs1 ws = true).
  { unfold fs1, existsSync.
    destruct (files w !! targetDirOf ws options) eqn:E; [exact Hdir|].
    now apply dirsFrom_insert. }
  cbn [files withFiles].
  rewrite (existsSyncAt_ext (files w) fs1 (destinationOf ws options) H1).
  rewrite Hnew. unfold askUserConfirmation.
  rewrite (bool_decide_eq_false_2 _ Hno). cbn [negb].
  eexists. split; [reflexivity|]. cbn [files log].
  pose proof (filePathOf_outside_tempDir ws options Hinside) as Hout.
  assert (Hframe : forall q, isPrefix (tempDirOf ws) q = false ->
            files (if bool_decide (showDiff options <> Some false)
                   then showDiffPreviewForNewFile env (withFiles w fs1)
                          (filePathOf ws options) jsxCode
                          (targetFolderOf options)
                          (coerceExtension (fileName options))
                   else withFiles w fs1) !! q = fs1 !! q).
  { intros q Hq. destruct (bool_decide (showDiff options <> Some false));
      [|reflexivity].
    now apply (showDiffPreviewForNewFile_outside env (withFiles w fs1) _ ws). }
  split; [|split].
  - etransitivity; [apply existsSyncAt_ext, (Hframe _ Hout)|].
    now rewrite (existsSyncAt_ext (files w) fs1 (destinationOf ws options) H1).
  - exact Hframe.
  - intros Hquiet. rewrite Hquiet.
    now rewrite bool_decide_eq_false_2 by (intros H; now apply H).
Qed.

Lemma declined_write_frame_witness :
  let ws := [js "proj"] in
  let options :=
    {| fileName := js "card"; targetFolder := Some Pages;
       showDiff := None |} in
  let w :=
    {| files := {[ ws := Dir; [js "proj"; js "readme.md"] := File (js "hi") ]};
       timers := []; events := [] |} in
  let env :=
    {| workspaceFolder := Some ws; now1 := 1700000000000;
       now2 := 1700000000001; answer := None |} in
  exists w',
    writeJSXCode env w (js "<div />") options = (Returned None, w') /\
    existsSyncAt (files w') (destinationOf ws options) = false /\
    files w' !! [js "proj"; js "readme.md"] = Some (File (js "hi")).
Proof.
  intros ws options w env.
  destruct (declined_write_frame env w (js "<div />") options ws eq_refl)
    as (w' & Hrun & Habsent & Hframe & _).
  - vm_compute. reflexivity.
  - vm_compute. repeat constructor; discriminate.
  - vm_compute. reflexivity.
  - discriminate.
  - exists w'. split; [exact Hrun|]. split; [exact Habsent|].
    rewrite Hframe by (vm_compute; reflexivity).
    vm_compute. reflexivity.
Defined.

(* ===================================================================== *)
(** * Part IV: further properties                                        *)
(* ===================================================================== *)

(** ** The mapper *)

(** X1.  On whole numbers the nearest-entry search is monotone: over a
    scale of whole numbers that strictly increase, a larger whole value is
    never mapped to an entry of lower index.  The numbers are at most 2^52
    in magnitude, so that every subtraction of the source is exact. *)
Theorem findClosestIndex_monotone (scale : list Z) (v v' : Z)
    (Hscale : Forall (fun x => (Z.abs x <= 2 ^ 52)%Z) scale)
    (Hv : (Z.abs v <= 2 ^ 52)%Z) (Hv' : (Z.abs v' <= 2 ^ 52)%Z)
    (Hstrict : strictlyAscendingb (List.map inject_Z scale) = true)
    (Hlt : (v < v')%Z) :
  (findClosestIndex (inject_Z v) (List.map inject_Z scale)
   <= findClosestIndex (inject_Z v') (List.map inject_Z scale))%Z.
Proof.
  apply findClosestIndex_ordered; [exact Hstrict|].
  now rewrite <- Zlt_Qlt.
Qed.

Lemma findClosestIndex_monotone_witness :
  (findClosestIndex (inject_Z 13)
     (List.map inject_Z [0; 2; 4; 6; 8; 10; 12; 14; 16; 20; 24; 28; 32]%Z)
   <= findClosestIndex (inject_Z 27)
        (List.map inject_Z [0; 2; 4; 6; 8; 10; 12; 14; 16; 20; 24; 28; 32]%Z))%Z.
Proof.
  apply findClosestIndex_monotone;
    [repeat constructor; discriminate|discriminate|discriminate
    |reflexivity|reflexivity].
Defined.

(** X2.  Snapping is idempotent: over an ascending scale and with the
    default tolerance or a tolerance that is not negative, a value returned
    by [findNearestWithTolerance] is returned again, up to equality of
    numbers, when it is given as the value to snap. *)
Theorem findNearestWithTolerance_idempotent (scale : list Q)
    (tolerance : option Q) (v c : Q) :
  ascendingb scale = true ->
  match tolerance with Some t => 0 <= t | None => True end ->
  findNearestWithTolerance v scale tolerance = Some c ->
  exists c', findNearestWithTolerance c scale tolerance = Some c' /\ c' == c.
Proof.
  intros Hasc Htol Hv.
  destruct scale as [|s0 rest] eqn:Escale; [discriminate|].
  rewrite <- Escale in *.
  assert (Hne : scale <> []) by (rewrite Escale; discriminate).
  assert (Hin : In c scale).
  { unfold findNearestWithTolerance in Hv. rewrite Escale in Hv.
    rewrite <- Escale in Hv. cbv zeta in Hv.
    destruct (Qltb _ _) in Hv; [discriminate|]. injection Hv as <-.
    pose proof (findClosestIndex_in_range v scale Hne) as Hr.
    apply nth_In. lia. }
  destruct (findClosestIndex_entry scale c Hasc Hin) as (c' & Hc' & Heq).
  exists c'. split; [|exact Heq].
  unfold findNearestWithTolerance. rewrite Escale. rewrite <- Escale.
  cbv zeta.
  apply lookupZ_Some in Hc' as [_ Hnth].
  rewrite (nth_error_nth _ _ s0 Hnth).
  assert (Hd : Qabs (c' - c) == 0) by (qabs; lra).
  destruct (Qltb _ _) eqn:E; [|reflexivity].
  exfalso. apply Qltb_lt in E. rewrite Hd in E.
  destruct tolerance as [t|]; [lra|].
  pose proof (Q.le_max_r (c' * (1 # 2)) 2). lra.
Qed.

Lemma findNearestWithTolerance_idempotent_witness :
  exists c',
    findNearestWithTolerance 12 SPACING_SCALE_PX None = Some c' /\ c' == 12.
Proof.
  apply (findNearestWithTolerance_idempotent SPACING_SCALE_PX None 13 12).
  - reflexivity.
  - exact I.
  - reflexivity.
Defined.

(** X3.  The decision table of [radiusToTailwind]: the class returned for
    each range of radii.  The class [rounded-full] is returned from 1000
    pixels on and for no radius below. *)
Theorem radiusToTailwind_table (px : Q) :
  (px <= 1 -> radiusToTailwind px = Some (js "rounded-none")) /\
  (1 < px <= 3 -> radiusToTailwind px = Some (js "rounded-sm")) /\
  (3 < px <= 5 -> radiusToTailwind px = Some (js "rounded")) /\
  (5 < px <= 7 -> radiusToTailwind px = Some (js "rounded-md")) /\
  (7 < px <= 10 -> radiusToTailwind px = Some (js "rounded-lg")) /\
  (10 < px <= 14 -> radiusToTailwind px = Some (js "rounded-xl")) /\
  (14 < px <= 20 -> radiusToTailwind px = Some (js "rounded-2xl")) /\
  (20 < px < 1000 -> radiusToTailwind px = Some (js "rounded-3xl")) /\
  (1000 <= px -> radiusToTailwind px = Some (js "rounded-full")).
Proof.
  repeat match goal with |- _ /\ _ => split end; intros H;
    unfold radiusToTailwind.
  9: { apply Qle_bool_iff in H. now rewrite H. }
  all: rewrite (proj2 (Qle_bool_gt 1000 px)) by lra.
  all: unfold findClosestKey, RADIUS_SCALE; cbn [fold_left fst snd].
  all: scan_entries px.
  all: reflexivity.
Qed.

Lemma radiusToTailwind_table_witness :
  radiusToTailwind 9 = Some (js "rounded-lg").
Proof.
  apply (radiusToTailwind_table 9). lra.
Defined.

(** X4.  The decision table of [fontSizeToTailwind]: the class returned for
    each range of font sizes.  Every size up to 13 pixels, negative sizes
    too, is [text-xs], and every size above 112 pixels is [text-9xl], up to
    2^53 pixels: as far as the distances to the entries of the scale are
    computed without rounding. *)
Theorem fontSizeToTailwind_table (px : Q) :
  (px <= 13 -> fontSizeToTailwind px = Some (js "text-xs")) /\
  (13 < px <= 15 -> fontSizeToTailwind px = Some (js "text-sm")) /\
  (15 < px <= 17 -> fontSizeToTailwind px = Some (js "text-base")) /\
  (17 < px <= 19 -> fontSizeToTailwind px = Some (js "text-lg")) /\
  (19 < px <= 22 -> fontSizeToTailwind px = Some (js "text-xl")) /\
  (22 < px <= 27 -> fontSizeToTailwind px = Some (js "text-2xl")) /\
  (27 < px <= 33 -> fontSizeToTailwind px = Some (js "text-3xl")) /\
  (33 < px <= 42 -> fontSizeToTailwind px = Some (js "text-4xl")) /\
  (42 < px <= 54 -> fontSizeToTailwind px = Some (js "text-5xl")) /\
  (54 < px <= 66 -> fontSizeToTailwind px = Some (js "text-6xl")) /\
  (66 < px <= 84 -> fontSizeToTailwind px = Some (js "text-7xl")) /\
  (84 < px <= 112 -> fontSizeToTailwind px = Some (js "text-8xl")) /\
  (112 < px <= 9007199254740992 ->
   fontSizeToTailwind px = Some (js "text-9xl")).
Proof.
  repeat match goal with |- _ /\ _ => split end; intros H;
    unfold fontSizeToTailwind, findClosestKey, TEXT_SIZE_SCALE;
    cbn [fold_left fst snd]; scan_entries px; reflexivity.
Qed.

Lemma fontSizeToTailwind_table_witness :
  fontSizeToTailwind 23 = Some (js "text-2xl").
Proof.
  apply (fontSizeToTailwind_table 23). lra.
Defined.

(** ** The responsive helpers *)

(** X5.  [getBreakpointForWidth], for every configuration of thresholds:
    the result is monotone in the width (a wider value never gets a
    narrower breakpoint), it is null exactly when the width is below all
    five thresholds, and the threshold of a breakpoint returned is at most
    the width. *)
Theorem getBreakpointForWidth_monotone (breakpoints : option BreakpointConfig)
    (width width' : Q) :
  let config :=
    match breakpoints with Some b => b | None => DEFAULT_BREAKPOINTS end in
  (width <= width' ->
   (rankOf (getBreakpointForWidth width breakpoints)
    <= rankOf (getBreakpointForWidth width' breakpoints))%nat) /\
  (getBreakpointForWidth width breakpoints = None <->
   forall bp, width < threshold config bp) /\
  (forall bp, getBreakpointForWidth width breakpoints = Some bp ->
              threshold config bp <= width).
Proof.
  intros config. unfold getBreakpointForWidth. fold config.
  repeat split.
  - intros Hle.
    repeat match goal with
           | |- context [Qle_bool ?a ?b] =>
               let E := fresh "E" in
               destruct (Qle_bool a b) eqn:E;
               [apply Qle_bool_iff in E | apply Qle_bool_gt in E]
           end; cbn [rankOf rank]; try lia; exfalso; lra.
  - intros H bp.
    repeat match type of H with
           | context [Qle_bool ?a ?b] =>
               let E := fresh "E" in
               destruct (Qle_bool a b) eqn:E;
               [discriminate | apply Qle_bool_gt in E]
           end.
    destruct bp; assumption.
  - intros H.
    repeat match goal with
           | |- context [Qle_bool ?a ?b] =>
               let E := fresh "E" in
               destruct (Qle_bool a b) eqn:E;
               [apply Qle_bool_iff in E | clear E]
           end; try reflexivity; exfalso.
    + specialize (H BP_2xl). cbn in H. lra.
    + specialize (H BP_xl). cbn in H. lra.
    + specialize (H BP_lg). cbn in H. lra.
    + specialize (H BP_md). cbn in H. lra.
    + specialize (H BP_sm). cbn in H. lra.
  - intros bp H.
    repeat match type of H with
           | context [Qle_bool ?a ?b] =>
               let E := fresh "E" in
               destruct (Qle_bool a b) eqn:E;
               [apply Qle_bool_iff in E; injection H as <-; exact E|]
           end.
    discriminate.
Qed.

Lemma getBreakpointForWidth_monotone_witness :
  (rankOf (getBreakpointForWidth 700 None)
   <= rankOf (getBreakpointForWidth 1300 None))%nat.
Proof.
  apply (getBreakpointForWidth_monotone None 700 1300). lra.
Defined.

(** X6.  No class list built by [createResponsiveClasses] with at least one
    variation that is not empty passes the validator as the quoted value of
    a className attribute, when the base class holds no quote character:
    the validator throws. *)
Theorem responsive_classes_rejected (baseClass : jsstring)
    (breakpointValues : Breakpoint -> option jsstring)
    (pre post : jsstring) (q1 q2 : N) :
  (exists bp v, breakpointValues bp = Some v /\ v <> []) ->
  Forall (fun x => negb (isQuote x) = true) baseClass ->
  isQuote q1 = true -> isQuote q2 = true ->
  exists m,
    validateJSXOutput
      (pre ++ js "className=" ++ [q1]
       ++ createResponsiveClasses baseClass breakpointValues
       ++ [q2] ++ post)
    = Throw m.
Proof.
  intros (bp & v & Hv & Hne) Hbase Hq1 Hq2.
  apply className_test_throws.
  rewrite createResponsiveClasses_variants.
  destruct (variants_first breakpointValues order bp v
              (order_complete bp) Hv Hne) as (bp1 & v1 & rest & Hv1 & ->).
  rewrite joinWith_cons.
  destruct (joinWith_head (js " ") (withBreakpoint bp1 v1) rest) as [b ->].
  pose proof (quoted_breakpoint_class_detected bp1 v1 pre [] []
                (baseClass ++ js " ") b post q1 q2 Hv1
                ltac:(constructor) ltac:(constructor) Hq1 Hq2) as H.
  replace (pre ++ js "className=" ++ [q1]
           ++ (baseClass ++ js " " ++ withBreakpoint bp1 v1 ++ b)
           ++ [q2] ++ post)
    with (pre ++ js "className" ++ [] ++ js "=" ++ [] ++ [q1]
          ++ (baseClass ++ js " ") ++ withBreakpoint bp1 v1 ++ b
          ++ [q2] ++ post).
  - apply H. apply Forall_app. split; [exact Hbase|]. repeat constructor.
  - list_norm. reflexivity.
Qed.

Lemma responsive_classes_rejected_witness :
  exists m,
    validateJSXOutput
      (js "<div " ++ js "className=" ++ [dquote]
       ++ createResponsiveClasses (js "p-4")
            (fun bp => match bp with BP_md => Some (js "p-8") | _ => None end)
       ++ [dquote] ++ js "></div>")
    = Throw m.
Proof.
  apply responsive_classes_rejected.
  - exists BP_md, (js "p-8"). split; [reflexivity|discriminate].
  - repeat constructor.
  - reflexivity.
  - reflexivity.
Defined.

(** ** The cleaning of a response *)

(** X7.  [cleanMarkdownCodeBlocks] unwraps a fenced block: for a response
    made of the opening fence, a language tag the pattern knows (none, js,
    jsx, ts or tsx, in any case), a line feed, the code, a line feed and
    the closing fence, the result is the trimmed code, whatever the code
    is; the validator then gives the result it gives on the code itself. *)
Theorem cleanMarkdownCodeBlocks_unwraps (tag code : jsstring) :
  isFenceLanguage tag = true ->
  cleanMarkdownCodeBlocks (fenced tag code) = trim code /\
  validateJSXOutput (cleanMarkdownCodeBlocks (fenced tag code))
  = validateJSXOutput code.
Proof.
  intros Htag.
  assert (H : cleanMarkdownCodeBlocks (fenced tag code) = trim code).
  { unfold cleanMarkdownCodeBlocks. cbv zeta.
    rewrite (fenced_trimmed tag code). unfold fenced.
    unfold removeOpeningFence. rewrite stripPrefix_app.
    cbn [app]. rewrite (stripLanguage_tag tag _ Htag).
    cbn [trimStart]. change (isWhiteSpace newline) with true. cbv iota.
    destruct (forallb isWhiteSpace code) eqn:E.
    - rewrite (trimStart_spaces code _ E).
      change (trimStart (newline :: fence)) with fence.
      change (removeClosingFence fence) with (@nil N).
      unfold trim at 2. now rewrite (trimStart_all_spaces code E).
    - rewrite (trimStart_app code _ E).
      rewrite removeClosingFence_last_line. apply trim_trimStart. }
  split; [exact H|]. rewrite H. apply validateJSXOutput_trim.
Qed.

Lemma cleanMarkdownCodeBlocks_unwraps_witness :
  cleanMarkdownCodeBlocks (fenced (js "tsx") (js " <div>Hi</div> "))
  = trim (js " <div>Hi</div> ") /\
  validateJSXOutput
    (cleanMarkdownCodeBlocks (fenced (js "tsx") (js " <div>Hi</div> ")))
  = validateJSXOutput (js " <div>Hi</div> ").
Proof.
  apply cleanMarkdownCodeBlocks_unwraps. reflexivity.
Defined.

(** X8.  [cleanMarkdownCodeBlocks] leaves a response without fences alone:
    when the trimmed response neither starts nor ends with the fence, the
    result is the trimmed response. *)
Theorem cleanMarkdownCodeBlocks_unfenced (content : jsstring) :
  startsWithFence (trim content) = false ->
  endsWithFence (trim content) = false ->
  cleanMarkdownCodeBlocks content = trim content.
Proof.
  intros Hstart Hend. unfold cleanMarkdownCodeBlocks. cbv zeta.
  unfold removeOpeningFence. unfold startsWithFence in Hstart.
  destruct (stripPrefix fence (trim content)); [discriminate|].
  rewrite (removeClosingFence_none _ (trim_last content) Hend).
  apply trim_idem.
Qed.

Lemma cleanMarkdownCodeBlocks_unfenced_witness :
  cleanMarkdownCodeBlocks (js "  <div>Hi</div>  ")
  = trim (js "  <div>Hi</div>  ").
Proof.
  apply cleanMarkdownCodeBlocks_unfenced; reflexivity.
Defined.

(** X9.  The validator is idempotent: a text it returns is returned
    unchanged when validated again. *)
Theorem validateJSXOutput_idempotent (jsxCode validated : jsstring) :
  validateJSXOutput jsxCode = Return validated ->
  validateJSXOutput validated = Return validated.
Proof.
  intros H. rewrite validateJSXOutput_first_failing in H.
  destruct (first_failing gate_tests (trim jsxCode)) eqn:E; [discriminate|].
  injection H as <-.
  rewrite validateJSXOutput_trim, validateJSXOutput_first_failing.
  now rewrite E.
Qed.

Lemma validateJSXOutput_idempotent_witness :
  validateJSXOutput (js "<div>Hi</div>") = Return (js "<div>Hi</div>").
Proof.
  apply (validateJSXOutput_idempotent (js "  <div>Hi</div> ")). reflexivity.
Defined.

(** ** The licence *)

(** X10.  The features [hasFeature] grants.  The basic feature is granted
    when no key is set (or a blank one) and when the key set is well
    formed, at least eight capital letters, digits or hyphens; a paid
    feature is granted exactly for a well-formed key.  A key that is set
    but malformed therefore loses the basic feature as well. *)
Theorem hasFeature_granted (licenseKey : option jsstring)
    (feature : jsstring) :
  hasFeature licenseKey feature = true <->
  (feature = js "basic-generation" /\
   (blankKey licenseKey \/ wellFormedKey licenseKey)) \/
  (In feature [js "advanced-ai"; js "component-reuse"; js "bulk-export";
               js "custom-mappings"] /\
   wellFormedKey licenseKey).
Proof.
  unfold hasFeature, validateLicense.
  destruct licenseKey as [key|].
  - destruct (isEmpty key || (length (trim key) =? 0)%nat) eqn:Eblank.
    + apply blank_test in Eblank. cbn [isValid features andb].
      rewrite includesItem_In. cbn [In]. split.
      * intros [<-|[]]. left. split; [reflexivity|]. now left.
      * intros [[-> _]|[_ Hwf]]; [now left|].
        exfalso. exact (wellFormedKey_not_blank (Some key) Hwf Eblank).
    + assert (Hnb : ~ blankKey (Some key)).
      { intros Hb. apply blank_test in Hb. congruence. }
      cbv zeta. destruct (checkLicenseKey key) eqn:Ekey; cbn [negb].
      * apply checkLicenseKey_wellFormed in Ekey.
        cbn [isValid features andb]. rewrite includesItem_In. cbn [In].
        split.
        -- intros [<-|H]; [left; split; [reflexivity|now right]|].
           right. split; [|exact Ekey]. cbn [In]. exact H.
        -- intros [[-> _]|[H _]]; [now left|]. right. exact H.
      * cbn [isValid andb]. split; [discriminate|].
        assert (Hnw : ~ wellFormedKey (Some key)).
        { intros Hw. apply checkLicenseKey_wellFormed in Hw. congruence. }
        intros [[_ [Hb|Hw]]|[_ Hw]]; contradiction.
  - cbn [isValid features andb]. rewrite includesItem_In. cbn [In]. split.
    + intros [<-|[]]. left. split; [reflexivity|]. now left.
    + intros [[-> _]|[_ []]]. now left.
Qed.

(** ** File names *)

(** X11.  The shape of a suggested file name, whatever function stands for
    [toLowerCase]: the result is the default name, or it is a slug, that
    is, groups of letters in lower case and digits separated by single
    hyphens, with no hyphen at either end.  With the default name of the
    source, [component], the result is always a slug. *)
Theorem suggestFileName_slug (toLowerCaseOf : jsstring -> jsstring)
    (nodeName defaultName : option jsstring) :
  (suggestFileName toLowerCaseOf nodeName defaultName
   = match defaultName with Some d => d | None => js "component" end
   \/ isSlug (suggestFileName toLowerCaseOf nodeName defaultName) = true)
  /\ isSlug (suggestFileName toLowerCaseOf nodeName None) = true.
Proof.
  split.
  - apply suggestFileName_default_or_slug.
  - apply suggestFileName_is_slug.
Qed.

(** X12.  A suggested file name is a fixed point of [suggestFileName],
    provided [toLowerCase] leaves slugs as they are. *)
Theorem suggestFileName_idempotent (toLowerCaseOf : jsstring -> jsstring)
    (nodeName : option jsstring) :
  (forall s, isSlug s = true -> toLowerCaseOf s = s) ->
  suggestFileName toLowerCaseOf
    (Some (suggestFileName toLowerCaseOf nodeName None)) None
  = suggestFileName toLowerCaseOf nodeName None.
Proof.
  intros Hlower.
  pose proof (suggestFileName_is_slug toLowerCaseOf nodeName) as Hs.
  set (r := suggestFileName toLowerCaseOf nodeName None) in *.
  unfold suggestFileName at 1. cbv zeta.
  pose proof (slug_nonempty r Hs) as Hne.
  rewrite (Hlower r Hs).
  rewrite (replaceRuns_slug true false r Hs) by discriminate.
  rewrite (stripHyphens_of_slug r Hs), (slug_trim r Hs).
  destruct r; [congruence|reflexivity].
Qed.

Lemma suggestFileName_idempotent_witness :
  suggestFileName toLowerCase
    (Some (suggestFileName toLowerCase (Some (js "Hero Banner / v2")) None))
    None
  = suggestFileName toLowerCase (Some (js "Hero Banner / v2")) None.
Proof.
  apply suggestFileName_idempotent. exact toLowerCase_slug.
Defined.

(** X13.  The file written for a suggested name lies directly in the
    target folder and has the extension [.tsx]: whatever the name of the
    Figma node, the destination [writeJSXCode] resolves is the workspace
    folder, the target folder, and the suggested name followed by
    [.tsx]. *)
Theorem suggested_name_destination (toLowerCaseOf : jsstring -> jsstring)
    (nodeName : option jsstring) (ws : path) (folder : TargetFolder)
    (diff : option bool) :
  let name := suggestFileName toLowerCaseOf nodeName None in
  filePathOf ws
    {| fileName := name; targetFolder := Some folder; showDiff := diff |}
  = ws ++ [folderName folder; name ++ js ".tsx"].
Proof. apply suggested_destination. Qed.

(** ** The writer *)

(** X14.  A name that [fileExists] reports is refused by [writeJSXCode]:
    when [fileExists] finds, in the folder asked for, the name with the
    extension [writeJSXCode] gives it, the write throws (the already-exists
    error, or the error of the file system when the path cannot be read as
    a file) and the entry at the destination is left as it was. *)
Theorem reported_file_is_refused (env : Env) (w : World)
    (name jsxCode : jsstring) (folder : TargetFolder) (diff : option bool)
    (ws : path) :
  let options :=
    {| fileName := name; targetFolder := Some folder; showDiff := diff |} in
  workspaceFolder env = Some ws ->
  fileExists env w (coerceExtension name) (Some folder) = true ->
  (fst (writeJSXCode env w jsxCode options)
   = ThrewError (alreadyExistsMessage options)
   \/ fst (writeJSXCode env w jsxCode options) = ThrewFsError) /\
  files (snd (writeJSXCode env w jsxCode options)) !! filePathOf ws options
  = files w !! filePathOf ws options.
Proof.
  intros options Hws Hex.
  assert (Hfile : existsSyncAt (files w) (destinationOf ws options) = true).
  { unfold fileExists in Hex. rewrite Hws in Hex.
    unfold destinationOf, targetDirOf, targetFolderOf, options.
    cbn [fileName targetFolder]. destruct folder; cbn [folderName].
    - exact Hex.
    - destruct (existsSyncAt _ _); [reflexivity|discriminate]. }
  assert (Hn : exists n, files w !! filePathOf ws options = Some n).
  { unfold existsSyncAt, existsSync in Hfile.
    change (segments (destinationOf ws options))
      with (filePathOf ws options) in Hfile.
    destruct (files w !! filePathOf ws options) as [n|]; [eauto|].
    destruct (trailingSeparator _); discriminate. }
  destruct Hn as [n En].
  unfold writeJSXCode. rewrite Hws. cbv zeta.
  change (segments (join ws (targetFolderOf options)))
    with (targetDirOf ws options).
  change (join (targetDirOf ws options) (coerceExtension (fileName options)))
    with (destinationOf ws options).
  destruct (if existsSync (files w) (targetDirOf ws options)
            then Some (files w)
            else mkdirSync (files w) (targetDirOf ws options))
    as [fs1|] eqn:Efs1.
  2: { cbn [fst snd]. split; [now right|reflexivity]. }
  assert (H1 : fs1 !! filePathOf ws options = Some n).
  { destruct (existsSync (files w) (targetDirOf ws options)).
    - injection Efs1 as <-. exact En.
    - eapply mkdirFrom_frame; [exact Efs1|exact En]. }
  cbn [files withFiles].
  assert (Hex1 : existsSyncAt fs1 (destinationOf ws options) = true).
  { rewrite <- Hfile. apply existsSyncAt_ext.
    change (segments (destinationOf ws options))
      with (filePathOf ws options). now rewrite H1, En. }
  rewrite Hex1, En. unfold readFileSyncAt, readFileSync.
  change (segments (destinationOf ws options)) with (filePathOf ws options).
  rewrite H1.
  destruct (trailingSeparator (destinationOf ws options)).
  { cbn [fst snd files withFiles]. split; [now right|exact H1]. }
  destruct n as [existing|].
  2: { cbn [fst snd files withFiles]. split; [now right|exact H1]. }
  cbn [fst snd]. split; [now left|].
  destruct (bool_decide (showDiff options <> Some false));
    [|exact H1].
  destruct (showDiffPreview_frame env (withFiles w fs1)
              (filePathOf ws options) ws existing jsxCode Hws)
    as [Hframe _].
  apply Hframe; [|exact H1]. intros Heq.
  now apply (tempUri_not_filePath ws options (now1 env)).
Qed.

Lemma reported_file_is_refused_witness :
  let ws := [js "proj"] in
  let w :=
    {| files := {[ ws := Dir;
                   [js "proj"; js "pages"] := Dir;
                   [js "proj"; js "pages"; js "home.tsx"]
                     := File (js "<old />") ]};
       timers := []; events := [] |} in
  let env :=
    {| workspaceFolder := Some ws; now1 := 1700000000000;
       now2 := 1700000000001; answer := Some (js "Yes") |} in
  let options :=
    {| fileName := js "home"; targetFolder := Some Pages;
       showDiff := Some false |} in
  files (snd (writeJSXCode env w (js "<new />") options))
    !! filePathOf ws options
  = files w !! filePathOf ws options.
Proof.
  intros ws w env options.
  apply (reported_file_is_refused env w (js "home") (js "<new />") Pages
           (Some false) ws eq_refl).
  vm_compute. reflexivity.
Defined.

(** X15.  The write that succeeds.  Let the workspace folder be an existing
    directory, the file name hold no separator, the target folder not be a
    file and the destination not exist.  When the user chooses Yes and
    showDiff is false, [writeJSXCode] returns the destination, the file
    there holds exactly the code given, the target folder is a directory,
    and every other path is as it was. *)
Theorem confirmed_write_stores_code (env : Env) (w : World)
    (jsxCode : jsstring) (options : WriteOptions) (ws : path)
    (Hws : workspaceFolder env = Some ws)
    (Hdir : isDirectory (files w) ws = true)
    (Hplain : Forall (fun c => (c =? slash)%N = false) (fileName options))
    (Hfolder : forall c, files w !! targetDirOf ws options <> Some (File c))
    (Hnew : files w !! filePathOf ws options = None)
    (Hyes : answer env = Some (js "Yes"))
    (Hquiet : showDiff options = Some false) :
  exists w',
    writeJSXCode env w jsxCode options
    = (Returned (Some (filePathOf ws options)), w') /\
    readFileSync (files w') (filePathOf ws options) = Some jsxCode /\
    files w' !! targetDirOf ws options = Some Dir /\
    (forall q, q <> filePathOf ws options -> q <> targetDirOf ws options ->
               files w' !! q = files w !! q).
Proof.
  destruct (writeJSXCode_confirmed env w jsxCode options ws
              Hws Hdir Hplain Hfolder Hnew Hyes Hquiet) as (w' & Hrun & Hfs).
  exists w'. split; [exact Hrun|]. rewrite Hfs.
  split; [|split].
  - unfold readFileSync. now rewrite lookup_insert_eq.
  - rewrite lookup_insert_ne
      by (intros H; now apply (filePathOf_not_targetDir ws options)).
    unfold existsSync.
    destruct (files w !! targetDirOf ws options) as [[c|]|] eqn:E.
    + now destruct (Hfolder c).
    + exact E.
    + apply lookup_insert_eq.
  - intros q Hq1 Hq2. rewrite lookup_insert_ne by congruence.
    destruct (existsSync _ _); [reflexivity|].
    now rewrite lookup_insert_ne by congruence.
Qed.

Lemma confirmed_write_stores_code_witness :
  let ws := [js "proj"] in
  let w := {| files := {[ ws := Dir ]}; timers := []; events := [] |} in
  let env :=
    {| workspaceFolder := Some ws; now1 := 1700000000000;
       now2 := 1700000000001; answer := Some (js "Yes") |} in
  let options :=
    {| fileName := js "card"; targetFolder := None;
       showDiff := Some false |} in
  exists w',
    writeJSXCode env w (js "<div />") options
    = (Returned (Some (filePathOf ws options)), w') /\
    readFileSync (files w') (filePathOf ws options) = Some (js "<div />").
Proof.
  intros ws w env options.
  destruct (confirmed_write_stores_code env w (js "<div />") options ws
              eq_refl)
    as (w' & Hrun & Hread & _).
  - vm_compute. reflexivity.
  - repeat constructor.
  - intros c. vm_compute. discriminate.
  - vm_compute. reflexivity.
  - reflexivity.
  - reflexivity.
  - exists w'. split; [exact Hrun|exact Hread].
Defined.

(** X16.  Write once.  After a write that has succeeded (a new file with a
    name without separator, confirmed, showDiff false), a second write to
    the same name and folder, with whatever code, answers and setting of
    showDiff, throws the already-exists error, and the file still holds the
    code of the first write. *)
Theorem second_write_is_refused (env env2 : Env) (w : World)
    (jsxCode jsxCode2 : jsstring) (options : WriteOptions)
    (diff2 : option bool) (ws : path)
    (Hws : workspaceFolder env = Some ws)
    (Hws2 : workspaceFolder env2 = Some ws)
    (Hdir : isDirectory (files w) ws = true)
    (Hplain : Forall (fun c => (c =? slash)%N = false) (fileName options))
    (Hfolder : forall c, files w !! targetDirOf ws options <> Some (File c))
    (Hnew : files w !! filePathOf ws options = None)
    (Hyes : answer env = Some (js "Yes"))
    (Hquiet : showDiff options = Some false) :
  let options2 :=
    {| fileName := fileName options; targetFolder := targetFolder options;
       showDiff := diff2 |} in
  exists w' w'',
    writeJSXCode env w jsxCode options
    = (Returned (Some (filePathOf ws options)), w') /\
    writeJSXCode env2 w' jsxCode2 options2
    = (ThrewError (alreadyExistsMessage options2), w'') /\
    readFileSync (files w'') (filePathOf ws options) = Some jsxCode.
Proof.
  intros options2.
  destruct (writeJSXCode_confirmed env w jsxCode options ws
              Hws Hdir Hplain Hfolder Hnew Hyes Hquiet) as (w' & Hrun & Hfs).
  destruct (ensured_targetDir w ws options Hdir Hfolder) as [Hws1 _].
  set (fs1 := if existsSync (files w) (targetDirOf ws options) then files w
              else <[targetDirOf ws options := Dir]> (files w)) in *.
  assert (H1 : fs1 !! filePathOf ws options = None).
  { unfold fs1. destruct (existsSync _ _); [exact Hnew|].
    rewrite lookup_insert_ne; [exact Hnew|].
    intros Heq. now apply (filePathOf_not_targetDir ws options). }
  destruct (writeJSXCode_existing env2 w' jsxCode2 options2 ws jsxCode Hws2)
    as (w'' & Hrun2 & Hkeep).
  - rewrite Hfs. now apply dirsFrom_insert.
  - change (destinationOf ws options2) with (destinationOf ws options).
    now rewrite (destinationOf_filePathOf ws options Hplain).
  - rewrite Hfs. apply lookup_insert_eq.
  - exists w', w''. split; [exact Hrun|]. split; [exact Hrun2|].
    unfold readFileSync.
    change (filePathOf ws options) with (filePathOf ws options2).
    now rewrite Hkeep.
Qed.

Lemma second_write_is_refused_witness :
  let ws := [js "proj"] in
  let w := {| files := {[ ws := Dir ]}; timers := []; events := [] |} in
  let env :=
    {| workspaceFolder := Some ws; now1 := 1700000000000;
       now2 := 1700000000001; answer := Some (js "Yes") |} in
  let options :=
    {| fileName := js "card"; targetFolder := None;
       showDiff := Some false |} in
  exists w' w'',
    writeJSXCode env w (js "<one />") options
    = (Returned (Some (filePathOf ws options)), w') /\
    writeJSXCode env w' (js "<two />") options
    = (ThrewError (alreadyExistsMessage options), w'') /\
    readFileSync (files w'') (filePathOf ws options) = Some (js "<one />").
Proof.
  intros ws w env options.
  apply (second_write_is_refused env env w (js "<one />") (js "<two />")
           options (Some false) ws eq_refl eq_refl).
  - vm_compute. reflexivity.
  - repeat constructor.
  - intros c. vm_compute. discriminate.
  - vm_compute. reflexivity.
  - reflexivity.
  - reflexivity.
Defined.

(** X17.  The last steps of the command [generateFromFigma], composed as
    the command composes them: the response is cleaned and validated, the
    file name is suggested from the name of the Figma node, the folder is
    determined, and the code is written with showDiff false.  When the
    validator returns and the user chooses Yes, the component is written to
    the workspace folder, the folder determined, the suggested name with
    the extension [.tsx]; the file holds the cleaned response; and the
    folder is [pages] only if [pages] exists and [components] does not. *)
Theorem generated_component_is_written
    (toLowerCaseOf : jsstring -> jsstring) (env : Env) (w : World)
    (content figmaName code : jsstring) (ws : path)
    (Hws : workspaceFolder env = Some ws)
    (Hdir : isDirectory (files w) ws = true)
    (Hvalid : validateJSXOutput (cleanMarkdownCodeBlocks content)
              = Return code)
    (Hyes : answer env = Some (js "Yes")) :
  let name := suggestFileName toLowerCaseOf (Some figmaName) None in
  let folder := determineTargetFolder env w in
  let dest := ws ++ [folderName folder; name ++ js ".tsx"] in
  (forall c, files w !! (ws ++ [folderName folder]) <> Some (File c)) ->
  files w !! dest = None ->
  exists w',
    writeJSXCode env w code
      {| fileName := name; targetFolder := Some folder;
         showDiff := Some false |}
    = (Returned (Some dest), w') /\
    readFileSync (files w') dest = Some code /\
    code = cleanMarkdownCodeBlocks content /\
    (folder = Pages ->
     existsSync (files w) (ws ++ [js "pages"]) = true /\
     existsSync (files w) (ws ++ [js "components"]) = false).
Proof.
  intros name folder dest Hfolder Hnew.
  set (options := {| fileName := name; targetFolder := Some folder;
                     showDiff := Some false |}).
  assert (Hdest : filePathOf ws options = dest)
    by apply suggested_destination.
  assert (Htarget : targetDirOf ws options = ws ++ [folderName folder])
    by apply targetDirOf_eq.
  destruct (writeJSXCode_confirmed env w code options ws Hws Hdir)
    as (w' & Hrun & Hfs).
  - eapply List.Forall_impl;
      [|exact (slug_plain name
                 (suggestFileName_is_slug toLowerCaseOf (Some figmaName)))].
    now intros c [Hc _].
  - now rewrite Htarget.
  - now rewrite Hdest.
  - exact Hyes.
  - reflexivity.
  - exists w'. rewrite Hdest in Hrun, Hfs. split; [exact Hrun|].
    split; [|split].
    + rewrite Hfs. unfold readFileSync. now rewrite lookup_insert_eq.
    + rewrite validateJSXOutput_first_failing in Hvalid.
      destruct (first_failing _ _); [discriminate|].
      injection Hvalid as <-. unfold cleanMarkdownCodeBlocks. cbv zeta.
      apply trim_idem.
    + intros Hpages. unfold folder, determineTargetFolder in Hpages.
      rewrite Hws in Hpages. cbv zeta in Hpages.
      change (segments (join ws (js "pages")))
        with (targetDirOf ws {| fileName := []; targetFolder := Some Pages;
                                showDiff := None |}) in Hpages.
      change (segments (join ws (js "components")))
        with (targetDirOf ws {| fileName := [];
                                targetFolder := Some Components;
                                showDiff := None |}) in Hpages.
      rewrite !targetDirOf_eq in Hpages.
      cbn [targetFolderOf targetFolder folderName] in Hpages.
      destruct (existsSync (files w) (ws ++ [js "components"]));
        [discriminate|].
      destruct (existsSync (files w) (ws ++ [js "pages"]));
        [now split|discriminate].
Qed.

Lemma generated_component_is_written_witness :
  let ws := [js "proj"] in
  let w :=
    {| files := {[ ws := Dir; [js "proj"; js "pages"] := Dir ]};
       timers := []; events := [] |} in
  let env :=
    {| workspaceFolder := Some ws; now1 := 1700000000000;
       now2 := 1700000000001; answer := Some (js "Yes") |} in
  exists w',
    writeJSXCode env w (js "<div>Hi</div>")
      {| fileName := suggestFileName toLowerCase (Some (js "Hero Banner"))
                       None;
         targetFolder := Some (determineTargetFolder env w);
         showDiff := Some false |}
    = (Returned (Some [js "proj"; js "pages"; js "hero-banner.tsx"]), w') /\
    readFileSync (files w') [js "proj"; js "pages"; js "hero-banner.tsx"]
    = Some (js "<div>Hi</div>").
Proof.
  intros ws w env.
  destruct (generated_component_is_written toLowerCase env w
              (fenced (js "jsx") (js "<div>Hi</div>")) (js "Hero Banner")
              (js "<div>Hi</div>") ws eq_refl)
    as (w' & Hrun & Hread & _).
  - vm_compute. reflexivity.
  - vm_compute. reflexivity.
  - reflexivity.
  - intros c. vm_compute. discriminate.
  - vm_compute. reflexivity.
  - exists w'. split; [exact Hrun|exact Hread].
Defined.

(** X18.  The scratch files of the preview of a new file.  Let the
    workspace folder be an existing directory, the file name hold no
    separator, the scratch directory [.figma-temp] not be a file and the
    two scratch paths be free.  Then [showDiffPreviewForNewFile] writes the
    new content and an empty file to the two scratch paths and schedules a
    cleanup for each; once the timers have fired both scratch files are
    gone, while the scratch directory is left behind. *)
Theorem preview_files_are_cleaned (env : Env) (w : World)
    (fileUri : path) (newContent targetFolder fileName : jsstring)
    (ws : path)
    (Hws : workspaceFolder env = Some ws)
    (Hdir : isDirectory (files w) ws = true)
    (Hplain : Forall (fun c => (c =? slash)%N = false) fileName) :
  let tempDir := ws ++ [js ".figma-temp"] in
  let tempUri := tempDir ++ [tempName (js "temp-") (now1 env) fileName] in
  let emptyUri := tempDir ++ [tempName (js "empty-") (now2 env) fileName] in
  let w' :=
    showDiffPreviewForNewFile env w fileUri newContent targetFolder
      fileName in
  (forall c, files w !! tempDir <> Some (File c)) ->
  files w !! tempUri = None ->
  files w !! emptyUri = None ->
  readFileSync (files w') tempUri = Some newContent /\
  readFileSync (files w') emptyUri = Some [] /\
  timers w' = timers w ++ [tempUri; emptyUri] /\
  files (runCleanup w') !! tempUri = None /\
  files (runCleanup w') !! emptyUri = None /\
  (Forall (fun t => t <> tempDir) (timers w) ->
   files (runCleanup w') !! tempDir = Some Dir).
Proof.
  intros tempDir tempUri emptyUri w' Htemp Hfree1 Hfree2.
  assert (Hne : tempUri <> emptyUri).
  { unfold tempUri, emptyUri. intros H. apply app_inj_tail in H as [_ H].
    unfold tempName in H. cbn in H. discriminate. }
  assert (Hd1 : tempUri <> tempDir) by apply child_neq.
  assert (Hd2 : emptyUri <> tempDir) by apply child_neq.
  set (fs1 := if existsSync (files w) tempDir then files w
              else <[tempDir := Dir]> (files w)).
  assert (Hensure : ensureTempDir (files w) ws = Some fs1).
  { unfold ensureTempDir. rewrite tempDirOf_eq. fold tempDir. unfold fs1.
    unfold existsSync.
    destruct (files w !! tempDir) as [[c|]|] eqn:E.
    - now destruct (Htemp c).
    - reflexivity.
    - now apply mkdirSync_child. }
  assert (Hdir1 : isDirectory fs1 tempDir = true).
  { unfold fs1, existsSync.
    destruct (files w !! tempDir) as [[c|]|] eqn:E.
    - now destruct (Htemp c).
    - now apply isDirectory_child.
    - apply isDirectory_child; [now apply dirsFrom_insert|].
      apply lookup_insert_eq. }
  assert (Hfs1 : forall q, q <> tempDir -> fs1 !! q = files w !! q).
  { intros q Hq. unfold fs1. destruct (existsSync _ _); [reflexivity|].
    now rewrite lookup_insert_ne by congruence. }
  set (fs2 := <[tempUri := File newContent]> fs1).
  set (fs3 := <[emptyUri := File []]> fs2).
  assert (Hrun : w' =
    scheduleTempFileCleanup
      (scheduleTempFileCleanup
         (log (withFiles w fs3) (DiffShown emptyUri tempUri)) tempUri)
      emptyUri).
  { unfold w', showDiffPreviewForNewFile. rewrite Hws, Hensure.
    rewrite tempDirOf_eq. fold tempDir.
    rewrite !tempName_simple by
      (try exact Hplain; try (cbn; lia); repeat constructor).
    unfold writeFileAt. cbn [trailingSeparator segments].
    fold tempUri emptyUri. cbv zeta.
    unfold tempUri at 1. rewrite writeFile_new;
      [|exact Hdir1|fold tempUri; now rewrite Hfs1].
    fold tempUri fs2. cbn [files withFiles].
    unfold emptyUri at 1. rewrite writeFile_new.
    - reflexivity.
    - unfold fs2. now apply dirsFrom_insert; [fold tempUri; rewrite Hfs1|].
    - fold emptyUri. unfold fs2.
      rewrite lookup_insert_ne by exact Hne. now rewrite Hfs1. }
  rewrite Hrun. cbn [files timers scheduleTempFileCleanup log withFiles].
  assert (H3t : fs3 !! tempUri = Some (File newContent)).
  { unfold fs3, fs2. rewrite lookup_insert_ne by congruence.
    apply lookup_insert_eq. }
  assert (H3e : fs3 !! emptyUri = Some (File [])).
  { unfold fs3. apply lookup_insert_eq. }
  assert (H3d : fs3 !! tempDir = Some Dir).
  { unfold fs3, fs2. rewrite !lookup_insert_ne by congruence.
    unfold fs1, existsSync.
    destruct (files w !! tempDir) as [[c|]|] eqn:E.
    - now destruct (Htemp c).
    - exact E.
    - apply lookup_insert_eq. }
  split; [unfold readFileSync; now rewrite H3t|].
  split; [unfold readFileSync; now rewrite H3e|].
  split; [now rewrite <- app_assoc|].
  unfold runCleanup.
  cbn [files timers scheduleTempFileCleanup log withFiles].
  split; [|split].
  - rewrite <- app_assoc. cbn [app]. apply cleanup_removes.
    intros c Hc. rewrite H3t in Hc. injection Hc as <-. discriminate.
  - replace ((timers w ++ [tempUri]) ++ [emptyUri])
      with ((timers w ++ [tempUri]) ++ emptyUri :: []) by reflexivity.
    apply cleanup_removes.
    intros c Hc. rewrite H3e in Hc. injection Hc as <-. discriminate.
  - intros Hold.
    pose proof (runCleanup_frame
                  {| files := fs3;
                     timers := (timers w ++ [tempUri]) ++ [emptyUri];
                     events := events w ++ [DiffShown emptyUri tempUri] |}
                  tempDir) as Hframe.
    cbn [files timers runCleanup] in Hframe. rewrite Hframe; [exact H3d|].
    repeat (apply Forall_app; split); [exact Hold|..];
      repeat constructor; congruence.
Qed.

Lemma preview_files_are_cleaned_witness :
  let ws := [js "proj"] in
  let w := {| files := {[ ws := Dir ]}; timers := []; events := [] |} in
  let env :=
    {| workspaceFolder := Some ws; now1 := 1700000000000;
       now2 := 1700000000001; answer := None |} in
  let w' :=
    showDiffPreviewForNewFile env w [js "proj"; js "components"; js "a.tsx"]
      (js "<div />") (js "components") (js "a.tsx") in
  files (runCleanup w')
    !! [js "proj"; js ".figma-temp"; js "temp-1700000000000-a.tsx"] = None.
Proof.
  intros ws w env w'.
  apply (preview_files_are_cleaned env w
           [js "proj"; js "components"; js "a.tsx"] (js "<div />")
           (js "components") (js "a.tsx") ws eq_refl).
  - vm_compute. reflexivity.
  - repeat constructor.
  - intros c. vm_compute. discriminate.
  - vm_compute. reflexivity.
  - vm_compute. reflexivity.
Defined.

(** X26.  The preview of a new file is not confined to the scratch
    directory.  Let the file name, with its extension, step upwards three
    times and then name a file ([../../../name]): both scratch paths of the
    preview then resolve to [name] in the workspace folder itself.  If a
    file stands there, a write with the preview on that the user declines
    leaves it empty, and the cleanup timers then remove it. *)
Theorem declined_preview_empties_workspace_file (env : Env) (w : World)
    (jsxCode old name : jsstring) (options : WriteOptions) (ws : path)
    (Hws : workspaceFolder env = Some ws)
    (Hdir : isDirectory (files w) ws = true)
    (Hplain : Forall (fun c => (c =? slash)%N = false) name)
    (Hname : name <> [] /\ name <> js "." /\ name <> js "..")
    (Hup : coerceExtension (fileName options) = js "../../../" ++ name)
    (Hfile : files w !! (ws ++ [name]) = Some (File old))
    (Hnew : existsSyncAt (files w) (destinationOf ws options) = false)
    (Hshow : showDiff options <> Some false)
    (Hno : answer env <> Some (js "Yes")) :
  exists w',
    writeJSXCode env w jsxCode options = (Returned None, w') /\
    files w' !! (ws ++ [name]) = Some (File []) /\
    files (runCleanup w') !! (ws ++ [name]) = None.
Proof.
  unfold writeJSXCode. rewrite Hws. cbv zeta.
  change (segments (join ws (targetFolderOf options)))
    with (targetDirOf ws options).
  change (join (targetDirOf ws options) (coerceExtension (fileName options)))
    with (destinationOf ws options).
  rewrite (ensure_targetDir w ws options Hdir).
  set (fs1 := if existsSync (files w) (targetDirOf ws options) then files w
              else <[targetDirOf ws options := Dir]> (files w)).
  assert (H1 : fs1 !! filePathOf ws options = files w !! filePathOf ws options).
  { unfold fs1. destruct (existsSync _ _); [reflexivity|].
    apply lookup_insert_ne.
    intros Heq. now apply (filePathOf_not_targetDir ws options). }
  assert (Hdir1 : isDirectory fs1 ws = true).
  { unfold fs1, existsSync.
    destruct (files w !! targetDirOf ws options) eqn:E; [exact Hdir|].
    now apply dirsFrom_insert. }
  assert (Hfile1 : fs1 !! (ws ++ [name]) = Some (File old)).
  { unfold fs1, existsSync.
    destruct (files w !! targetDirOf ws options) eqn:E; [exact Hfile|].
    rewrite lookup_insert_ne; [exact Hfile|]. intros Heq.
    rewrite Heq in E. congruence. }
  cbn [files withFiles].
  rewrite (existsSyncAt_ext (files w) fs1 (destinationOf ws options) H1).
  rewrite Hnew. rewrite (bool_decide_eq_true_2 _ Hshow).
  unfold askUserConfirmation.
  rewrite (bool_decide_eq_false_2 _ Hno). cbn [negb].
  eexists. split; [reflexivity|]. cbn [files log].
  unfold showDiffPreviewForNewFile. rewrite Hws, Hup.
  rewrite !tempName_upwards by
    (try exact Hplain; try exact Hname; try (cbn; lia); repeat constructor).
  unfold writeFileAt. cbn [trailingSeparator segments files withFiles].
  assert (Hensure : exists fs2,
             ensureTempDir fs1 ws = Some fs2 /\
             isDirectory fs2 ws = true /\
             fs2 !! (ws ++ [name]) = Some (File old)).
  { unfold ensureTempDir, existsSync.
    destruct (fs1 !! tempDirOf ws) eqn:E; [eauto|].
    rewrite tempDirOf_eq in *.
    rewrite (mkdirSync_child fs1 ws _ Hdir1 E).
    eexists. split; [reflexivity|]. split; [now apply dirsFrom_insert|].
    rewrite lookup_insert_ne; [exact Hfile1|]. intros Heq.
    rewrite Heq in E. congruence. }
  destruct Hensure as (fs2 & -> & Hdir2 & Hfile2).
  assert (Hwrite : forall fs c c',
             isDirectory fs ws = true ->
             fs !! (ws ++ [name]) = Some (File c) ->
             writeFile fs (ws ++ [name]) c'
             = Some (<[ws ++ [name] := File c']> fs)).
  { intros fs c c' Hd Hf. unfold writeFile. rewrite Hf.
    now rewrite removelast_last, (mkdirSync_existing fs ws Hd). }
  rewrite (Hwrite fs2 old jsxCode Hdir2 Hfile2).
  assert (Hdir3 : isDirectory (<[ws ++ [name] := File jsxCode]> fs2) ws
                  = true).
  { rewrite <- Hdir2. unfold isDirectory. apply dirsFrom_ext.
    intros pre post Hpp Hpre. cbn [app]. apply lookup_insert_ne.
    intros Heq. rewrite Hpp, <- app_assoc in Heq.
    rewrite <- (app_nil_r pre) in Heq at 2.
    apply app_inv_head in Heq. now destruct post. }
  rewrite (Hwrite _ jsxCode [] Hdir3) by apply lookup_insert_eq.
  cbn [files timers scheduleTempFileCleanup log withFiles runCleanup].
  split; [apply lookup_insert_eq|].
  rewrite <- app_assoc. cbn [app]. apply cleanup_removes.
  intros c Hc. rewrite lookup_insert_eq in Hc. injection Hc as <-.
  discriminate.
Qed.

Lemma declined_preview_empties_workspace_file_witness :
  let ws := [js "home"; js "user"; js "proj"] in
  let options :=
    {| fileName := js "../../../index.tsx"; targetFolder := None;
       showDiff := None |} in
  let w :=
    {| files := {[ [js "home"] := Dir; [js "home"; js "user"] := Dir;
                   ws := Dir;
                   [js "home"; js "user"; js "proj"; js "index.tsx"]
                     := File (js "<App />") ]};
       timers := []; events := [] |} in
  let env :=
    {| workspaceFolder := Some ws; now1 := 1700000000000;
       now2 := 1700000000001; answer := Some (js "No") |} in
  exists w',
    writeJSXCode env w (js "<div />") options = (Returned None, w') /\
    files w' !! [js "home"; js "user"; js "proj"; js "index.tsx"]
    = Some (File []) /\
    files (runCleanup w')
      !! [js "home"; js "user"; js "proj"; js "index.tsx"] = None.
Proof.
  intros ws options w env.
  apply (declined_preview_empties_workspace_file env w (js "<div />")
           (js "<App />") (js "index.tsx") options ws eq_refl).
  - vm_compute. reflexivity.
  - repeat constructor.
  - repeat split; discriminate.
  - vm_compute. reflexivity.
  - vm_compute. reflexivity.
  - vm_compute. reflexivity.
  - discriminate.
  - discriminate.
Defined.

(** ** The Figma reference and the request *)

(** X19.  What a parsed reference holds, for every input: the file
    identifier is a run of at least one letter or digit, and a node
    identifier, when there is one, is not empty. *)
Theorem parseFigmaUrl_reference_shape (figmaUrl : jsstring)
    (p : ParsedFigmaUrl) :
  parseFigmaUrl figmaUrl = Parsed p ->
  fileId p <> [] /\
  Forall (fun c => isAlnum c = true) (fileId p) /\
  (forall n, nodeId p = Some n -> n <> []).
Proof.
  intros H. apply parseFigmaUrl_parsed in H as (H1 & H2 & H3).
  split; [exact H1|]. split; [exact H2|].
  intros n Hn. now apply H3.
Qed.

Lemma parseFigmaUrl_reference_shape_witness :
  let p := {| fileId := js "AbC123"; nodeId := Some (js "1:2") |} in
  fileId p <> [] /\
  Forall (fun c => isAlnum c = true) (fileId p) /\
  (forall n, nodeId p = Some n -> n <> []).
Proof.
  apply (parseFigmaUrl_reference_shape
           (js " https://www.figma.com/file/AbC123/Home?node-id=1%3A2 ")).
  vm_compute. reflexivity.
Defined.

(** X20.  The request of [fetchFigmaLayout].  Whenever [fetch] is called,
    for an input made of code units: a token that is not empty is sent, the
    setting if it is set and not empty and the environment variable
    otherwise; the input has been parsed; and the URL is the address of
    the files API followed by the file identifier alone, when there is no
    node identifier, or by the file identifier, [/nodes?ids=] and a
    parameter that is not empty and holds only unreserved characters and
    percent signs.  So no request is made without a token or for an input
    that is not a reference, and nothing of the input reaches the URL
    unescaped but letters, digits and unreserved marks. *)
Theorem fetch_request_is_well_formed (sources : TokenSources)
    (figmaUrl url token : jsstring) :
  Forall isCodeUnit figmaUrl ->
  fetchFigmaLayout_request sources figmaUrl = Fetch url token ->
  token <> [] /\
  Some token = orElse (figmaToken sources) (FIGMA_TOKEN sources) /\
  exists p,
    parseFigmaUrl figmaUrl = Parsed p /\
    ((nodeId p = None /\ url = API_FILES ++ fileId p) \/
     (exists ids,
        url = API_FILES ++ fileId p ++ js "/nodes?ids=" ++ ids /\
        ids <> [] /\ Forall (fun c => isEncoded c = true) ids)).
Proof.
  intros Hunits. unfold fetchFigmaLayout_request. cbv zeta.
  destruct (orElse (figmaToken sources) (FIGMA_TOKEN sources))
    as [[|c tk]|] eqn:Etok; try discriminate.
  destruct (parseFigmaUrl figmaUrl) as [p| |] eqn:Eparse; try discriminate.
  destruct (parseFigmaUrl_parsed figmaUrl p Eparse) as (_ & _ & Hnode).
  destruct (nodeId p) as [[|d n]|] eqn:En; cbn [truthy].
  - destruct (Hnode [] eq_refl) as [Hne _]. congruence.
  - destruct (encodeURIComponent (replaceColons (d :: n))) as [ids|] eqn:Eenc;
      [|discriminate].
    intros [= <- <-]. split; [discriminate|]. split; [reflexivity|].
    exists p. split; [reflexivity|]. right. exists ids.
    split; [reflexivity|]. split.
    + apply (encode_nonempty _ _ Eenc). discriminate.
    + apply (encode_encoded _ _ (replaceColons_units _
               (proj2 (Hnode (d :: n) eq_refl) Hunits)) Eenc).
  - intros [= <- <-]. split; [discriminate|]. split; [reflexivity|].
    exists p. split; [reflexivity|]. now left.
Qed.

Lemma fetch_request_is_well_formed_witness :
  let sources :=
    {| figmaToken := Some []; FIGMA_TOKEN := Some (js "figd_token") |} in
  let figmaUrl :=
    js "https://www.figma.com/design/AbC123/Home?node-id=1%3A2&t=x" in
  let url := js "https://api.figma.com/v1/files/AbC123/nodes?ids=1-2" in
  fetchFigmaLayout_request sources figmaUrl = Fetch url (js "figd_token") /\
  exists p,
    parseFigmaUrl figmaUrl = Parsed p /\
    ((nodeId p = None /\ url = API_FILES ++ fileId p) \/
     (exists ids,
        url = API_FILES ++ fileId p ++ js "/nodes?ids=" ++ ids /\
        ids <> [] /\ Forall (fun c => isEncoded c = true) ids)).
Proof.
  intros sources figmaUrl url.
  assert (Hrun : fetchFigmaLayout_request sources figmaUrl
                 = Fetch url (js "figd_token"))
    by (vm_compute; reflexivity).
  split; [exact Hrun|].
  apply (fetch_request_is_well_formed sources figmaUrl url (js "figd_token")).
  - repeat constructor.
  - exact Hrun.
Defined.

(** ** The report of errors *)

(** X21.  Every rejection of the validator is reported by [handleError] as
    a failed code generation: the notification is the error message
    [Code generation failed: ] followed by the violation and by the advice
    to check the configuration of the AI service, without buttons. *)
Theorem rejection_is_reported (jsxCode m : jsstring) :
  validateJSXOutput jsxCode = Throw m ->
  handleError (ErrorObject m)
  = ErrorMessage
      (js "Code generation failed: " ++ m ++
       js ". Please check your AI service configuration.") [].
Proof.
  intros H. rewrite validateJSXOutput_first_failing in H.
  destruct (first_failing gate_tests (trim jsxCode)) as [m'|] eqn:E;
    [|discriminate].
  injection H as <-. apply first_failing_message in E.
  cbn [gate_tests List.map snd In] in E.
  repeat (destruct E as [<-|E]; [vm_compute; reflexivity|]).
  destruct E.
Qed.

Lemma rejection_is_reported_witness :
  handleError (ErrorObject MSG_STYLE_STRING)
  = ErrorMessage
      (js "Code generation failed: " ++ MSG_STYLE_STRING ++
       js ". Please check your AI service configuration.") [].
Proof.
  apply (rejection_is_reported (js "<div style='color:red'>x</div>")).
  vm_compute. reflexivity.
Defined.

(** X22.  The refusal to overwrite is reported by [handleError] as a
    warning: for every options, the already-exists error of [writeJSXCode]
    gives the warning with that message and the buttons [Show Diff] and
    [Change File Name], whatever the file name holds. *)
Theorem refusal_is_reported (options : WriteOptions) :
  handleError (ErrorObject (alreadyExistsMessage options))
  = WarningMessage (alreadyExistsMessage options)
      [js "Show Diff"; js "Change File Name"].
Proof.
  unfold handleError.
  assert (H : includes (alreadyExistsMessage options) (js "already exists")
              = true).
  { unfold alreadyExistsMessage.
    change (js "File already exists: ")
      with (js "File " ++ js "already exists" ++ js ": ").
    rewrite <- !app_assoc. apply includes_part. }
  now rewrite H.
Qed.

(** X23.  Round trip of the two escape functions the Figma service uses:
    whatever [encodeURIComponent] writes for a string of code units,
    [decodeURIComponent] reads back as that string. *)
Theorem decodeURIComponent_encodeURIComponent (s e : jsstring) :
  Forall isCodeUnit s ->
  encodeURIComponent s = Some e ->
  decodeURIComponent e = Some s.
Proof. apply decode_encode. Qed.

Lemma decodeURIComponent_encodeURIComponent_witness :
  decodeURIComponent (js "1%3A2%20a") = Some (js "1:2 a").
Proof.
  apply decodeURIComponent_encodeURIComponent.
  - repeat constructor.
  - reflexivity.
Defined.

(** X24.  A node identifier written into the query of a Figma URL with
    [encodeURIComponent] is recovered by [parseFigmaUrl] as it was: for a
    URL of the form prefix, [figma.com/], [file] or [design], the file
    identifier, a name, and a query whose first [node-id] parameter is the
    encoded identifier, the reference parsed holds the file identifier and
    the identifier that was encoded. *)
Theorem encoded_node_id_is_recovered
    (prefix kind fid name node enc tail : jsstring) (sep : N) :
  let before :=
    prefix ++ js "figma.com/" ++ kind ++ js "/" ++ fid ++ js "/" ++ name in
  let url := before ++ sep :: js "node-id=" ++ enc ++ tail in
  Forall (fun c => isWhiteSpace c = false) url ->
  Forall (fun c => (102 =? c)%N = false) prefix ->
  kind = js "file" \/ kind = js "design" ->
  fid <> [] -> Forall (fun c => isAlnum c = true) fid ->
  ~ contains (lit (js "node-id=")) before ->
  isQueryMark sep = true ->
  match tail with [] => True | x :: _ => x = 38%N end ->
  node <> [] -> Forall isCodeUnit node ->
  encodeURIComponent node = Some enc ->
  parseFigmaUrl url = Parsed {| fileId := fid; nodeId := Some node |}.
Proof.
  intros before url Hvis Hpre Hkind Hfid Hal Hnone Hsep Htail Hnode Hunits
    Henc.
  apply parseFigmaUrl_url; try assumption.
  - now apply (encode_nonempty node enc Henc).
  - eapply List.Forall_impl; [|exact (encode_encoded node enc Hunits Henc)].
    exact encoded_not_ampersand.
  - now apply decode_encode.
Qed.

Lemma encoded_node_id_is_recovered_witness :
  parseFigmaUrl
    (js "https://www." ++ js "figma.com/" ++ js "design" ++ js "/"
     ++ js "AbC123" ++ js "/" ++ js "Home"
     ++ 63%N :: js "node-id=" ++ js "12%3A34" ++ js "&t=x")
  = Parsed {| fileId := js "AbC123"; nodeId := Some (js "12:34") |}.
Proof.
  apply (encoded_node_id_is_recovered (js "https://www.") (js "design")
           (js "AbC123") (js "Home") (js "12:34") (js "12%3A34")
           (js "&t=x") 63%N).
  - repeat constructor.
  - repeat constructor.
  - now right.
  - discriminate.
  - repeat constructor.
  - apply test_not_contains. vm_compute. reflexivity.
  - reflexivity.
  - reflexivity.
  - discriminate.
  - repeat constructor.
  - reflexivity.
Defined.

(** ** The spacing tables *)

(** X25.  [spacingToTailwind] never reads outside the table of unit names:
    for every value the result is one of the first 24 unit names, one per
    entry of the pixel scale, with the marker [-] in front exactly when the
    value is negative.  The names after the 24th are never returned. *)
Theorem spacingToTailwind_defined (px : Q) :
  exists unit,
    In unit (firstn 24 SPACING_UNITS) /\
    spacingToTailwind px = if Qltb px 0 then js "-" ++ unit else unit.
Proof.
  unfold spacingToTailwind. cbv zeta.
  pose proof (findClosestIndex_in_range (Qabs px) SPACING_SCALE_PX) as Hr.
  specialize (Hr ltac:(discriminate)).
  change (Z.of_nat (length SPACING_SCALE_PX)) with 24%Z in Hr.
  set (i := findClosestIndex (Qabs px) SPACING_SCALE_PX) in *.
  assert (Hn : nth_error (firstn 24 SPACING_UNITS) (Z.to_nat i)
               = nth_error SPACING_UNITS (Z.to_nat i)).
  { rewrite nth_error_firstn.
    destruct (Nat.ltb_spec (Z.to_nat i) 24); [reflexivity|lia]. }
  unfold lookupZ. destruct (Z.ltb_spec i 0) as [Hneg|_]; [lia|].
  destruct (nth_error SPACING_UNITS (Z.to_nat i)) as [unit|] eqn:E.
  - exists unit. split; [|reflexivity].
    eapply nth_error_In. exact Hn.
  - exfalso. apply nth_error_None in E.
    change (length SPACING_UNITS) with 34%nat in E. lia.
Qed.
